(** * Rogue: dungeon generation and turn resolution of [index.js]

    A shallow embedding of the game core of [src/index.js] (map synthesis,
    entity placement, the move / attack / enemy-turn state machine) and the
    properties of its specification.

    Modelling conventions.
    - JavaScript numbers are modelled by [Z]: every number the game core
      handles is an integer far below 2^53.
    - A JavaScript array is an object with integer keys.  The grid [map] is
      an array of rows; a row is modelled by a finite map from column index
      to tile and the grid by a finite map from row index to row.  Reading
      [map[y][x]] throws a TypeError when row [y] does not exist, and yields
      [undefined] ([None]) when the row exists without a column [x]; writing
      [map[y][x] = t] throws when the row does not exist and otherwise sets
      column [x], whatever [x] is.
    - An object literal inherits the members of [Object.prototype]:
      [name in obj] holds of its own properties and of the inherited names
      alike, and destructuring a value that is not iterable throws a
      TypeError.
    - [Math.random()] is an oracle: an infinite stream of rationals of
      [[0,1)], read through a cursor.
    - The module-level globals ([map], [hero], [enemies], [rooms],
      [potionsCarried], [killed]) and the two flags of the [Game] object
      ([_gameOver], [_win]) form the record [Game]; methods are computations
      in a state monad over it.  A thrown exception keeps the mutations made
      so far, as in JavaScript.  A [while] loop of the placement code runs on
      fuel; running out of it is the outcome [Spin].
    - DOM code does not touch the game state, and the methods of the turn
      engine are modelled without their calls of it.  On its own, [draw] is
      modelled by the content it gives the field, [bindInput] by the list of
      the [keydown] listeners of the window, and the Restart button of the
      game-over screens by its click handler; [updateHUD] and [resizeField]
      are left out. *)

From stdpp Require Import gmap list strings.
From Stdlib Require Import ZArith Lia.

Local Open Scope Z_scope.

(** ** Configuration constants *)

Definition MAP_WIDTH : Z := 40.
Definition MAP_HEIGHT : Z := 24.

Definition SWORD_COUNT : Z := 1.
Definition POTION_COUNT : Z := 2.

Definition ROOM_MIN : Z := 3.
Definition ROOM_MAX : Z := 8.
Definition ROOM_COUNT_MIN : Z := 5.
Definition ROOM_COUNT_MAX : Z := 10.

Definition CORRIDOR_MIN : Z := 3.
Definition CORRIDOR_MAX : Z := 5.

Definition ENEMY_COUNT : Z := 10.
Definition ENEMY_HP : Z := 5.
Definition ENEMY_ATTACK : Z := 1.

Definition HERO_HP : Z := 10.
Definition HERO_ATTACK : Z := 1.

(** ** Data model *)

Inductive Tile : Type := TILE_EMPTY | TILE_WALL | TILE_SWORD | TILE_POTION.

#[global] Instance Tile_eq_dec : EqDecision Tile.
Proof. solve_decision. Defined.

Module Hero.
Record t : Type := mk { x : Z; y : Z; hp : Z; maxHp : Z; attack : Z }.

Definition set_pos (nx ny : Z) (h : t) : t :=
  {| x := nx; y := ny; hp := hp h; maxHp := maxHp h; attack := attack h |}.
Definition set_hp (v : Z) (h : t) : t :=
  {| x := x h; y := y h; hp := v; maxHp := maxHp h; attack := attack h |}.
Definition set_attack (v : Z) (h : t) : t :=
  {| x := x h; y := y h; hp := hp h; maxHp := maxHp h; attack := v |}.
End Hero.

Module Enemy.
Record t : Type :=
  mk { x : Z; y : Z; hp : Z; maxHp : Z; attack : Z; _justRetaliated : bool }.

Definition set_pos (nx ny : Z) (e : t) : t :=
  {| x := nx; y := ny; hp := hp e; maxHp := maxHp e; attack := attack e;
     _justRetaliated := _justRetaliated e |}.
Definition set_hp (v : Z) (e : t) : t :=
  {| x := x e; y := y e; hp := v; maxHp := maxHp e; attack := attack e;
     _justRetaliated := _justRetaliated e |}.
Definition set_justRetaliated (b : bool) (e : t) : t :=
  {| x := x e; y := y e; hp := hp e; maxHp := maxHp e; attack := attack e;
     _justRetaliated := b |}.

(** The test [e.x === tx && e.y === ty] of the [find], [findIndex] and
    [some] callbacks. *)
Definition at_pos (tx ty : Z) (e : t) : bool :=
  bool_decide (x e = tx) && bool_decide (y e = ty).
End Enemy.

Module Room.
Record t : Type := mk { x : Z; y : Z; w : Z; h : Z }.
End Room.

#[global] Instance Hero_eq_dec : EqDecision Hero.t.
Proof. solve_decision. Defined.

#[global] Instance Enemy_eq_dec : EqDecision Enemy.t.
Proof. solve_decision. Defined.

Abbreviation Grid := (gmap Z (gmap Z Tile)).

Record Game : Type := mkGame {
  map : Grid;
  hero : Hero.t;
  enemies : list Enemy.t;
  rooms : list Room.t;
  potionsCarried : Z;
  killed : Z;
  _gameOver : bool;
  _win : bool
}.

Definition set_map (m : Grid) (g : Game) : Game :=
  mkGame m (hero g) (enemies g) (rooms g) (potionsCarried g) (killed g)
         (_gameOver g) (_win g).
Definition set_hero (h : Hero.t) (g : Game) : Game :=
  mkGame (map g) h (enemies g) (rooms g) (potionsCarried g) (killed g)
         (_gameOver g) (_win g).
Definition set_enemies (es : list Enemy.t) (g : Game) : Game :=
  mkGame (map g) (hero g) es (rooms g) (potionsCarried g) (killed g)
         (_gameOver g) (_win g).
Definition set_rooms (rs : list Room.t) (g : Game) : Game :=
  mkGame (map g) (hero g) (enemies g) rs (potionsCarried g) (killed g)
         (_gameOver g) (_win g).
Definition set_potionsCarried (v : Z) (g : Game) : Game :=
  mkGame (map g) (hero g) (enemies g) (rooms g) v (killed g)
         (_gameOver g) (_win g).
Definition set_killed (v : Z) (g : Game) : Game :=
  mkGame (map g) (hero g) (enemies g) (rooms g) (potionsCarried g) v
         (_gameOver g) (_win g).
Definition set_flags (over won : bool) (g : Game) : Game :=
  mkGame (map g) (hero g) (enemies g) (rooms g) (potionsCarried g) (killed g)
         over won.

(** ** The random oracle *)

(** A sample stands for the rational [num / (num + gap + 1)], so that every
    sample lies in [[0,1)] and every rational of [[0,1)] is a sample. *)
Record Sample : Type := mkSample { num : nat; gap : nat }.

Record Rng : Type := mkRng { stream : nat → Sample; cursor : nat }.

(** [Math.floor(u * n)] for the sample [u] and the integer [n]. *)
Definition floor_scale (u : Sample) (n : Z) : Z :=
  (Z.of_nat (num u) * n) `div` (Z.of_nat (num u) + Z.of_nat (gap u) + 1).

(** ** The state monad of the game *)

Inductive Res (A : Type) : Type :=
| Ok (a : A) (g : Game) (r : Rng)
| Throw (g : Game) (r : Rng)
| Spin.
Arguments Ok {A} a g r.
Arguments Throw {A} g r.
Arguments Spin {A}.

Definition M (A : Type) : Type := Game → Rng → Res A.

Definition ret {A} (a : A) : M A := λ g r, Ok a g r.
Definition bind {A B} (m : M A) (k : A → M B) : M B :=
  λ g r, match m g r with
         | Ok a g' r' => k a g' r'
         | Throw g' r' => Throw g' r'
         | Spin => Spin
         end.
Definition throw {A} : M A := λ g r, Throw g r.
Definition spin {A} : M A := λ _ _, Spin.
Definition get : M Game := λ g r, Ok g g r.
Definition modify (f : Game → Game) : M unit := λ g r, Ok tt (f g) r.

Notation "'let*' x ':=' m 'in' k" := (bind m (λ x, k))
  (at level 10, x name, m at level 100, k at level 200).
Notation "m ;;; k" := (bind m (λ _ : unit, k))
  (at level 100, k at level 200, right associativity).

Fixpoint forEach {A} (l : list A) (body : A → M unit) : M unit :=
  match l with
  | [] => ret tt
  | a :: l' => body a ;;; forEach l' body
  end.

(** [Math.random()] *)
Definition random : M Sample :=
  λ g r, Ok (stream r (cursor r)) g (mkRng (stream r) (S (cursor r))).

(** [randomInt(min,max) { return Math.floor(Math.random()*(max-min+1))+min; }] *)
Definition randomInt (min max : Z) : M Z :=
  let* u := random in ret (floor_scale u (max - min + 1) + min).

(** [map[y][x]] as an expression *)
Definition readTile (y x : Z) : M (option Tile) :=
  let* g := get in
  match map g !! y with
  | Some row => ret (row !! x)
  | None => throw
  end.

(** [map[y][x] = t] *)
Definition writeTile (y x : Z) (t : Tile) : M unit :=
  let* g := get in
  match map g !! y with
  | Some row => modify (set_map (<[y := <[x := t]> row]> (map g)))
  | None => throw
  end.

(** ** MapGenerator *)

(** [generateMap]: [MAP_HEIGHT] fresh rows of [MAP_WIDTH] walls. *)
Definition wallRow : gmap Z Tile :=
  list_to_map ((λ x, (x, TILE_WALL)) <$> seqZ 0 MAP_WIDTH).
Definition wallGrid : Grid :=
  list_to_map ((λ y, (y, wallRow)) <$> seqZ 0 MAP_HEIGHT).

Definition generateMap : M unit := modify (set_map wallGrid).

(** The two nested [for] loops of [placeRooms] that carve one room. *)
Definition carveRoom (x y w h : Z) : M unit :=
  forEach (seqZ y h) (λ ry,
    forEach (seqZ x w) (λ rx, writeTile ry rx TILE_EMPTY)).

Definition placeRoom : M unit :=
  let* w := randomInt ROOM_MIN ROOM_MAX in
  let* h := randomInt ROOM_MIN ROOM_MAX in
  let* x := randomInt 1 (MAP_WIDTH - w - 2) in
  let* y := randomInt 1 (MAP_HEIGHT - h - 2) in
  modify (λ g, set_rooms (rooms g ++ [Room.mk x y w h]) g) ;;;
  carveRoom x y w h.

Definition placeRooms : M unit :=
  modify (set_rooms []) ;;;
  let* count := randomInt ROOM_COUNT_MIN ROOM_COUNT_MAX in
  forEach (seqZ 0 count) (λ _, placeRoom).

(** [Math.floor(r.x + r.w / 2)]: the coordinates are integers, so the floor
    of the sum is the sum with the floored half. *)
Definition centre (c len : Z) : Z := c + len `div` 2.

(** The body of the first loop of [carveCorridors], for the index [i]. *)
Definition connectRooms (i : nat) : M unit :=
  let* g := get in
  match rooms g !! (i - 1)%nat, rooms g !! i with
  | Some r1, Some r2 =>
      let x1 := centre (Room.x r1) (Room.w r1) in
      let y1 := centre (Room.y r1) (Room.h r1) in
      let x2 := centre (Room.x r2) (Room.w r2) in
      let y2 := centre (Room.y r2) (Room.h r2) in
      forEach (seqZ (x1 `min` x2) (x1 `max` x2 - x1 `min` x2 + 1))
              (λ x, writeTile y1 x TILE_EMPTY) ;;;
      forEach (seqZ (y1 `min` y2) (y1 `max` y2 - y1 `min` y2 + 1))
              (λ y, writeTile y x2 TILE_EMPTY)
  | _, _ => throw
  end.

Definition carveCorridors : M unit :=
  let* g := get in
  forEach (seq 1 (length (rooms g) - 1)) connectRooms ;;;
  let* hCount := randomInt CORRIDOR_MIN CORRIDOR_MAX in
  let* vCount := randomInt CORRIDOR_MIN CORRIDOR_MAX in
  forEach (seqZ 0 hCount) (λ _,
    let* y := randomInt 1 (MAP_HEIGHT - 2) in
    forEach (seqZ 0 MAP_WIDTH) (λ x, writeTile y x TILE_EMPTY)) ;;;
  forEach (seqZ 0 vCount) (λ _,
    let* x := randomInt 1 (MAP_WIDTH - 2) in
    forEach (seqZ 0 MAP_HEIGHT) (λ y, writeTile y x TILE_EMPTY)).

(** ** EntityPlacer *)

Definition is_empty (c : option Tile) : bool := bool_decide (c = Some TILE_EMPTY).

(** The [while (true)] loop of [placeHero]. *)
Fixpoint placeHero_loop (fuel : nat) : M unit :=
  match fuel with
  | O => spin
  | S fuel' =>
      let* x := randomInt 0 (MAP_WIDTH - 1) in
      let* y := randomInt 0 (MAP_HEIGHT - 1) in
      let* c := readTile y x in
      if is_empty c
      then modify (λ g, set_hero (Hero.set_pos x y (hero g)) g)
      else placeHero_loop fuel'
  end.

Definition placeHero (fuel : nat) : M unit :=
  modify (set_hero (Hero.mk 0 0 HERO_HP HERO_HP HERO_ATTACK)) ;;;
  placeHero_loop fuel.

(** One [while (placed < limit)] loop of [placeItems]; [placed] is the value
    of the counter on entry. *)
Fixpoint scatter (tile : Tile) (limit : Z) (fuel : nat) (placed : Z) : M unit :=
  if bool_decide (placed < limit) then
    match fuel with
    | O => spin
    | S fuel' =>
        let* x := randomInt 0 (MAP_WIDTH - 1) in
        let* y := randomInt 0 (MAP_HEIGHT - 1) in
        let* c := readTile y x in
        let* g := get in
        if is_empty c
           && negb (bool_decide (x = Hero.x (hero g))
                    && bool_decide (y = Hero.y (hero g)))
        then writeTile y x tile ;;; scatter tile limit fuel' (placed + 1)
        else scatter tile limit fuel' placed
    end
  else ret tt.

Definition placeItems (fuel : nat) : M unit :=
  scatter TILE_SWORD 2 fuel 0 ;;;
  scatter TILE_POTION 10 fuel 0.

(** The [while (count < ENEMY_COUNT)] loop of [placeEnemies]. *)
Fixpoint placeEnemies_loop (fuel : nat) (count : Z) : M unit :=
  if bool_decide (count < ENEMY_COUNT) then
    match fuel with
    | O => spin
    | S fuel' =>
        let* x := randomInt 0 (MAP_WIDTH - 1) in
        let* y := randomInt 0 (MAP_HEIGHT - 1) in
        let* c := readTile y x in
        let* g := get in
        if is_empty c
           && (bool_decide (x ≠ Hero.x (hero g))
               || bool_decide (y ≠ Hero.y (hero g)))
           && negb (existsb (Enemy.at_pos x y) (enemies g))
        then
          modify (λ g, set_enemies
            (enemies g ++ [Enemy.mk x y ENEMY_HP ENEMY_HP ENEMY_ATTACK false]) g) ;;;
          placeEnemies_loop fuel' (count + 1)
        else placeEnemies_loop fuel' count
    end
  else ret tt.

Definition placeEnemies (fuel : nat) : M unit :=
  modify (set_enemies []) ;;;
  placeEnemies_loop fuel 0.

(** [init], without its DOM calls.  [fuel] bounds each placement loop. *)
Definition init (fuel : nat) : M unit :=
  modify (set_potionsCarried 0) ;;;
  modify (set_killed 0) ;;;
  modify (set_flags false false) ;;;
  generateMap ;;;
  placeRooms ;;;
  carveCorridors ;;;
  placeHero fuel ;;;
  placeItems fuel ;;;
  placeEnemies fuel.

(** ** TurnEngine *)

(** The two wrap-around statements of one axis:
    [if (n < 0) n = limit - 1; if (n >= limit) n = 0;] *)
Definition wrap (limit n : Z) : Z :=
  let n1 := if bool_decide (n < 0) then limit - 1 else n in
  if bool_decide (n1 >= limit) then 0 else n1.

(** [dirs] of [adjacentEnemyDamage] and [heroAttack] *)
Definition dirs : list (Z * Z) := [(-1, 0); (1, 0); (0, -1); (0, 1)].

(** [moves] of [updateEnemies] *)
Definition moves : list (Z * Z) := [(0, 0); (-1, 0); (1, 0); (0, -1); (0, 1)].

(** [Array.prototype.findIndex]; [None] stands for [-1]. *)
Fixpoint findIndex {A} (p : A → bool) (l : list A) : option nat :=
  match l with
  | [] => None
  | a :: l' => if p a then Some O else S <$> findIndex p l'
  end.

(** [Array.prototype.some] with the two-argument callback [(oth, idx) => ..];
    [k] is the index of the head of [l]. *)
Fixpoint someIdx {A} (p : A → nat → bool) (l : list A) (k : nat) : bool :=
  match l with
  | [] => false
  | a :: l' => p a k || someIdx p l' (S k)
  end.

Definition endGame : M unit :=
  modify (λ g, set_hero (Hero.set_hp 0 (hero g)) g) ;;;
  modify (set_flags true false).

Definition win : M unit := modify (set_flags true true).

Definition checkPickup : M unit :=
  let* g := get in
  let* t := readTile (Hero.y (hero g)) (Hero.x (hero g)) in
  if bool_decide (t = Some TILE_POTION) then
    modify (λ g, set_potionsCarried (potionsCarried g + 1) g) ;;;
    modify (λ g, set_hero
      (Hero.set_hp (Hero.maxHp (hero g) `min` (Hero.hp (hero g) + POTION_COUNT))
                   (hero g)) g) ;;;
    let* g := get in
    writeTile (Hero.y (hero g)) (Hero.x (hero g)) TILE_EMPTY
  else if bool_decide (t = Some TILE_SWORD) then
    modify (λ g, set_hero
      (Hero.set_attack (Hero.attack (hero g) + SWORD_COUNT) (hero g)) g) ;;;
    let* g := get in
    writeTile (Hero.y (hero g)) (Hero.x (hero g)) TILE_EMPTY
  else ret tt.

(** The callback of [dirs.forEach] in [adjacentEnemyDamage]. *)
Definition damageFrom (d : Z * Z) : M unit :=
  let* g := get in
  let tx := Hero.x (hero g) + d.1 in
  let ty := Hero.y (hero g) + d.2 in
  match find (Enemy.at_pos tx ty) (enemies g) with
  | Some en =>
      modify (λ g, set_hero
        (Hero.set_hp (Hero.hp (hero g) - Enemy.attack en) (hero g)) g)
  | None => ret tt
  end.

Definition adjacentEnemyDamage : M unit :=
  forEach dirs damageFrom ;;;
  let* g := get in
  if bool_decide (Hero.hp (hero g) <= 0) then endGame else ret tt.

Definition attemptMove (dx dy : Z) : M unit :=
  let* g := get in
  let nx := wrap MAP_WIDTH (Hero.x (hero g) + dx) in
  let ny := wrap MAP_HEIGHT (Hero.y (hero g) + dy) in
  let* c := readTile ny nx in
  if bool_decide (c = Some TILE_WALL) then ret tt
  else if existsb (Enemy.at_pos nx ny) (enemies g) then ret tt
  else
    modify (λ g, set_hero (Hero.set_pos nx ny (hero g)) g) ;;;
    checkPickup ;;;
    adjacentEnemyDamage.

(** The callback of [dirs.forEach] in [heroAttack]. *)
Definition attackDir (d : Z * Z) : M unit :=
  let* g := get in
  let tx := Hero.x (hero g) + d.1 in
  let ty := Hero.y (hero g) + d.2 in
  match findIndex (Enemy.at_pos tx ty) (enemies g) with
  | None => ret tt
  | Some idx =>
      match enemies g !! idx with
      | None => throw
      | Some en =>
          let en1 := Enemy.set_hp (Enemy.hp en - Hero.attack (hero g)) en in
          modify (λ g, set_enemies (<[idx := en1]> (enemies g)) g) ;;;
          if bool_decide (Enemy.hp en1 > 0) then
            modify (λ g, set_hero
              (Hero.set_hp (Hero.hp (hero g) - Enemy.attack en1) (hero g)) g) ;;;
            modify (λ g, set_enemies
              (<[idx := Enemy.set_justRetaliated true en1]> (enemies g)) g)
          else
            modify (λ g, set_enemies (delete idx (enemies g)) g) ;;;
            modify (λ g, set_killed (killed g + 1) g)
      end
  end.

Definition heroAttack : M unit :=
  forEach dirs attackDir ;;;
  let* g := get in
  if bool_decide (length (enemies g) = O) || bool_decide (killed g >= ENEMY_COUNT)
  then win
  else if bool_decide (Hero.hp (hero g) <= 0) then endGame else ret tt.

(** How one iteration of the loop of [updateEnemies] ends: with [continue] or
    by falling off the body ([Next]), or with [return] ([Stop]). *)
Inductive Flow : Type := Next | Stop.

(** The body of the [for] loop of [updateEnemies] for the index [i]. *)
Definition enemyTurn (i : nat) : M Flow :=
  let* g := get in
  match enemies g !! i with
  | None => throw
  | Some e =>
      let dx := Z.abs (Enemy.x e - Hero.x (hero g)) in
      let dy := Z.abs (Enemy.y e - Hero.y (hero g)) in
      if Enemy._justRetaliated e then
        modify (λ g, set_enemies
          (<[i := Enemy.set_justRetaliated false e]> (enemies g)) g) ;;;
        ret Next
      else if (bool_decide (dx = 1) && bool_decide (dy = 0))
              || (bool_decide (dx = 0) && bool_decide (dy = 1)) then
        modify (λ g, set_hero
          (Hero.set_hp (Hero.hp (hero g) - Enemy.attack e) (hero g)) g) ;;;
        let* g := get in
        if bool_decide (Hero.hp (hero g) <= 0) then endGame ;;; ret Stop
        else ret Next
      else
        let* k := randomInt 0 (Z.of_nat (length moves) - 1) in
        match moves !! Z.to_nat k with
        | None => throw
        | Some mv =>
            let nx := wrap MAP_WIDTH (Enemy.x e + mv.1) in
            let ny := wrap MAP_HEIGHT (Enemy.y e + mv.2) in
            if bool_decide (mv.1 ≠ 0) || bool_decide (mv.2 ≠ 0) then
              let* c := readTile ny nx in
              let* g := get in
              if is_empty c
                 && negb (bool_decide (nx = Hero.x (hero g))
                          && bool_decide (ny = Hero.y (hero g)))
                 && negb (someIdx (λ oth idx, bool_decide (idx ≠ i)
                                              && Enemy.at_pos nx ny oth)
                                  (enemies g) O)
              then
                modify (λ g, set_enemies
                  (<[i := Enemy.set_pos nx ny e]> (enemies g)) g) ;;;
                ret Next
              else ret Next
            else ret Next
        end
  end.

Fixpoint updateEnemies_loop (idxs : list nat) : M unit :=
  match idxs with
  | [] => ret tt
  | i :: rest =>
      let* f := enemyTurn i in
      match f with
      | Next => updateEnemies_loop rest
      | Stop => ret tt
      end
  end.

(** [for (let i = 0; i < enemies.length; i++)]: no iteration changes the
    length of [enemies] (lemma [turned_enemies]), so the indices visited
    are those below the length on entry. *)
Definition updateEnemies : M unit :=
  let* g := get in
  updateEnemies_loop (seq 0 (length (enemies g))).

(** [keyMap] of [handleInput]: the twenty own properties of the object
    literal. *)
Definition keyMap : gmap string (Z * Z) :=
  list_to_map
    [ ("w", (0, -1)); ("W", (0, -1)); ("ArrowUp", (0, -1));
      ("ц", (0, -1)); ("Ц", (0, -1));
      ("a", (-1, 0)); ("A", (-1, 0)); ("ArrowLeft", (-1, 0));
      ("ф", (-1, 0)); ("Ф", (-1, 0));
      ("s", (0, 1)); ("S", (0, 1)); ("ArrowDown", (0, 1));
      ("ы", (0, 1)); ("Ы", (0, 1));
      ("d", (1, 0)); ("D", (1, 0)); ("ArrowRight", (1, 0));
      ("в", (1, 0)); ("В", (1, 0)) ]%string.

(** The names of the members of [Object.prototype], which the object literal
    inherits.  For each of them [keyMap[name]] is a function or, for
    [__proto__], [Object.prototype] itself: a value that is not iterable. *)
Definition objectPrototype : list string :=
  [ "constructor"; "hasOwnProperty"; "isPrototypeOf"; "propertyIsEnumerable";
    "toLocaleString"; "toString"; "valueOf"; "__proto__";
    "__defineGetter__"; "__defineSetter__";
    "__lookupGetter__"; "__lookupSetter__" ]%string.

(** [key in keyMap]: the operator [in] holds for the own properties and for
    the inherited ones. *)
Definition inKeyMap (key : string) : bool :=
  bool_decide (is_Some (keyMap !! key)) || bool_decide (key ∈ objectPrototype).

(** [handleInput(e)] for [e.key = key].  The destructuring
    [const [dx, dy] = keyMap[e.key]] throws a TypeError when the value is not
    iterable, which is the case of every inherited member; nothing has been
    changed at that point. *)
Definition handleInput (key : string) : M unit :=
  let* g := get in
  if _gameOver g then ret tt
  else if inKeyMap key then
    match keyMap !! key with
    | Some (dx, dy) => attemptMove dx dy ;;; updateEnemies
    | None => throw
    end
  else if bool_decide (key = " "%string) then heroAttack ;;; updateEnemies
  else ret tt.

(** ** Reachable states *)

(** The states in which the game can be found between two key events: the
    outcome of [init] (first start or restart, from whatever the globals
    held), and the outcome of every key event handled from such a state.  An
    exception thrown by the handler leaves the state as mutated so far, and
    the next key event starts from it. *)
Inductive reachable : Game → Prop :=
| reach_init g0 r0 fuel g r :
    init fuel g0 r0 = Ok tt g r → reachable g
| reach_step g key r0 g' r :
    reachable g → handleInput key g r0 = Ok tt g' r → reachable g'
| reach_throw g key r0 g' r :
    reachable g → handleInput key g r0 = Throw g' r → reachable g'.

(** The phase of the specification, read off the two flags. *)
Inductive Phase : Type := Playing | Won | Lost.

Definition phase (g : Game) : Phase :=
  if _gameOver g then (if _win g then Won else Lost) else Playing.

(** ** Outcomes *)

(** [post s res Q]: the outcome [res] is a normal return that satisfies [Q];
    an exception is excluded, and an exhausted loop is allowed iff [s]. *)
Definition post {A} (s : Prop) (res : Res A) (Q : A → Game → Rng → Prop) : Prop :=
  match res with
  | Ok a g r => Q a g r
  | Throw _ _ => False
  | Spin => s
  end.

(** [handled key g r Q]: the key event [key], handled from the state [g] with
    the draws [r], returns normally in a state that satisfies [Q]; or [key]
    names a member of [Object.prototype], the game is not over, and the
    handler throws with the state and the oracle as they were. *)
Definition handled (key : string) (g : Game) (r : Rng) (Q : Game → Prop) : Prop :=
  match handleInput key g r with
  | Ok _ g' _ => (key ∉ objectPrototype ∨ _gameOver g = true) ∧ Q g'
  | Throw g' r' =>
      key ∈ objectPrototype ∧ _gameOver g = false ∧ g' = g ∧ r' = r
  | Spin => False
  end.

(** ** Grid *)

Definition in_grid (x y : Z) : Prop :=
  (0 ≤ x < MAP_WIDTH) ∧ (0 ≤ y < MAP_HEIGHT).

(** The value of the expression [map[y][x]] when it does not throw. *)
Definition tileAt (m : Grid) (x y : Z) : option Tile :=
  m !! y ≫= λ row : gmap Z Tile, row !! x.

(** The grid has all its [MAP_HEIGHT] rows and every row all its
    [MAP_WIDTH] columns. *)
Definition grid_wf (m : Grid) : Prop :=
  ∀ x y, in_grid x y → is_Some (tileAt m x y).

(** A checkable form of [grid_wf]. *)
Definition grid_full (m : Grid) : bool :=
  bool_decide (Forall (λ y, Forall (λ x, is_Some (tileAt m x y))
                                   (seqZ 0 MAP_WIDTH))
                      (seqZ 0 MAP_HEIGHT)).

Definition setTile (m : Grid) (x y : Z) (t : Tile) : Grid :=
  match m !! y with
  | Some row => <[y := <[x := t]> row]> m
  | None => m
  end.

(** The cells that keep at least one tile of margin to every edge. *)
Definition interior (x y : Z) : Prop :=
  (1 ≤ x ≤ MAP_WIDTH - 2) ∧ (1 ≤ y ≤ MAP_HEIGHT - 2).

(** A recorded room lies in the interior. *)
Definition room_inside (rm : Room.t) : Prop :=
  (ROOM_MIN ≤ Room.w rm ≤ ROOM_MAX) ∧ (ROOM_MIN ≤ Room.h rm ≤ ROOM_MAX) ∧
  (1 ≤ Room.x rm) ∧ (Room.x rm + Room.w rm - 1 ≤ MAP_WIDTH - 2) ∧
  (1 ≤ Room.y rm) ∧ (Room.y rm + Room.h rm - 1 ≤ MAP_HEIGHT - 2).

Arguments tileAt : simpl never.
Arguments setTile : simpl never.
Arguments wallGrid : simpl never.

(** ** Invariants *)

Definition enemy_pos (e : Enemy.t) : Z * Z := (Enemy.x e, Enemy.y e).

(** The adjacency test of [updateEnemies]:
    [(dx === 1 && dy === 0) || (dx === 0 && dy === 1)] with
    [dx = Math.abs(e.x - hero.x)] and [dy = Math.abs(e.y - hero.y)]. *)
Definition adjacent (e : Enemy.t) (h : Hero.t) : bool :=
  let dx := Z.abs (Enemy.x e - Hero.x h) in
  let dy := Z.abs (Enemy.y e - Hero.y h) in
  (bool_decide (dx = 1) && bool_decide (dy = 0))
  || (bool_decide (dx = 0) && bool_decide (dy = 1)).

(** The cells [hero + d] for [d] in [dirs], which [adjacentEnemyDamage] and
    [heroAttack] search for an enemy. *)
Definition targets (h : Hero.t) : list (Z * Z) :=
  (λ d : Z * Z, (Hero.x h + d.1, Hero.y h + d.2)) <$> dirs.

Definition enemy_ok (e : Enemy.t) : Prop :=
  in_grid (Enemy.x e) (Enemy.y e) ∧ Enemy.attack e = ENEMY_ATTACK.

(** What holds of the game state at every point of a key event's handling
    where the handler is between two of its phases. *)
Record Base (g : Game) : Prop := mkBase {
  base_grid : grid_wf (map g);
  base_hero : in_grid (Hero.x (hero g)) (Hero.y (hero g));
  base_enemies : Forall enemy_ok (enemies g);
  base_nodup : NoDup (enemy_pos <$> enemies g);
  base_kills : killed g + Z.of_nat (length (enemies g)) = ENEMY_COUNT;
  base_hp : 0 ≤ Hero.hp (hero g) ≤ Hero.maxHp (hero g);
  base_alive : _gameOver g = false → 0 < Hero.hp (hero g) ∧ _win g = false;
  base_lost : _gameOver g = true → _win g = false → Hero.hp (hero g) = 0;
  base_won : _win g = true → enemies g = [] ∧ 0 < Hero.hp (hero g)
}.

Definition flags_clear (g : Game) : Prop :=
  Forall (λ e, Enemy._justRetaliated e = false) (enemies g).

(** What holds between two key events. *)
Definition Inv (g : Game) : Prop := Base g ∧ flags_clear g.

(** What room carving maintains: the grid keeps its shape and holds only
    Wall and Empty tiles, the recorded rooms lie in the interior, and so does
    every Empty cell. *)
Definition carved (g : Game) : Prop :=
  grid_wf (map g) ∧
  Forall room_inside (rooms g) ∧
  (∀ x y, tileAt (map g) x y = Some TILE_EMPTY → interior x y) ∧
  (∀ x y t, tileAt (map g) x y = Some t → t = TILE_WALL ∨ t = TILE_EMPTY).

(** What [init] establishes besides the invariant. *)
Definition fresh (g : Game) : Prop :=
  killed g = 0 ∧ potionsCarried g = 0 ∧
  Z.of_nat (length (enemies g)) = ENEMY_COUNT ∧
  Forall (λ e, Enemy.hp e = ENEMY_HP ∧ Enemy.maxHp e = ENEMY_HP) (enemies g) ∧
  Hero.hp (hero g) = HERO_HP ∧ Hero.maxHp (hero g) = HERO_HP ∧
  Hero.attack (hero g) = HERO_ATTACK ∧
  _gameOver g = false ∧ _win g = false.

(** Carving keeps the shape of the grid, writes only Empty tiles and
    leaves everything but the grid alone. *)
Definition same_but_map (g g' : Game) : Prop :=
  grid_wf (map g') ∧ g' = set_map (map g') g ∧
  ∀ x y, tileAt (map g') x y = tileAt (map g) x y
         ∨ tileAt (map g') x y = Some TILE_EMPTY.

(** Sum of [f] over a list. *)
Fixpoint tally {A} (f : A → nat) (l : list A) : nat :=
  match l with
  | [] => O
  | a :: l' => (f a + tally f l')%nat
  end.

(** Number of cells of the [MAP_HEIGHT] x [MAP_WIDTH] grid that hold the
    tile [t]. *)
Definition countTiles (m : Grid) (t : Tile) : nat :=
  tally (λ y, tally (λ x, if bool_decide (tileAt m x y = Some t) then 1%nat
                          else O)
                    (seqZ 0 MAP_WIDTH))
        (seqZ 0 MAP_HEIGHT).

(** What one loop of [placeItems] does to the grid when it is asked for [n]
    more tiles [tile]: [n] cells of the grid that were Empty, none of them
    the hero's, now hold [tile]; nothing else has changed. *)
Definition scattered (tile : Tile) (n : nat) (g g' : Game) : Prop :=
  grid_wf (map g') ∧ g' = set_map (map g') g ∧
  countTiles (map g') tile = (countTiles (map g) tile + n)%nat ∧
  (∀ t, t ≠ tile → t ≠ TILE_EMPTY →
        countTiles (map g') t = countTiles (map g) t) ∧
  (∀ x y, tileAt (map g') x y ≠ tileAt (map g) x y →
          in_grid x y ∧ tileAt (map g) x y = Some TILE_EMPTY ∧
          tileAt (map g') x y = Some tile ∧
          (x, y) ≠ (Hero.x (hero g), Hero.y (hero g))).

(** [preserves f m]: a normal return of [m] leaves the component [f] of the
    game state as it was. *)
Definition preserves {A B} (f : Game → B) (m : M A) : Prop :=
  ∀ g r a g' r', m g r = Ok a g' r' → f g' = f g.

(** The fields that only [init] and the turn engine write. *)
Definition counters (g : Game) : Z * Z * bool * bool :=
  (potionsCarried g, killed g, _gameOver g, _win g).

(** What the loop of [placeEnemies] maintains, [count] being its counter. *)
Definition enemies_placed (count : Z) (g : Game) : Prop :=
  Forall enemy_ok (enemies g) ∧
  NoDup (enemy_pos <$> enemies g) ∧
  flags_clear g ∧
  Forall (λ e, Enemy.hp e = ENEMY_HP ∧ Enemy.maxHp e = ENEMY_HP) (enemies g) ∧
  Z.of_nat (length (enemies g)) = count.

(** ** The Attack action as the specification words it *)

(** The four orthogonal neighbours of the hero's cell. *)
Definition neighbours (h : Hero.t) : list (Z * Z) :=
  [ (Hero.x h - 1, Hero.y h); (Hero.x h + 1, Hero.y h);
    (Hero.x h, Hero.y h - 1); (Hero.x h, Hero.y h + 1) ].

(** An enemy standing on one of the cells [ps] takes [atk] damage: if its hp
    stays above 0 it remains, flagged [_justRetaliated]; otherwise it is
    removed.  An enemy elsewhere is left alone. *)
Definition strike (atk : Z) (ps : list (Z * Z)) (e : Enemy.t) : option Enemy.t :=
  if bool_decide (enemy_pos e ∈ ps) then
    if bool_decide (Enemy.hp e - atk > 0)
    then Some (Enemy.set_justRetaliated true (Enemy.set_hp (Enemy.hp e - atk) e))
    else None
  else Some e.

(** The enemy as [heroAttack] leaves it when it survives the blow. *)
Definition retaliated (atk : Z) (e : Enemy.t) : Enemy.t :=
  Enemy.set_justRetaliated true (Enemy.set_hp (Enemy.hp e - atk) e).

(** What a struck survivor deals back: its attack, once. *)
Definition strikes_back (atk : Z) (ps : list (Z * Z)) (e : Enemy.t) : Z :=
  if bool_decide (enemy_pos e ∈ ps) && bool_decide (Enemy.hp e - atk > 0)
  then Enemy.attack e else 0.

(** 1 for a struck enemy that does not survive. *)
Definition falls (atk : Z) (ps : list (Z * Z)) (e : Enemy.t) : Z :=
  if bool_decide (enemy_pos e ∈ ps) && negb (bool_decide (Enemy.hp e - atk > 0))
  then 1 else 0.

(** The damage the struck survivors deal back, one retaliation each. *)
Definition retaliation (atk : Z) (ps : list (Z * Z)) (es : list Enemy.t) : Z :=
  foldr (λ e acc, strikes_back atk ps e + acc) 0 es.

(** The number of struck enemies that do not survive. *)
Definition kills (atk : Z) (ps : list (Z * Z)) (es : list Enemy.t) : Z :=
  foldr (λ e acc, falls atk ps e + acc) 0 es.

(** The state after the enemies on the cells [ps] have been struck. *)
Definition struckGame (ps : list (Z * Z)) (g : Game) : Game :=
  let atk := Hero.attack (hero g) in
  mkGame (map g)
         (Hero.set_hp (Hero.hp (hero g) - retaliation atk ps (enemies g)) (hero g))
         (omap (strike atk ps) (enemies g))
         (rooms g) (potionsCarried g)
         (killed g + kills atk ps (enemies g))
         (_gameOver g) (_win g).

(** The Attack action: strike the four neighbours, then check for Won, and
    only then for Lost. *)
Definition attack_spec (g : Game) : Game :=
  let g1 := struckGame (neighbours (hero g)) g in
  if bool_decide (enemies g1 = []) || bool_decide (killed g1 >= ENEMY_COUNT)
  then set_flags true true g1
  else if bool_decide (Hero.hp (hero g1) <= 0)
       then set_flags true false (set_hero (Hero.set_hp 0 (hero g1)) g1)
       else g1.

(** ** The Move action and the enemy turn, case by case *)

(** What the enemy found on the cell [p], if any, deals to the hero in
    [adjacentEnemyDamage]. *)
Definition contact (es : list Enemy.t) (p : Z * Z) : Z :=
  match find (Enemy.at_pos p.1 p.2) es with
  | Some en => Enemy.attack en
  | None => 0
  end.

(** The total damage of [adjacentEnemyDamage] over the directions [ds]. *)
Definition contactDamage (h : Hero.t) (es : list Enemy.t) (ds : list (Z * Z)) : Z :=
  foldr (λ d acc, contact es (Hero.x h + d.1, Hero.y h + d.2) + acc) 0 ds.

(** The state after [endGame]. *)
Definition lostGame (g : Game) : Game :=
  set_flags true false (set_hero (Hero.set_hp 0 (hero g)) g).

(** The state after the hero has lost [dmg] hp and [hero.hp <= 0] has been
    checked. *)
Definition damaged (dmg : Z) (g : Game) : Game :=
  let g1 := set_hero (Hero.set_hp (Hero.hp (hero g) - dmg) (hero g)) g in
  if bool_decide (Hero.hp (hero g1) <= 0) then lostGame g1 else g1.

(** The outcomes of one iteration of the loop of [updateEnemies], for the
    enemy [e] found at index [i] in the state [g]. *)
Inductive turned (i : nat) (e : Enemy.t) (g : Game) : Flow → Game → Prop :=
| turned_skip :
    Enemy._justRetaliated e = true →
    turned i e g Next
      (set_enemies (<[i := Enemy.set_justRetaliated false e]> (enemies g)) g)
| turned_hit :
    Enemy._justRetaliated e = false → adjacent e (hero g) = true →
    0 < Hero.hp (hero g) - Enemy.attack e →
    turned i e g Next
      (set_hero (Hero.set_hp (Hero.hp (hero g) - Enemy.attack e) (hero g)) g)
| turned_kill :
    Enemy._justRetaliated e = false → adjacent e (hero g) = true →
    Hero.hp (hero g) - Enemy.attack e ≤ 0 →
    turned i e g Stop
      (lostGame (set_hero (Hero.set_hp (Hero.hp (hero g) - Enemy.attack e)
                                       (hero g)) g))
| turned_stay :
    Enemy._justRetaliated e = false → adjacent e (hero g) = false →
    turned i e g Next g
| turned_step mv :
    Enemy._justRetaliated e = false → adjacent e (hero g) = false →
    mv ∈ moves →
    let nx := wrap MAP_WIDTH (Enemy.x e + mv.1) in
    let ny := wrap MAP_HEIGHT (Enemy.y e + mv.2) in
    in_grid nx ny →
    tileAt (map g) nx ny = Some TILE_EMPTY →
    (nx, ny) ≠ (Hero.x (hero g), Hero.y (hero g)) →
    (∀ j oth, j ≠ i → enemies g !! j = Some oth → enemy_pos oth ≠ (nx, ny)) →
    turned i e g Next
      (set_enemies (<[i := Enemy.set_pos nx ny e]> (enemies g)) g).

(** ** A concrete game *)

(** The sample [v / n] as a draw for a range of [n] values: it selects the
    [v]-th value of the range. *)
Definition nth_of (n v : nat) : Sample := mkSample v (n - v - 1).

Definition draw_xy (x y : nat) : list Sample :=
  [nth_of 40 x; nth_of 24 y].

(** Draws for [init]: five rooms of 3 x 3 cells at (5,4); three horizontal
    corridors on row 20 and three vertical ones on column 30; the hero at
    (5,5); two swords and ten potions along row 20; ten enemies, four of
    them in the room. *)
Definition demo_draws : list Sample :=
  [nth_of 6 0]
  ++ concat (replicate 5 [nth_of 6 0; nth_of 6 0; nth_of 35 4; nth_of 19 3])
  ++ [nth_of 3 0; nth_of 3 0]
  ++ replicate 3 (nth_of 22 19)
  ++ replicate 3 (nth_of 38 29)
  ++ draw_xy 5 5
  ++ draw_xy 0 20 ++ draw_xy 1 20
  ++ concat ((λ x, draw_xy x 20) <$> seq 2 10)
  ++ draw_xy 30 0
  ++ draw_xy 7 5 ++ draw_xy 6 4 ++ draw_xy 6 6 ++ draw_xy 5 4
  ++ draw_xy 30 2 ++ draw_xy 30 4 ++ draw_xy 30 6 ++ draw_xy 30 8
  ++ draw_xy 30 10.

Definition rng_of (l : list Sample) : Rng :=
  mkRng (λ n, nth n l (mkSample 0 0)) 0.

Definition blank : Game :=
  mkGame ∅ (Hero.mk 0 0 HERO_HP HERO_HP HERO_ATTACK) [] [] 0 0 false false.

(** The game state of a normal return, [blank] otherwise. *)
Definition state_of {A} (res : Res A) : Game :=
  match res with
  | Ok _ g _ => g
  | _ => blank
  end.

Definition returns {A} (res : Res A) : bool :=
  match res with
  | Ok _ _ _ => true
  | _ => false
  end.

Definition demo_start : Game := state_of (init 10 blank (rng_of demo_draws)).

(** An oracle under which every enemy that may move stays where it is. *)
Definition quiet : Rng := rng_of [].

Definition rng_after {A} (res : Res A) : Rng :=
  match res with
  | Ok _ _ r => r
  | _ => quiet
  end.

(** An oracle under which the first enemy that may move steps south. *)
Definition south_first : Rng := rng_of [nth_of 5 4].

(** The hero has stepped east, between three enemies. *)
Definition demo_east : Game := state_of (handleInput "d" demo_start quiet).

(** It then bumps into one of them: two key events that leave it with
    1 hp. *)
Definition demo_cornered : Game :=
  state_of (handleInput "d" (state_of (handleInput "d" demo_start quiet)) quiet).

(** The hero stands on an edge of the grid and the enemy on the opposite
    edge, in the same row or column: the two cells that a single wrapped step
    joins. *)
Definition across_edge (h : Hero.t) (e : Enemy.t) : Prop :=
  (Hero.x h = 0 ∧ Enemy.x e = MAP_WIDTH - 1 ∧ Enemy.y e = Hero.y h) ∨
  (Hero.x h = MAP_WIDTH - 1 ∧ Enemy.x e = 0 ∧ Enemy.y e = Hero.y h) ∨
  (Hero.y h = 0 ∧ Enemy.y e = MAP_HEIGHT - 1 ∧ Enemy.x e = Hero.x h) ∨
  (Hero.y h = MAP_HEIGHT - 1 ∧ Enemy.y e = 0 ∧ Enemy.x e = Hero.x h).

(** The grid of [demo_start] with another hero and other enemies. *)
Definition scene (h : Hero.t) (es : list Enemy.t) : Game :=
  set_enemies es (set_hero h demo_start).

(** The hero on the west edge of the corridor of row 20 and a single enemy
    on its east edge. *)
Definition demo_edge : Game :=
  scene (Hero.mk 0 20 HERO_HP HERO_HP HERO_ATTACK)
        [Enemy.mk 39 20 ENEMY_HP ENEMY_HP ENEMY_ATTACK false].

(** ** The Move action as a function of the state *)

(** The state after [checkPickup]. *)
Definition picked (g : Game) : Game :=
  let x := Hero.x (hero g) in
  let y := Hero.y (hero g) in
  match tileAt (map g) x y with
  | Some TILE_POTION =>
      set_map (setTile (map g) x y TILE_EMPTY)
        (set_hero (Hero.set_hp (Hero.maxHp (hero g)
                                `min` (Hero.hp (hero g) + POTION_COUNT)) (hero g))
           (set_potionsCarried (potionsCarried g + 1) g))
  | Some TILE_SWORD =>
      set_map (setTile (map g) x y TILE_EMPTY)
        (set_hero (Hero.set_attack (Hero.attack (hero g) + SWORD_COUNT) (hero g)) g)
  | _ => g
  end.

(** The cell that [attemptMove] tries to enter. *)
Definition target (dx dy : Z) (g : Game) : Z * Z :=
  (wrap MAP_WIDTH (Hero.x (hero g) + dx), wrap MAP_HEIGHT (Hero.y (hero g) + dy)).

(** The state after the hero has entered the cell [p]: pickup, then the
    damage of the enemies next to it. *)
Definition entered (p : Z * Z) (g : Game) : Game :=
  let g1 := picked (set_hero (Hero.set_pos p.1 p.2 (hero g)) g) in
  damaged (contactDamage (hero g1) (enemies g1) dirs) g1.

(** The state after [attemptMove]. *)
Definition moved (dx dy : Z) (g : Game) : Game :=
  let p := target dx dy g in
  if bool_decide (tileAt (map g) p.1 p.2 = Some TILE_WALL) then g
  else if bool_decide (p ∈ enemy_pos <$> enemies g) then g
  else entered p g.

(** ** What holds of every reachable state besides [Inv] *)

(** Neither the hero nor an enemy stands on anything but an Empty tile, and
    no enemy shares the hero's cell. *)
Definition standing (g : Game) : Prop :=
  tileAt (map g) (Hero.x (hero g)) (Hero.y (hero g)) = Some TILE_EMPTY ∧
  Forall (λ e, tileAt (map g) (Enemy.x e) (Enemy.y e) = Some TILE_EMPTY)
         (enemies g) ∧
  (Hero.x (hero g), Hero.y (hero g)) ∉ (enemy_pos <$> enemies g).

(** An enemy of the list is alive and has at most the hp it started with. *)
Definition enemy_stats (e : Enemy.t) : Prop :=
  Enemy.maxHp e = ENEMY_HP ∧ 0 < Enemy.hp e ≤ ENEMY_HP.

(** Every potion and every sword that [placeItems] has put on the grid is
    either still there or accounted for by the hero. *)
Definition stock (g : Game) : Prop :=
  0 ≤ potionsCarried g ∧
  potionsCarried g + Z.of_nat (countTiles (map g) TILE_POTION) = 10 ∧
  Hero.attack (hero g) + SWORD_COUNT * Z.of_nat (countTiles (map g) TILE_SWORD)
    = HERO_ATTACK + SWORD_COUNT * 2.

Record Orderly (g : Game) : Prop := mkOrderly {
  orderly_standing : standing g;
  orderly_stats : Forall enemy_stats (enemies g);
  orderly_maxHp : Hero.maxHp (hero g) = HERO_HP;
  orderly_attack : HERO_ATTACK ≤ Hero.attack (hero g);
  orderly_stock : stock g;
  orderly_won : enemies g = [] → _win g = true
}.

(** ** The frame of the enemy turn and of a key event *)

(** What [updateEnemies] may do to one enemy: its hp, [maxHp] and attack
    stay, and it either keeps its cell or, being neither flagged nor next to
    the hero, takes one wrapped step of [moves] onto a cell that holds an
    Empty tile and is not the hero's. *)
Definition shifted (g : Game) (e e' : Enemy.t) : Prop :=
  Enemy.hp e' = Enemy.hp e ∧ Enemy.maxHp e' = Enemy.maxHp e ∧
  Enemy.attack e' = Enemy.attack e ∧
  (enemy_pos e' = enemy_pos e ∨
   (Enemy._justRetaliated e = false ∧ adjacent e (hero g) = false ∧
    (∃ mv, mv ∈ moves ∧
           enemy_pos e' = (wrap MAP_WIDTH (Enemy.x e + mv.1),
                           wrap MAP_HEIGHT (Enemy.y e + mv.2))) ∧
    tileAt (map g) (Enemy.x e') (Enemy.y e') = Some TILE_EMPTY ∧
    enemy_pos e' ≠ (Hero.x (hero g), Hero.y (hero g)))).

(** What [updateEnemies] leaves alone. *)
Definition turn_frame (g g' : Game) : Prop :=
  map g' = map g ∧ rooms g' = rooms g ∧
  potionsCarried g' = potionsCarried g ∧ killed g' = killed g ∧
  Hero.x (hero g') = Hero.x (hero g) ∧ Hero.y (hero g') = Hero.y (hero g) ∧
  Hero.maxHp (hero g') = Hero.maxHp (hero g) ∧
  Hero.attack (hero g') = Hero.attack (hero g) ∧
  (_win g' = true → _win g = true).

(** The attack of the enemies next to the hero, each counted once. *)
Definition adjacentAttack (h : Hero.t) (es : list Enemy.t) : Z :=
  foldr (λ e acc, (if adjacent e h then Enemy.attack e else 0) + acc) 0 es.

(** What the enemy [e] is about to deal to the hero [h] in the enemy turn:
    its attack, if it is next to the hero and not flagged. *)
Definition pending (h : Hero.t) (e : Enemy.t) : Z :=
  if negb (Enemy._justRetaliated e) && adjacent e h then Enemy.attack e else 0.

(** The damage of a whole enemy turn that nothing interrupts. *)
Definition turnDamage (h : Hero.t) (es : list Enemy.t) : Z :=
  foldr (λ e acc, pending h e + acc) 0 es.

(** What a Move onto the cell [p] does, field by field: the hero stands on
    [p]; a Potion there raises [potionsCarried] by one and heals
    [POTION_COUNT] hp up to [maxHp], a Sword there adds [SWORD_COUNT] to the
    attack, and either becomes an Empty tile; then the enemies found on the
    four cells next to [p] deal their damage, and hp at 0 or below ends the
    game, lost, with hp 0.  Nothing else changes. *)
Definition stepped_onto (p : Z * Z) (g g' : Game) : Prop :=
  let t := tileAt (map g) p.1 p.2 in
  let healed := if bool_decide (t = Some TILE_POTION)
                then Hero.maxHp (hero g) `min` (Hero.hp (hero g) + POTION_COUNT)
                else Hero.hp (hero g) in
  let left := healed - contactDamage (Hero.set_pos p.1 p.2 (hero g))
                                     (enemies g) dirs in
  (Hero.x (hero g'), Hero.y (hero g')) = p ∧
  Hero.hp (hero g') = (if bool_decide (left <= 0) then 0 else left) ∧
  (_gameOver g', _win g')
    = (if bool_decide (left <= 0) then (true, false) else (_gameOver g, _win g)) ∧
  Hero.attack (hero g')
    = (if bool_decide (t = Some TILE_SWORD)
       then Hero.attack (hero g) + SWORD_COUNT else Hero.attack (hero g)) ∧
  Hero.maxHp (hero g') = Hero.maxHp (hero g) ∧
  potionsCarried g'
    = (if bool_decide (t = Some TILE_POTION)
       then potionsCarried g + 1 else potionsCarried g) ∧
  tileAt (map g') p.1 p.2
    = (if bool_decide (t = Some TILE_POTION ∨ t = Some TILE_SWORD)
       then Some TILE_EMPTY else t) ∧
  (∀ x y, (x, y) ≠ p → tileAt (map g') x y = tileAt (map g) x y) ∧
  enemies g' = enemies g ∧ killed g' = killed g ∧ rooms g' = rooms g.

(** What a key event may change between two reachable states. *)
Definition key_frame (key : string) (g g' : Game) : Prop :=
  rooms g' = rooms g ∧
  (∀ x y, tileAt (map g') x y = tileAt (map g) x y ∨
          ((x, y) = (Hero.x (hero g'), Hero.y (hero g')) ∧
           tileAt (map g') x y = Some TILE_EMPTY ∧
           (tileAt (map g) x y = Some TILE_POTION ∨
            tileAt (map g) x y = Some TILE_SWORD))) ∧
  killed g ≤ killed g' ∧
  potionsCarried g ≤ potionsCarried g' ≤ potionsCarried g + 1 ∧
  Hero.attack (hero g) ≤ Hero.attack (hero g')
    ≤ Hero.attack (hero g) + SWORD_COUNT ∧
  Hero.maxHp (hero g') = Hero.maxHp (hero g) ∧
  (length (enemies g') ≤ length (enemies g))%nat ∧
  ((Hero.x (hero g'), Hero.y (hero g')) = (Hero.x (hero g), Hero.y (hero g)) ∨
   ∃ d, keyMap !! key = Some d ∧ d ∈ dirs ∧
        (Hero.x (hero g'), Hero.y (hero g')) = target d.1 d.2 g).

(** ** The layout that map generation leaves *)

(** The cell holds a tile other than Wall. *)
Definition open_at (m : Grid) (x y : Z) : Prop :=
  ∃ t, tileAt m x y = Some t ∧ t ≠ TILE_WALL.

(** The cells of a room: the rectangle that the loops of [placeRooms] carve. *)
Definition in_room (rm : Room.t) (x y : Z) : Prop :=
  (Room.x rm ≤ x < Room.x rm + Room.w rm) ∧
  (Room.y rm ≤ y < Room.y rm + Room.h rm).

(** [x1, y1] or [x2, y2] of [carveCorridors]. *)
Definition room_centre (rm : Room.t) : Z * Z :=
  (centre (Room.x rm) (Room.w rm), centre (Room.y rm) (Room.h rm)).

(** The cells of the corridor that [carveCorridors] carves from the room
    [r1] to the next room [r2]: along the row of the centre of [r1] to the
    column of the centre of [r2], then along that column. *)
Definition on_elbow (r1 r2 : Room.t) (x y : Z) : Prop :=
  let c1 := room_centre r1 in
  let c2 := room_centre r2 in
  (y = c1.2 ∧ c1.1 `min` c2.1 ≤ x ≤ c1.1 `max` c2.1) ∨
  (x = c2.1 ∧ c1.2 `min` c2.2 ≤ y ≤ c1.2 `max` c2.2).

Definition full_row (m : Grid) (y : Z) : Prop :=
  ∀ x, 0 ≤ x < MAP_WIDTH → open_at m x y.

Definition full_column (m : Grid) (x : Z) : Prop :=
  ∀ y, 0 ≤ y < MAP_HEIGHT → open_at m x y.

(** The layout of the walls with respect to the recorded rooms. *)
Record Layout (rs : list Room.t) (m : Grid) : Prop := mkLayout {
  layout_count : ROOM_COUNT_MIN ≤ Z.of_nat (length rs) ≤ ROOM_COUNT_MAX;
  layout_inside : Forall room_inside rs;
  layout_rooms : ∀ rm x y, rm ∈ rs → in_room rm x y → open_at m x y;
  layout_elbows : ∀ i r1 r2 x y,
    rs !! i = Some r1 → rs !! S i = Some r2 → on_elbow r1 r2 x y → open_at m x y;
  layout_row : ∃ y, 1 ≤ y ≤ MAP_HEIGHT - 2 ∧ full_row m y;
  layout_column : ∃ x, 1 ≤ x ≤ MAP_WIDTH - 2 ∧ full_column m x;
  layout_border : ∀ x y, in_grid x y → open_at m x y →
    interior x y ∨ (1 ≤ y ≤ MAP_HEIGHT - 2 ∧ full_row m y)
                 ∨ (1 ≤ x ≤ MAP_WIDTH - 2 ∧ full_column m x)
}.

(** Carving, seen from the cells: it keeps the shape of the grid and
    everything but the grid, writes only Empty tiles, and changes only cells
    of [S]. *)
Definition carves (S : Z → Z → Prop) (g g' : Game) : Prop :=
  same_but_map g g' ∧
  ∀ x y, tileAt (map g') x y ≠ tileAt (map g) x y → S x y.

(** Two orthogonally adjacent cells of the grid, without wrap-around. *)
Definition beside (p q : Z * Z) : Prop :=
  Z.abs (p.1 - q.1) + Z.abs (p.2 - q.2) = 1.

(** [linked m p q]: a path of open cells, each beside the next, leads from
    [p] to [q]. *)
Inductive linked (m : Grid) : Z * Z → Z * Z → Prop :=
| linked_refl p : open_at m p.1 p.2 → linked m p p
| linked_step p q s :
    linked m p q → beside q s → open_at m s.1 s.2 → linked m p s.

(** Every cell of every recorded room holds an Empty tile. *)
Definition rooms_carved (g : Game) : Prop :=
  ∀ rm x y, rm ∈ rooms g → in_room rm x y →
            tileAt (map g) x y = Some TILE_EMPTY.

(** The grid holds only Wall and Empty tiles. *)
Definition two_kinds (g : Game) : Prop :=
  ∀ x y t, tileAt (map g) x y = Some t → t = TILE_WALL ∨ t = TILE_EMPTY.

Definition empty_row (m : Grid) (y : Z) : Prop :=
  (1 ≤ y ≤ MAP_HEIGHT - 2) ∧
  ∀ x, 0 ≤ x < MAP_WIDTH → tileAt m x y = Some TILE_EMPTY.

Definition empty_column (m : Grid) (x : Z) : Prop :=
  (1 ≤ x ≤ MAP_WIDTH - 2) ∧
  ∀ y, 0 ≤ y < MAP_HEIGHT → tileAt m x y = Some TILE_EMPTY.

(** Where the Empty tiles lie while the corridors are carved: in the
    interior, or on a row or a column that is Empty from edge to edge. *)
Definition spread (g : Game) : Prop :=
  ∀ x y, tileAt (map g) x y = Some TILE_EMPTY →
         interior x y ∨ empty_row (map g) y ∨ empty_column (map g) x.

(** The corridor between the rooms of indices [i - 1] and [i] is Empty. *)
Definition elbow_carved (rs : list Room.t) (i : nat) (g : Game) : Prop :=
  ∀ r1 r2 x y, rs !! (i - 1)%nat = Some r1 → rs !! i = Some r2 →
               on_elbow r1 r2 x y → tileAt (map g) x y = Some TILE_EMPTY.

(** Equality of rooms is decidable. *)
#[global] Instance Room_eq_dec : EqDecision Room.t.
Proof. solve_decision. Defined.

(** ** What a computation reads of the state *)

(** Two outcomes agree up to the part [π] of the game state: the same
    value, the same oracle and the same [π] after a normal return. *)
Definition sim {A B} (π : Game → B) (res res' : Res A) : Prop :=
  match res, res' with
  | Ok a g r, Ok a' g' r' => a = a' ∧ r = r' ∧ π g = π g'
  | Throw _ _, Throw _ _ => True
  | Spin, Spin => True
  | _, _ => False
  end.

(** From two states that agree on [π], under the same oracle, [m] and [m']
    lead to outcomes that agree on [π']. *)
Definition rel {A B C} (π : Game → B) (π' : Game → C) (m m' : M A) : Prop :=
  ∀ g g' r, π g = π g' → sim π' (m g r) (m' g' r).

(** The state without the hero and the enemies, and without the enemies. *)
Definition terrain (g : Game) : Grid * list Room.t * (Z * Z * bool * bool) :=
  (map g, rooms g, counters g).

Definition terrain_hero (g : Game)
  : Grid * list Room.t * (Z * Z * bool * bool) * Hero.t :=
  (terrain g, hero g).

(** ** The Restart button *)

(** The click handler of the Restart button of [showGameOver] and
    [showYouWin], without the DOM calls of [init]. *)
Definition restart (fuel : nat) : M unit :=
  modify (set_potionsCarried 0) ;;;
  modify (set_killed 0) ;;;
  init fuel.

(** ** Rendering *)

Definition TILE_SIZE : Z := 50.

(** A [div] that [draw] appends to the field: its class list, the health
    bars that [drawHealth] has appended to it, and the [left] and [top] of
    its [style], in px.  A health bar is recorded by the arguments [hp] and
    [maxHp] of [drawHealth]; its width is [(hp / maxHp) * TILE_SIZE] px. *)
Record Element : Type :=
  mkElement { classList : list string; bars : list (Z * Z);
              styleLeft : Z; styleTop : Z }.

(** The content of the field after [draw]: the tiles in the order of their
    [appendChild], or the message of [showGameOver] or [showYouWin] above
    the Restart button. *)
Inductive Field : Type :=
| Tiles (els : list Element)
| Message (text : string).

(** The [switch (map[y][x])] of [draw]: no class for an Empty tile, nor for
    [undefined]. *)
Definition tileClass (c : option Tile) : list string :=
  match c with
  | Some TILE_WALL => ["tileW"%string]
  | Some TILE_SWORD => ["tileSW"%string]
  | Some TILE_POTION => ["tileHP"%string]
  | _ => []
  end.

(** The body of the inner loop of [draw], [c] being the value of
    [map[y][x]]. *)
Definition drawTile (g : Game) (x y : Z) (c : option Tile) : Element :=
  let here := bool_decide (Hero.x (hero g) = x) && bool_decide (Hero.y (hero g) = y) in
  let enemy := find (Enemy.at_pos x y) (enemies g) in
  mkElement
    (["tile"%string] ++ tileClass c
       ++ (if here then ["tileP"%string] else [])
       ++ (match enemy with Some _ => ["tileE"%string] | None => [] end))
    ((if here then [(Hero.hp (hero g), Hero.maxHp (hero g))] else [])
       ++ (match enemy with
           | Some e => [(Enemy.hp e, Enemy.maxHp e)]
           | None => []
           end))
    (x * TILE_SIZE) (y * TILE_SIZE).

Fixpoint mapM {A B} (f : A → M B) (l : list A) : M (list B) :=
  match l with
  | [] => ret []
  | a :: l' => let* b := f a in let* bs := mapM f l' in ret (b :: bs)
  end.

(** [draw], as the new content of the field. *)
Definition draw : M Field :=
  let* g := get in
  if _gameOver g then
    ret (Message (if _win g then "YOU WIN!" else "GAME OVER")%string)
  else
    let* rows :=
      mapM (λ y, mapM (λ x, let* c := readTile y x in
                            let* g := get in
                            ret (drawTile g x y c))
                      (seqZ 0 MAP_WIDTH))
           (seqZ 0 MAP_HEIGHT) in
    ret (Tiles (concat rows)).

(** What the tile of the cell [(x, y)] shows: the hero alone, with its
    health bar; or one enemy alone, with its health bar; or the tile of the
    grid. *)
Definition shown (g : Game) (x y : Z) (el : Element) : Prop :=
  ((x, y) = (Hero.x (hero g), Hero.y (hero g)) ∧
   classList el = ["tile"; "tileP"]%string ∧
   bars el = [(Hero.hp (hero g), Hero.maxHp (hero g))] ∧
   0 < Hero.hp (hero g) ≤ Hero.maxHp (hero g)) ∨
  (∃ e, e ∈ enemies g ∧ enemy_pos e = (x, y) ∧
        classList el = ["tile"; "tileE"]%string ∧
        bars el = [(Enemy.hp e, Enemy.maxHp e)] ∧
        0 < Enemy.hp e ≤ Enemy.maxHp e) ∨
  ((x, y) ≠ (Hero.x (hero g), Hero.y (hero g)) ∧
   ((x, y) ∉ (enemy_pos <$> enemies g)) ∧
   classList el = ("tile"%string :: tileClass (tileAt (map g) x y)) ∧
   bars el = []).

(** ** The key listener *)

(** The part of the page that [bindInput] touches: the field
    [_boundHandle] of the game object and the [keydown] listeners of
    [window], in the order of their registration.  A function object is
    identified by the number of the [bind] call that created it;
    [fresh_fn] is the number of the next one. *)
Record Page : Type :=
  mkPage { _boundHandle : option nat; keydown : list nat; fresh_fn : nat }.

(** [window.removeEventListener('keydown', h)] *)
Definition removeEventListener (h : nat) (ls : list nat) : list nat :=
  filter (λ f, f ≠ h) ls.

(** [window.addEventListener('keydown', h)]: a listener that is already
    registered is not registered again. *)
Definition addEventListener (h : nat) (ls : list nat) : list nat :=
  if bool_decide (h ∈ ls) then ls else ls ++ [h].

Definition bindInput (p : Page) : Page :=
  let ls := match _boundHandle p with
            | Some h => removeEventListener h (keydown p)
            | None => keydown p
            end in
  let h := fresh_fn p in
  mkPage (Some h) (addEventListener h ls) (S h).

(** The page before the first [init]. *)
Definition page0 : Page := mkPage None [] 0.

(** The dispatch of a [keydown] event: every listener, each of them
    [handleInput] bound to the game object, is called in turn. *)
Definition dispatch (p : Page) (key : string) : M unit :=
  forEach (keydown p) (λ _, handleInput key).

(** ** The step of an enemy as a function of the state *)

(** The cell that the enemy [e] tries to enter when it has drawn the entry
    [mv] of [moves]. *)
Definition heading (e : Enemy.t) (mv : Z * Z) : Z * Z :=
  (wrap MAP_WIDTH (Enemy.x e + mv.1), wrap MAP_HEIGHT (Enemy.y e + mv.2)).

(** The enemy at index [i] may enter the cell [p]: the tile there is Empty,
    and neither the hero nor another enemy stands on it. *)
Definition vacant (i : nat) (p : Z * Z) (g : Game) : bool :=
  bool_decide (tileAt (map g) p.1 p.2 = Some TILE_EMPTY)
  && bool_decide (p ≠ (Hero.x (hero g), Hero.y (hero g)))
  && bool_decide (p ∉ enemy_pos <$> delete i (enemies g)).

(** The state after the turn of the enemy [e] at index [i] that is neither
    flagged nor next to the hero and has drawn [mv]. *)
Definition roamed (i : nat) (e : Enemy.t) (mv : Z * Z) (g : Game) : Game :=
  let p := heading e mv in
  if bool_decide (mv ≠ (0, 0)) && vacant i p g
  then set_enemies (<[i := Enemy.set_pos p.1 p.2 e]> (enemies g)) g
  else g.

(** * Properties *)

(** ** Outcomes *)

Lemma post_bind {A B} s (m : M A) (k : A → M B) g r Q :
  post s (m g r) (λ a g' r', post s (k a g' r') Q) → post s (bind m k g r) Q.
Proof. unfold bind. destruct (m g r); simpl; auto. Qed.

Lemma post_get s g r (Q : Game → Game → Rng → Prop) :
  Q g g r → post s (get g r) Q.
Proof. done. Qed.

Lemma post_modify s f g r (Q : unit → Game → Rng → Prop) :
  Q tt (f g) r → post s (modify f g r) Q.
Proof. done. Qed.

Lemma post_ret {A} s (a : A) g r (Q : A → Game → Rng → Prop) :
  Q a g r → post s (ret a g r) Q.
Proof. done. Qed.

Lemma post_mono {A} s (res : Res A) (Q Q' : A → Game → Rng → Prop) :
  post s res Q → (∀ a g r, Q a g r → Q' a g r) → post s res Q'.
Proof. destruct res; simpl; auto. Qed.

Lemma post_Ok {A} s (res : Res A) Q :
  post s res Q → ¬ s → ∃ a g r, res = Ok a g r ∧ Q a g r.
Proof. destruct res; simpl; intros H Hs; [eauto | done | done]. Qed.

Lemma post_weaken {A} (res : Res A) Q : post False res Q → post True res Q.
Proof. destruct res; simpl; auto. Qed.

Lemma forEach_post {A} s (I : Game → Rng → Prop) (l : list A) (body : A → M unit) :
  (∀ a g r, a ∈ l → I g r → post s (body a g r) (λ _ g' r', I g' r')) →
  ∀ g r, I g r → post s (forEach l body g r) (λ _ g' r', I g' r').
Proof.
  induction l as [|a l IH]; intros Hbody g r HI; simpl; [done|].
  apply post_bind. eapply post_mono.
  - apply Hbody; [left | done].
  - intros [] g' r' HI'. apply IH; [|done].
    intros b g1 r1 Hb. apply Hbody. by right.
Qed.

(** ** Arithmetic of the random draws and of the wrap-around *)

Lemma floor_scale_range u n : 0 < n → 0 ≤ floor_scale u n < n.
Proof.
  intros Hn. unfold floor_scale. split.
  - apply Z.div_pos; lia.
  - apply Z.div_lt_upper_bound; [lia|]. nia.
Qed.

Lemma randomInt_post s lo hi g r (Q : Z → Game → Rng → Prop) :
  lo ≤ hi →
  (∀ z, lo ≤ z ≤ hi → Q z g (mkRng (stream r) (S (cursor r)))) →
  post s (randomInt lo hi g r) Q.
Proof.
  intros Hle HQ. unfold randomInt, bind, random, ret. simpl. apply HQ.
  pose proof (floor_scale_range (stream r (cursor r)) (hi - lo + 1)). lia.
Qed.

Lemma wrap_range limit n : 0 < limit → 0 ≤ wrap limit n < limit.
Proof. intros Hl. unfold wrap. repeat case_bool_decide; lia. Qed.

(** ** Grid *)

Lemma tileAt_setTile m x y t x' y' :
  is_Some (m !! y) →
  tileAt (setTile m x y t) x' y' =
    if bool_decide (x' = x ∧ y' = y) then Some t else tileAt m x' y'.
Proof.
  intros [row Hrow]. unfold setTile, tileAt. rewrite Hrow.
  destruct (decide (y' = y)) as [->|Hy].
  - rewrite lookup_insert_eq. simpl. rewrite Hrow. simpl.
    destruct (decide (x' = x)) as [->|Hx].
    + rewrite lookup_insert_eq. by rewrite bool_decide_eq_true_2.
    + rewrite lookup_insert_ne by done. rewrite bool_decide_eq_false_2; [done|].
      intros [? _]; done.
  - rewrite lookup_insert_ne by done. rewrite bool_decide_eq_false_2; [done|].
    intros [_ ?]; done.
Qed.

Lemma setTile_row m x y t y' : is_Some (m !! y') → is_Some (setTile m x y t !! y').
Proof.
  unfold setTile. destruct (m !! y) as [row|] eqn:Hrow; [|done].
  intros H. destruct (decide (y = y')) as [->|Hne].
  - rewrite lookup_insert_eq. eauto.
  - by rewrite lookup_insert_ne.
Qed.

Lemma grid_wf_row m y : grid_wf m → 0 ≤ y < MAP_HEIGHT → is_Some (m !! y).
Proof.
  intros Hwf Hy. destruct (Hwf 0 y) as [t Ht]; [unfold in_grid, MAP_WIDTH; lia|].
  unfold tileAt in Ht. destruct (m !! y); [eauto | done].
Qed.

Lemma grid_wf_setTile m x y t : grid_wf m → grid_wf (setTile m x y t).
Proof.
  intros Hwf x' y' Hin. destruct (m !! y) as [row|] eqn:Hrow.
  - rewrite tileAt_setTile by eauto. case_bool_decide; [eauto | by apply Hwf].
  - unfold setTile. rewrite Hrow. by apply Hwf.
Qed.

Lemma readTile_eq y x g r :
  is_Some (map g !! y) → readTile y x g r = Ok (tileAt (map g) x y) g r.
Proof.
  intros [row Hrow]. unfold readTile, bind, get, tileAt. by rewrite Hrow.
Qed.

Lemma writeTile_eq y x t g r :
  is_Some (map g !! y) →
  writeTile y x t g r = Ok tt (set_map (setTile (map g) x y t) g) r.
Proof.
  intros [row Hrow]. unfold writeTile, bind, get, setTile. by rewrite Hrow.
Qed.

Lemma const_map_lookup {V} (v : V) (l : list Z) (k : Z) :
  NoDup l →
  (list_to_map ((λ x, (x, v)) <$> l) : gmap Z V) !! k =
    if bool_decide (k ∈ l) then Some v else None.
Proof.
  intros Hnd.
  assert (Hfst : ((λ x, (x, v)) <$> l).*1 = l).
  { rewrite <- list_fmap_compose. apply list_fmap_id. }
  case_bool_decide as Hk.
  - apply elem_of_list_to_map_1; [by rewrite Hfst|].
    apply list_elem_of_fmap. by exists k.
  - apply not_elem_of_list_to_map_1. by rewrite Hfst.
Qed.

Lemma wallRow_lookup x :
  wallRow !! x = if bool_decide (0 ≤ x < MAP_WIDTH) then Some TILE_WALL else None.
Proof.
  unfold wallRow. rewrite const_map_lookup by apply NoDup_seqZ.
  repeat case_bool_decide; try done; exfalso;
    match goal with H : _ ∈ seqZ _ _ |- _ => apply elem_of_seqZ in H; lia
                  | H : ¬ _ ∈ seqZ _ _ |- _ => apply H, elem_of_seqZ; lia end.
Qed.

Lemma wallGrid_lookup y :
  wallGrid !! y = if bool_decide (0 ≤ y < MAP_HEIGHT) then Some wallRow else None.
Proof.
  unfold wallGrid. rewrite const_map_lookup by apply NoDup_seqZ.
  repeat case_bool_decide; try done; exfalso;
    match goal with H : _ ∈ seqZ _ _ |- _ => apply elem_of_seqZ in H; lia
                  | H : ¬ _ ∈ seqZ _ _ |- _ => apply H, elem_of_seqZ; lia end.
Qed.

Lemma tileAt_wallGrid x y :
  tileAt wallGrid x y =
    if bool_decide (in_grid x y) then Some TILE_WALL else None.
Proof.
  unfold tileAt, in_grid. rewrite wallGrid_lookup.
  case_bool_decide as Hy; simpl.
  - rewrite wallRow_lookup. repeat case_bool_decide; done || tauto.
  - rewrite bool_decide_eq_false_2; [done | tauto].
Qed.

Lemma grid_wf_wallGrid : grid_wf wallGrid.
Proof.
  intros x y Hin. rewrite tileAt_wallGrid. by rewrite bool_decide_eq_true_2.
Qed.

(** ** Room carving *)

Lemma carveRoom_post g r x y w h :
  carved g → 1 ≤ x → x + w - 1 ≤ MAP_WIDTH - 2 →
  1 ≤ y → y + h - 1 ≤ MAP_HEIGHT - 2 →
  post False (carveRoom x y w h g r) (λ _ g' _, carved g').
Proof.
  intros Hc Hx1 Hx2 Hy1 Hy2. unfold carveRoom.
  eapply post_mono;
    [apply (forEach_post False (λ g _, carved g)) | by intros [] ].
  2: done.
  intros ry g1 r1 Hry%elem_of_seqZ Hc1.
  apply (forEach_post False (λ g _, carved g)); [|done].
  intros rx g2 r2 Hrx%elem_of_seqZ (Hwf & Hrooms & Hempty & Hkinds).
  assert (Hrow : is_Some (map g2 !! ry))
    by (apply grid_wf_row; [done | unfold MAP_HEIGHT in *; lia]).
  rewrite writeTile_eq by done.
  simpl. split_and!; simpl.
  - by apply grid_wf_setTile.
  - done.
  - intros x' y'. rewrite tileAt_setTile by done.
    case_bool_decide as Heq; [|by apply Hempty].
    destruct Heq as [-> ->]. intros _. unfold interior. lia.
  - intros x' y' t. rewrite tileAt_setTile by done.
    case_bool_decide; [|by apply Hkinds]. intros [= <-]. by right.
Qed.

Lemma placeRoom_post g r :
  carved g → post False (placeRoom g r) (λ _ g' _, carved g').
Proof.
  intros Hc. unfold placeRoom.
  apply post_bind, randomInt_post; [unfold ROOM_MIN, ROOM_MAX; lia|]. intros w Hw.
  apply post_bind, randomInt_post; [unfold ROOM_MIN, ROOM_MAX; lia|]. intros h Hh.
  simpl.
  apply post_bind, randomInt_post;
    [unfold ROOM_MIN, ROOM_MAX, MAP_WIDTH in *; lia|]. intros x Hx.
  apply post_bind, randomInt_post;
    [unfold ROOM_MIN, ROOM_MAX, MAP_HEIGHT in *; lia|]. intros y Hy.
  simpl. apply post_bind. simpl.
  destruct Hc as (Hwf & Hrooms & Hempty & Hkinds).
  apply carveRoom_post; [|lia..].
  split_and!; simpl; [done| |done|done].
  apply Forall_app. split; [done|]. apply Forall_singleton.
  unfold room_inside. simpl. lia.
Qed.

Lemma placeRooms_post g r :
  post False ((generateMap ;;; placeRooms) g r) (λ _ g' _, carved g').
Proof.
  apply post_bind. simpl. unfold placeRooms. apply post_bind. simpl.
  apply post_bind, randomInt_post; [unfold ROOM_COUNT_MIN, ROOM_COUNT_MAX; lia|].
  intros count _.
  eapply post_mono;
    [apply (forEach_post False (λ g _, carved g)) | by intros [] ].
  - intros _ g1 r1 _ Hc. by apply placeRoom_post.
  - split_and!; simpl.
    + apply grid_wf_wallGrid.
    + constructor.
    + intros x y. rewrite tileAt_wallGrid. by case_bool_decide.
    + intros x y t. rewrite tileAt_wallGrid. case_bool_decide; [|done].
      intros [= <-]. by left.
Qed.

(** ** Corridors *)

Lemma writeTile_wf s y x t g r (Q : unit → Game → Rng → Prop) :
  grid_wf (map g) → 0 ≤ y < MAP_HEIGHT →
  Q tt (set_map (setTile (map g) x y t) g) r →
  post s (writeTile y x t g r) Q.
Proof.
  intros Hwf Hy HQ. rewrite writeTile_eq by by apply grid_wf_row. done.
Qed.

Lemma same_but_map_refl g : grid_wf (map g) → same_but_map g g.
Proof. intros Hwf. split_and!; [done | by destruct g | by left]. Qed.

Lemma same_but_map_write g g1 x y :
  same_but_map g g1 →
  same_but_map g (set_map (setTile (map g1) x y TILE_EMPTY) g1).
Proof.
  intros (Hwf & Heq & Hcells). split_and!; simpl.
  - by apply grid_wf_setTile.
  - rewrite Heq at 2. done.
  - intros x' y'. destruct (map g1 !! y) as [row|] eqn:Hrow.
    + rewrite tileAt_setTile by eauto. case_bool_decide; [by right | apply Hcells].
    + unfold setTile. rewrite Hrow. apply Hcells.
Qed.

Lemma same_but_map_rebase g g1 g2 :
  same_but_map g g1 → same_but_map g1 g2 → same_but_map g g2.
Proof.
  intros (Hwf1 & Heq1 & Hc1) (Hwf2 & Heq2 & Hc2). split_and!; [done| |].
  - rewrite Heq2 at 1. rewrite Heq1. done.
  - intros x y. destruct (Hc2 x y) as [-> | ->]; [apply Hc1 | by right].
Qed.

Lemma carveLine_post g0 (cells : list Z) (f : Z → Z * Z) g r :
  (∀ c, c ∈ cells → 0 ≤ (f c).2 < MAP_HEIGHT) →
  same_but_map g0 g →
  post False (forEach cells (λ c, writeTile (f c).2 (f c).1 TILE_EMPTY) g r)
       (λ _ g' _, same_but_map g0 g').
Proof.
  intros Hrows Hg.
  apply (forEach_post False (λ g _, same_but_map g0 g)); [|done].
  intros c g1 r1 Hc Hg1. apply writeTile_wf; [apply Hg1 | by apply Hrows |].
  by apply same_but_map_write.
Qed.

Lemma centre_row y h :
  ROOM_MIN ≤ h → 1 ≤ y → y + h - 1 ≤ MAP_HEIGHT - 2 →
  0 ≤ centre y h < MAP_HEIGHT.
Proof.
  unfold centre, ROOM_MIN, MAP_HEIGHT. intros Hh Hy1 Hy2.
  assert (0 ≤ h `div` 2 < h) by (split; [apply Z.div_pos | apply Z.div_lt]; lia).
  lia.
Qed.

Lemma connectRooms_post g0 i g r :
  same_but_map g0 g → Forall room_inside (rooms g) →
  (1 ≤ i < length (rooms g))%nat →
  post False (connectRooms i g r) (λ _ g' _, same_but_map g0 g').
Proof.
  intros Hg Hrooms Hi. unfold connectRooms. apply post_bind. simpl.
  destruct (lookup_lt_is_Some_2 (rooms g) (i - 1)) as [r1 H1]; [lia|].
  destruct (lookup_lt_is_Some_2 (rooms g) i) as [r2 H2]; [lia|].
  rewrite H1, H2.
  pose proof (Forall_lookup_1 _ _ _ _ Hrooms H1) as (_ & Hh1 & _ & _ & Hy1 & Hy1').
  pose proof (Forall_lookup_1 _ _ _ _ Hrooms H2) as (_ & Hh2 & _ & _ & Hy2 & Hy2').
  pose proof (centre_row (Room.y r1) (Room.h r1)) as Hc1.
  pose proof (centre_row (Room.y r2) (Room.h r2)) as Hc2.
  apply post_bind.
  eapply post_mono.
  { apply (carveLine_post g0 _ (λ x, (x, centre (Room.y r1) (Room.h r1))));
      [|done]. intros c _. simpl. lia. }
  intros [] g1 r1' Hg1.
  apply (carveLine_post g0 _ (λ y, (centre (Room.x r2) (Room.w r2), y)));
    [|done].
  intros c Hc%elem_of_seqZ. simpl. lia.
Qed.

Lemma carveCorridors_post g r :
  grid_wf (map g) → Forall room_inside (rooms g) →
  post False (carveCorridors g r) (λ _ g' _, same_but_map g g').
Proof.
  intros Hwf Hrooms. unfold carveCorridors. apply post_bind, post_get.
  assert (Hinv : ∀ g1, same_but_map g g1 → Forall room_inside (rooms g1)).
  { intros g1 (_ & -> & _). done. }
  assert (Hlen : ∀ g1, same_but_map g g1 → length (rooms g1) = length (rooms g)).
  { intros g1 (_ & -> & _). done. }
  apply post_bind. eapply post_mono.
  { apply (forEach_post False (λ g1 _, same_but_map g g1));
      [|by apply same_but_map_refl].
    intros i g1 r1 Hi%elem_of_seq Hg1.
    apply connectRooms_post; [done | by apply Hinv |]. rewrite Hlen by done. lia. }
  intros [] g1 r1 Hg1.
  apply post_bind, randomInt_post; [unfold CORRIDOR_MIN, CORRIDOR_MAX; lia|].
  intros hCount _.
  apply post_bind, randomInt_post; [unfold CORRIDOR_MIN, CORRIDOR_MAX; lia|].
  intros vCount _.
  apply post_bind. eapply post_mono.
  { apply (forEach_post False (λ g1 _, same_but_map g g1)); [|done].
    intros _ g2 r2 _ Hg2.
    apply post_bind, randomInt_post; [unfold MAP_HEIGHT; lia|]. intros y Hy. cbv beta.
    apply (carveLine_post g _ (λ x, (x, y))).
    - intros c _. simpl. lia.
    - done. }
  intros [] g2 r2 Hg2.
  apply (forEach_post False (λ g1 _, same_but_map g g1)); [|done].
  intros _ g3 r3 _ Hg3.
  apply post_bind, randomInt_post; [unfold MAP_WIDTH; lia|]. intros x Hx. cbv beta.
  apply (carveLine_post g _ (λ y, (x, y))).
  - intros c Hc%elem_of_seqZ. simpl. lia.
  - done.
Qed.

(** ** Counting tiles *)

Lemma tally_ext {A} (f f' : A → nat) l :
  (∀ a, a ∈ l → f' a = f a) → tally f' l = tally f l.
Proof.
  induction l as [|a l IH]; intros H; simpl; [done|].
  rewrite H by left. rewrite IH; [done|]. intros b Hb. apply H. by right.
Qed.

Lemma tally_point {A} (f f' : A → nat) l p :
  NoDup l → p ∈ l → (∀ a, a ∈ l → a ≠ p → f' a = f a) → f' p = S (f p) →
  tally f' l = S (tally f l).
Proof.
  induction l as [|a l IH]; intros Hnd Hin Hother Hp; [by apply elem_of_nil in Hin|].
  apply NoDup_cons in Hnd as [Hna Hnd]. simpl.
  apply elem_of_cons in Hin as [->|Hin].
  - rewrite Hp. rewrite (tally_ext f f' l); [done|].
    intros b Hb. apply Hother; [by right|]. intros ->. done.
  - assert (a ≠ p) by (intros ->; done).
    rewrite Hother by (done || left). rewrite IH; [lia|done..| |done].
    intros b Hb. apply Hother. by right.
Qed.

Lemma countTiles_setTile_other m x y t t' :
  is_Some (m !! y) → t' ≠ t → tileAt m x y ≠ Some t' →
  countTiles (setTile m x y t) t' = countTiles m t'.
Proof.
  intros Hrow Hne Hold. unfold countTiles.
  apply tally_ext. intros y' _. apply tally_ext. intros x' _.
  rewrite tileAt_setTile by done.
  destruct (decide (x' = x ∧ y' = y)) as [[-> ->]|Hxy].
  - rewrite (bool_decide_eq_true_2 (x = x ∧ y = y)) by done.
    rewrite bool_decide_eq_false_2 by congruence.
    by rewrite (bool_decide_eq_false_2 _ Hold).
  - by rewrite (bool_decide_eq_false_2 _ Hxy).
Qed.

Lemma countTiles_setTile_new m x y t :
  is_Some (m !! y) → in_grid x y → tileAt m x y ≠ Some t →
  countTiles (setTile m x y t) t = S (countTiles m t).
Proof.
  intros Hrow [Hx Hy] Hold. unfold countTiles.
  apply (tally_point _ _ _ y); [apply NoDup_seqZ | apply elem_of_seqZ; lia | |].
  - intros y' _ Hne. apply tally_ext. intros x' _.
    rewrite tileAt_setTile by done.
    rewrite (bool_decide_eq_false_2 (x' = x ∧ y' = y)); [done | tauto].
  - apply (tally_point _ _ _ x); [apply NoDup_seqZ | apply elem_of_seqZ; lia | |].
    + intros x' _ Hne. rewrite tileAt_setTile by done.
      rewrite (bool_decide_eq_false_2 (x' = x ∧ y = y)); [done | tauto].
    + rewrite tileAt_setTile by done.
      rewrite (bool_decide_eq_true_2 (x = x ∧ y = y)) by done.
      rewrite bool_decide_eq_true_2 by done.
      by rewrite (bool_decide_eq_false_2 _ Hold).
Qed.

(** ** Entity placement *)

Lemma placeHero_loop_post fuel g r :
  grid_wf (map g) →
  post True (placeHero_loop fuel g r) (λ _ g' _,
    ∃ x y, in_grid x y ∧ tileAt (map g) x y = Some TILE_EMPTY ∧
           g' = set_hero (Hero.set_pos x y (hero g)) g).
Proof.
  intros Hwf. revert r. induction fuel as [|fuel IH]; intros r; [done|].
  simpl.
  apply post_bind, randomInt_post; [unfold MAP_WIDTH; lia|]. intros x Hx.
  apply post_bind, randomInt_post; [unfold MAP_HEIGHT; lia|]. intros y Hy.
  apply post_bind.
  rewrite readTile_eq by (apply grid_wf_row; [done|lia]). simpl.
  unfold is_empty. case_bool_decide as Hc; [|apply IH].
  simpl. exists x, y. split_and!; [unfold in_grid; lia|done..].
Qed.

Lemma placeHero_post fuel g r :
  grid_wf (map g) →
  post True (placeHero fuel g r) (λ _ g' _,
    ∃ x y, in_grid x y ∧ tileAt (map g) x y = Some TILE_EMPTY ∧
           g' = set_hero (Hero.mk x y HERO_HP HERO_HP HERO_ATTACK) g).
Proof.
  intros Hwf. unfold placeHero. apply post_bind, post_modify.
  eapply post_mono; [by apply placeHero_loop_post|].
  intros [] g' r' (x & y & Hin & Ht & ->). by exists x, y.
Qed.

Lemma scatter_post tile limit fuel placed g r :
  grid_wf (map g) → placed ≤ limit → tile ≠ TILE_EMPTY →
  post True (scatter tile limit fuel placed g r)
       (λ _ g' _, scattered tile (Z.to_nat (limit - placed)) g g').
Proof.
  intros Hwf Hle Htile. revert placed g r Hwf Hle.
  assert (Hdone : ∀ g, grid_wf (map g) → scattered tile 0 g g).
  { intros g Hwf. split_and!; [done | by destruct g | lia | done | done]. }
  induction fuel as [|fuel IH]; intros placed g r Hwf Hle; simpl.
  { case_bool_decide; [done|]. replace (limit - placed) with 0 by lia.
    by apply Hdone. }
  case_bool_decide as Hlt;
    [|replace (limit - placed) with 0 by lia; by apply Hdone].
  apply post_bind, randomInt_post; [unfold MAP_WIDTH; lia|]. intros x Hx.
  apply post_bind, randomInt_post; [unfold MAP_HEIGHT; lia|]. intros y Hy.
  assert (Hrow : is_Some (map g !! y)) by (apply grid_wf_row; [done|lia]).
  apply post_bind. rewrite readTile_eq by done.
  apply post_bind, post_get. cbv beta. unfold is_empty.
  destruct (bool_decide (tileAt (map g) x y = Some TILE_EMPTY)) eqn:Hc;
    [|apply IH; done].
  apply bool_decide_eq_true in Hc.
  destruct (bool_decide (x = Hero.x (hero g)) && bool_decide (y = Hero.y (hero g)))
    eqn:Hh; [apply IH; done|].
  cbn [andb negb].
  apply post_bind. rewrite writeTile_eq by done. cbn [post].
  eapply post_mono; [apply IH; simpl; [by apply grid_wf_setTile | lia]|].
  intros [] g' r' (Hwf' & Heq & Hcnt & Hoth & Hchg). simpl in *.
  assert (Hne : (x, y) ≠ (Hero.x (hero g), Hero.y (hero g))).
  { intros [= -> ->]. by rewrite !bool_decide_eq_true_2 in Hh. }
  split_and!.
  - done.
  - rewrite Heq at 1. done.
  - rewrite Hcnt. rewrite countTiles_setTile_new;
      [|done|unfold in_grid; lia|congruence].
    replace (limit - placed) with (Z.succ (limit - (placed + 1))) by lia.
    rewrite Z2Nat.inj_succ by lia. lia.
  - intros t Ht1 Ht2. rewrite Hoth by done.
    apply countTiles_setTile_other; [done|done|congruence].
  - intros x' y' Hdiff.
    destruct (decide (tileAt (map g') x' y'
                      = tileAt (setTile (map g) x y tile) x' y')) as [Hsame|Hnew].
    + rewrite Hsame in *. rewrite tileAt_setTile in Hdiff |- * by done.
      case_bool_decide as Hxy; [|done]. destruct Hxy as [-> ->].
      split_and!; [unfold in_grid; lia|done..].
    + destruct (Hchg x' y' Hnew) as (Hin & Hold & Hnew' & Hhero).
      rewrite tileAt_setTile in Hold by done.
      case_bool_decide; [congruence|]. done.
Qed.

(** [placeItems] turns 2 cells into Swords and 10 cells into Potions; every
    cell it changes was Empty and is not the hero's. *)
Lemma placeItems_post fuel g r :
  grid_wf (map g) →
  post True (placeItems fuel g r) (λ _ g' _,
    g' = set_map (map g') g ∧ grid_wf (map g') ∧
    countTiles (map g') TILE_SWORD = (countTiles (map g) TILE_SWORD + 2)%nat ∧
    countTiles (map g') TILE_POTION = (countTiles (map g) TILE_POTION + 10)%nat ∧
    ∀ x y, tileAt (map g') x y ≠ tileAt (map g) x y →
           in_grid x y ∧ tileAt (map g) x y = Some TILE_EMPTY ∧
           (x, y) ≠ (Hero.x (hero g), Hero.y (hero g))).
Proof.
  intros Hwf. unfold placeItems. apply post_bind. eapply post_mono.
  { by apply (scatter_post TILE_SWORD 2 fuel 0). }
  intros [] g1 r1 (Hwf1 & Heq1 & Hsw1 & Hoth1 & Hchg1).
  eapply post_mono.
  { by apply (scatter_post TILE_POTION 10 fuel 0). }
  intros [] g2 r2 (Hwf2 & Heq2 & Hpo2 & Hoth2 & Hchg2).
  split_and!.
  - rewrite Heq2 at 1. rewrite Heq1. done.
  - done.
  - rewrite Hoth2 by done. rewrite Hsw1. done.
  - rewrite Hpo2, Hoth1 by done. done.
  - intros x y Hdiff.
    destruct (decide (tileAt (map g2) x y = tileAt (map g1) x y)) as [Hsame|Hnew].
    + rewrite Hsame in Hdiff.
      destruct (Hchg1 x y Hdiff) as (Hin & Hold & _ & Hhero). done.
    + destruct (Hchg2 x y Hnew) as (Hin & Hold & _ & Hhero).
      rewrite Heq1 in Hhero. split_and!; [done| |done].
      destruct (decide (tileAt (map g1) x y = tileAt (map g) x y)) as [<-|Hnew1];
        [done|].
      destruct (Hchg1 x y Hnew1) as (_ & _ & Hsword & _). congruence.
Qed.

Lemma preserves_ret {A B} (f : Game → B) (a : A) : preserves f (ret a).
Proof. intros g r a' g' r' [= _ <- _]. done. Qed.

Lemma preserves_bind {A A' B} (f : Game → B) (m : M A) (k : A → M A') :
  preserves f m → (∀ a, preserves f (k a)) → preserves f (bind m k).
Proof.
  intros Hm Hk g r a g' r'. unfold bind.
  destruct (m g r) as [a1 g1 r1| |] eqn:Hmg; [|done..].
  intros Hkg. rewrite (Hk _ _ _ _ _ _ Hkg). by eapply Hm.
Qed.

Lemma preserves_modify {B} (f : Game → B) (h : Game → Game) :
  (∀ g, f (h g) = f g) → preserves f (modify h).
Proof. intros Hh g r a g' r' [= _ <- _]. apply Hh. Qed.

Lemma preserves_forEach {A B} (f : Game → B) (l : list A) (body : A → M unit) :
  (∀ a, preserves f (body a)) → preserves f (forEach l body).
Proof.
  intros Hbody. induction l as [|a l IH]; simpl; [apply preserves_ret|].
  apply preserves_bind; [apply Hbody | by intros _].
Qed.

Lemma preserves_randomInt {B} (f : Game → B) lo hi : preserves f (randomInt lo hi).
Proof. intros g r a g' r' [= _ <- _]. done. Qed.

Lemma preserves_writeTile {B} (f : Game → B) y x t :
  (∀ m g, f (set_map m g) = f g) → preserves f (writeTile y x t).
Proof.
  intros Hf g r a g' r'. unfold writeTile, bind, get.
  destruct (map g !! y); [|done]. intros [= _ <- _]. apply Hf.
Qed.

Lemma placeRooms_counters : preserves counters placeRooms.
Proof.
  unfold placeRooms. apply preserves_bind; [by apply preserves_modify|].
  intros _. apply preserves_bind; [apply preserves_randomInt|]. intros count.
  apply preserves_forEach. intros _. unfold placeRoom.
  repeat (apply preserves_bind; [apply preserves_randomInt|]; intros ?).
  apply preserves_bind; [by apply preserves_modify|]. intros _.
  unfold carveRoom. apply preserves_forEach. intros ry.
  apply preserves_forEach. intros rx. by apply preserves_writeTile.
Qed.

Lemma at_pos_true x y e : Enemy.at_pos x y e = true ↔ enemy_pos e = (x, y).
Proof.
  unfold Enemy.at_pos, enemy_pos. rewrite andb_true_iff, !bool_decide_eq_true.
  split; [by intros [-> ->] | by intros [= -> ->]].
Qed.

Lemma at_pos_false x y e : Enemy.at_pos x y e = false ↔ enemy_pos e ≠ (x, y).
Proof.
  rewrite <- at_pos_true. destruct (Enemy.at_pos x y e); split; done.
Qed.

Lemma existsb_at_pos_false x y (es : list Enemy.t) :
  existsb (Enemy.at_pos x y) es = false ↔ (x, y) ∉ (enemy_pos <$> es).
Proof.
  induction es as [|e es IH]; simpl.
  - split; [intros _; apply not_elem_of_nil | done].
  - rewrite orb_false_iff, IH, at_pos_false, not_elem_of_cons. split.
    + intros [H1 H2]. split; [congruence | done].
    + intros [H1 H2]. split; [congruence | done].
Qed.

Lemma placeEnemies_loop_post fuel count g r :
  grid_wf (map g) → enemies_placed count g → count ≤ ENEMY_COUNT →
  post True (placeEnemies_loop fuel count g r) (λ _ g' _,
    g' = set_enemies (enemies g') g ∧ enemies_placed ENEMY_COUNT g').
Proof.
  revert count g r. induction fuel as [|fuel IH]; intros count g r Hwf He Hle; simpl.
  { case_bool_decide; [done|]. assert (count = ENEMY_COUNT) as -> by lia.
    split; [by destruct g | done]. }
  case_bool_decide as Hlt;
    [|assert (count = ENEMY_COUNT) as -> by lia; split; [by destruct g | done]].
  apply post_bind, randomInt_post; [unfold MAP_WIDTH; lia|]. intros x Hx.
  apply post_bind, randomInt_post; [unfold MAP_HEIGHT; lia|]. intros y Hy.
  apply post_bind. rewrite readTile_eq by (apply grid_wf_row; [done|lia]).
  apply post_bind, post_get. cbv beta.
  destruct (is_empty _ && _ && negb (existsb (Enemy.at_pos x y) (enemies g))) eqn:Hc;
    [|by apply IH].
  apply andb_true_iff in Hc as [_ Hfree%negb_true_iff%existsb_at_pos_false].
  apply post_bind, post_modify.
  eapply post_mono.
  - apply (IH (count + 1)); [done| |lia].
    destruct He as (Hok & Hnd & Hfl & Hhp & Hlen). split_and!; simpl.
    + apply Forall_app. split; [done|]. apply Forall_singleton.
      split; [unfold in_grid; simpl; lia | done].
    + rewrite fmap_app. apply NoDup_app. split_and!; [done| |apply NoDup_singleton].
      intros p Hp Hp'%list_elem_of_singleton. subst p. done.
    + apply Forall_app. split; [done|]. by apply Forall_singleton.
    + apply Forall_app. split; [done|]. by apply Forall_singleton.
    + rewrite length_app. simpl. lia.
  - intros [] g' r' [Heq He']. split; [|done]. rewrite Heq at 1. done.
Qed.

Lemma placeEnemies_post fuel g r :
  grid_wf (map g) →
  post True (placeEnemies fuel g r) (λ _ g' _,
    g' = set_enemies (enemies g') g ∧ enemies_placed ENEMY_COUNT g').
Proof.
  intros Hwf. unfold placeEnemies. apply post_bind, post_modify.
  eapply post_mono.
  - apply (placeEnemies_loop_post fuel 0); [done| |unfold ENEMY_COUNT; lia].
    split_and!; simpl; by try constructor.
  - intros [] g' r' [Heq He']. split; [|done]. rewrite Heq at 1. done.
Qed.

Lemma post_bind_eq {A B} s (m : M A) (k : A → M B) g r a g1 r1 Q :
  m g r = Ok a g1 r1 → post s (k a g1 r1) Q → post s (bind m k g r) Q.
Proof. intros Hm Hk. unfold bind. by rewrite Hm. Qed.

Lemma tally_zero {A} (f : A → nat) l :
  (∀ a, a ∈ l → f a = O) → tally f l = O.
Proof.
  induction l as [|a l IH]; intros H; simpl; [done|].
  rewrite H by left. rewrite IH; [done|]. intros b Hb. apply H. by right.
Qed.

Lemma countTiles_zero m t :
  (∀ x y, tileAt m x y ≠ Some t) → countTiles m t = O.
Proof.
  intros H. unfold countTiles. apply tally_zero. intros y _.
  apply tally_zero. intros x _. by rewrite bool_decide_eq_false_2.
Qed.

(** ** What [init] establishes *)

Lemma init_post fuel g r :
  post True (init fuel g r) (λ _ g' _,
    Inv g' ∧ fresh g' ∧
    countTiles (map g') TILE_SWORD = 2%nat ∧
    countTiles (map g') TILE_POTION = 10%nat).
Proof.
  unfold init.
  do 3 apply post_bind, post_modify.
  set (g1 := set_flags _ _ _).
  assert (Hc1 : counters g1 = (0, 0, false, false)) by done. clearbody g1.
  pose proof (placeRooms_post g1 r) as Hrooms.
  apply post_Ok in Hrooms as ([] & g3 & r3 & Heq3 & Hcarved); [|tauto].
  assert (Hc3 : counters g3 = (0, 0, false, false)).
  { rewrite <- Hc1. apply (placeRooms_counters (set_map wallGrid g1) r tt g3 r3).
    exact Heq3. }
  unfold generateMap. apply post_bind, post_modify.
  eapply post_bind_eq; [exact Heq3|]. clear Heq3.
  destruct Hcarved as (Hwf3 & Hin3 & _ & Hkinds3).
  apply post_bind. eapply post_mono.
  { apply post_weaken. by apply carveCorridors_post. }
  intros [] g4 r4 (Hwf4 & Heq4 & Hcells4).
  assert (Hc4 : counters g4 = (0, 0, false, false)) by (by rewrite Heq4).
  assert (Hkinds4 : ∀ x y t, tileAt (map g4) x y = Some t →
                             t = TILE_WALL ∨ t = TILE_EMPTY).
  { intros x y t Ht. destruct (Hcells4 x y) as [Hsame|Hnew].
    - rewrite Hsame in Ht. by eapply Hkinds3.
    - right. congruence. }
  clear Heq4 Hcells4 Hkinds3 Hwf3 Hin3 Hc3.
  apply post_bind. eapply post_mono; [by apply placeHero_post|].
  intros [] g5 r5 (hx & hy & Hhero & _ & ->).
  apply post_bind. unfold placeItems. apply post_bind. eapply post_mono.
  { by apply (scatter_post TILE_SWORD 2 fuel 0). }
  intros [] g6 r6 (Hwf6 & Heq6 & Hsw6 & Hoth6 & _).
  eapply post_mono.
  { by apply (scatter_post TILE_POTION 10 fuel 0). }
  intros [] g7 r7 (Hwf7 & Heq7 & Hpo7 & Hoth7 & _).
  eapply post_mono; [by apply placeEnemies_post|].
  intros [] g8 r8 (Heq8 & Hok & Hnd & Hfl & Hhp & Hlen).
  assert (Hg8 : g8 = set_enemies (enemies g8) (set_map (map g7)
                  (set_hero (Hero.mk hx hy HERO_HP HERO_HP HERO_ATTACK) g4))).
  { rewrite Heq8 at 1. rewrite Heq7 at 1. rewrite Heq6 at 1. done. }
  injection Hc4 as Hpc Hk Hov Hw.
  assert (Hmap8 : map g8 = map g7) by (by rewrite Hg8).
  split_and!.
  - split; [|done]. rewrite Hg8 in *. simpl in *.
    split; simpl; rewrite ?Hov, ?Hw, ?Hk; done.
  - rewrite Hg8 in *. simpl in *. unfold fresh. simpl. by split_and!.
  - rewrite Hmap8, Hoth7 by done. rewrite Hsw6. simpl.
    rewrite countTiles_zero; [done|]. intros x y Ht.
    by destruct (Hkinds4 x y _ Ht).
  - rewrite Hmap8, Hpo7, Hoth6 by done. simpl.
    rewrite countTiles_zero; [done|]. intros x y Ht.
    by destruct (Hkinds4 x y _ Ht).
Qed.

(** ** The Attack action *)

Lemma omap_cons {A B} (f : A → option B) (a : A) (l : list A) :
  omap f (a :: l) = match f a with Some b => b :: omap f l | None => omap f l end.
Proof. done. Qed.

Lemma strike_pos atk ps e e' : strike atk ps e = Some e' → enemy_pos e' = enemy_pos e.
Proof.
  unfold strike. repeat case_bool_decide; intros [= <-]; done.
Qed.

Lemma strike_elsewhere atk ps e : enemy_pos e ∉ ps → strike atk ps e = Some e.
Proof. intros H. unfold strike. by rewrite bool_decide_eq_false_2. Qed.

Section Elsewhere.
Context (atk : Z) (ps : list (Z * Z)).

Let free (es : list Enemy.t) : Prop := ∀ p, p ∈ ps → p ∉ (enemy_pos <$> es).

Lemma free_cons e es : free (e :: es) → (enemy_pos e ∉ ps) ∧ free es.
Proof.
  intros H. split.
  - intros Hin. apply (H _ Hin). by left.
  - intros p Hp Hin. apply (H p Hp). by right.
Qed.

Lemma omap_strike_elsewhere es : free es → omap (strike atk ps) es = es.
Proof.
  induction es as [|e es IH]; [done|]. intros [He Hes]%free_cons.
  by rewrite omap_cons, strike_elsewhere, IH.
Qed.

Lemma retaliation_elsewhere es : free es → retaliation atk ps es = 0.
Proof.
  induction es as [|e es IH]; [done|]. intros [He Hes]%free_cons.
  unfold retaliation in *. cbn [foldr]. rewrite IH by done.
  unfold strikes_back. by rewrite (bool_decide_eq_false_2 _ He).
Qed.

Lemma kills_elsewhere es : free es → kills atk ps es = 0.
Proof.
  induction es as [|e es IH]; [done|]. intros [He Hes]%free_cons.
  unfold kills in *. cbn [foldr]. rewrite IH by done.
  unfold falls. by rewrite (bool_decide_eq_false_2 _ He).
Qed.

End Elsewhere.

Lemma omap_strike_sublist atk ps (es : list Enemy.t) :
  sublist (enemy_pos <$> omap (strike atk ps) es) (enemy_pos <$> es).
Proof.
  induction es as [|e es IH]; [done|]. rewrite omap_cons, fmap_cons.
  destruct (strike atk ps e) as [e'|] eqn:He.
  - rewrite fmap_cons, (strike_pos _ _ _ _ He). by apply sublist_skip.
  - by apply sublist_cons.
Qed.

Lemma omap_strike_NoDup atk ps (es : list Enemy.t) :
  NoDup (enemy_pos <$> es) → NoDup (enemy_pos <$> omap (strike atk ps) es).
Proof. intros H. eapply sublist_NoDup; [done | apply omap_strike_sublist]. Qed.

Lemma strike_nil atk e : strike atk [] e = Some e.
Proof. apply strike_elsewhere, not_elem_of_nil. Qed.

Lemma struckGame_nil g : struckGame [] g = g.
Proof.
  unfold struckGame.
  rewrite omap_strike_elsewhere, retaliation_elsewhere, kills_elsewhere
    by (intros p Hp; by apply elem_of_nil in Hp).
  destruct g as [m [] ]. simpl. by rewrite !Z.sub_0_r, !Z.add_0_r.
Qed.

(** What [findIndex], the in-place update and the [splice] of one callback
    of [heroAttack] do to the enemy list, when no two enemies share a cell. *)
Lemma strike_list atk p (es : list Enemy.t) :
  NoDup (enemy_pos <$> es) →
  match findIndex (Enemy.at_pos p.1 p.2) es with
  | None =>
      omap (strike atk [p]) es = es ∧
      retaliation atk [p] es = 0 ∧ kills atk [p] es = 0
  | Some idx =>
      ∃ en, es !! idx = Some en ∧
        let en1 := Enemy.set_hp (Enemy.hp en - atk) en in
        if bool_decide (Enemy.hp en1 > 0) then
          omap (strike atk [p]) es
            = <[idx := Enemy.set_justRetaliated true en1]> (<[idx := en1]> es) ∧
          retaliation atk [p] es = Enemy.attack en1 ∧ kills atk [p] es = 0
        else
          omap (strike atk [p]) es = delete idx (<[idx := en1]> es) ∧
          retaliation atk [p] es = 0 ∧ kills atk [p] es = 1
  end.
Proof.
  destruct p as [tx ty]. cbn [fst snd].
  induction es as [|e es IH]; intros Hnd; [done|].
  rewrite fmap_cons in Hnd. apply NoDup_cons in Hnd as [Hfresh Hnd].
  cbn [findIndex]. destruct (Enemy.at_pos tx ty e) eqn:Hat.
  - apply at_pos_true in Hat.
    assert (Hfree : ∀ q, q ∈ [(tx, ty)] → q ∉ (enemy_pos <$> es)).
    { intros q ->%list_elem_of_singleton. by rewrite <- Hat. }
    exists e. split; [done|]. cbn zeta.
    unfold retaliation, kills. rewrite omap_cons. cbn [foldr].
    fold (retaliation atk [(tx, ty)] es). fold (kills atk [(tx, ty)] es).
    rewrite omap_strike_elsewhere, retaliation_elsewhere, kills_elsewhere by done.
    unfold strike, strikes_back, falls. rewrite Hat.
    rewrite (bool_decide_eq_true_2 ((tx, ty) ∈ [(tx, ty)])) by by left.
    change (Enemy.hp (Enemy.set_hp (Enemy.hp e - atk) e)) with (Enemy.hp e - atk).
    destruct (bool_decide (Enemy.hp e - atk > 0)); simpl; split_and!; done || lia.
  - apply at_pos_false in Hat.
    assert (Hout : enemy_pos e ∉ [(tx, ty)]).
    { by intros H%list_elem_of_singleton. }
    unfold retaliation, kills. rewrite omap_cons. cbn [foldr].
    fold (retaliation atk [(tx, ty)] es). fold (kills atk [(tx, ty)] es).
    rewrite strike_elsewhere by done. unfold strikes_back, falls.
    rewrite (bool_decide_eq_false_2 _ Hout). cbn [andb].
    specialize (IH Hnd).
    destruct (findIndex (Enemy.at_pos tx ty) es) as [idx|]; cbn [fmap option_fmap option_map].
    + destruct IH as (en & Hen & IH). exists en. split; [done|].
      cbn zeta in *. destruct (bool_decide _).
      * destruct IH as (-> & -> & ->). by split_and!.
      * destruct IH as (-> & -> & ->). by split_and!.
    + destruct IH as (-> & -> & ->). by split_and!.
Qed.

Lemma attackDir_eq d g r :
  NoDup (enemy_pos <$> enemies g) →
  attackDir d g r
  = Ok tt (struckGame [(Hero.x (hero g) + d.1, Hero.y (hero g) + d.2)] g) r.
Proof.
  intros Hnd.
  pose proof (strike_list (Hero.attack (hero g))
                (Hero.x (hero g) + d.1, Hero.y (hero g) + d.2) _ Hnd) as Hs.
  cbn [fst snd] in Hs.
  unfold attackDir, bind, get. cbv beta iota.
  destruct (findIndex _ (enemies g)) as [idx|].
  - destruct Hs as (en & -> & Hs). cbn zeta in *.
    destruct (bool_decide _); destruct Hs as (Hes & Hret & Hk);
      unfold struckGame; rewrite Hes, Hret, Hk; unfold modify;
      destruct g as [m [] ]; simpl;
      by rewrite ?Z.add_0_r, ?Z.sub_0_r.
  - destruct Hs as (Hes & Hret & Hk).
    unfold struckGame. rewrite Hes, Hret, Hk. unfold ret.
    destruct g as [m [] ]; simpl. by rewrite !Z.sub_0_r, !Z.add_0_r.
Qed.

Section StrikeTwice.
Context (atk : Z) (p : Z * Z) (ps : list (Z * Z)).
Hypothesis Hp : p ∉ ps.

(** Striking the cell [p] and then the cells [ps], for one enemy. *)
Lemma strike_twice e :
  strike atk [p] e ≫= strike atk ps = strike atk (p :: ps) e ∧
  strikes_back atk [p] e
    + from_option (strikes_back atk ps) 0 (strike atk [p] e)
    = strikes_back atk (p :: ps) e ∧
  falls atk [p] e + from_option (falls atk ps) 0 (strike atk [p] e)
    = falls atk (p :: ps) e.
Proof.
  unfold strike, strikes_back, falls.
  destruct (decide (enemy_pos e = p)) as [Heq|Hne].
  - rewrite (bool_decide_eq_true_2 (enemy_pos e ∈ [p])) by (rewrite Heq; by left).
    rewrite (bool_decide_eq_true_2 (enemy_pos e ∈ p :: ps)) by (rewrite Heq; by left).
    assert (He1 : enemy_pos (Enemy.set_justRetaliated true
                               (Enemy.set_hp (Enemy.hp e - atk) e)) ∉ ps)
      by (change (enemy_pos e ∉ ps); by rewrite Heq).
    destruct (bool_decide (Enemy.hp e - atk > 0)); cbn [andb negb mbind option_bind from_option];
      [|done].
    rewrite (bool_decide_eq_false_2 _ He1).
    cbn. split_and!; [done|lia..].
  - assert (H1 : enemy_pos e ∉ [p]) by (by intros H%list_elem_of_singleton).
    rewrite (bool_decide_eq_false_2 _ H1). cbn.
    assert (Hiff : bool_decide (enemy_pos e ∈ p :: ps) = bool_decide (enemy_pos e ∈ ps)).
    { apply bool_decide_ext. rewrite elem_of_cons.
      split; [intros [Hc|Hc]; done | by right]. }
    by rewrite Hiff.
Qed.

Lemma struck_cons (es : list Enemy.t) :
  omap (strike atk ps) (omap (strike atk [p]) es) = omap (strike atk (p :: ps)) es ∧
  retaliation atk [p] es + retaliation atk ps (omap (strike atk [p]) es)
    = retaliation atk (p :: ps) es ∧
  kills atk [p] es + kills atk ps (omap (strike atk [p]) es)
    = kills atk (p :: ps) es.
Proof.
  induction es as [|e es (IHo & IHr & IHk)]; [done|].
  destruct (strike_twice e) as (Ho & Hr & Hk).
  unfold retaliation, kills in *. rewrite !omap_cons. cbn [foldr].
  rewrite <- IHo, <- IHr, <- IHk, <- Ho, <- Hr, <- Hk. clear.
  destruct (strike atk [p] e) as [e1|]; cbn [mbind option_bind from_option].
  - rewrite omap_cons. cbn [foldr].
    destruct (strike atk ps e1); split_and!; done || lia.
  - split_and!; [done|lia..].
Qed.

End StrikeTwice.

Lemma struckGame_cons p ps g :
  p ∉ ps → struckGame ps (struckGame [p] g) = struckGame (p :: ps) g.
Proof.
  intros Hp.
  destruct (struck_cons (Hero.attack (hero g)) p ps Hp (enemies g)) as (Ho & Hr & Hk).
  unfold struckGame. simpl. rewrite Ho, <- Hr, <- Hk.
  unfold Hero.set_hp. simpl. f_equal; [f_equal|]; lia.
Qed.

(** The cells [hero + d] for the directions [ds]. *)
Lemma forEach_attackDir ds g r :
  NoDup (enemy_pos <$> enemies g) →
  NoDup ((λ d : Z * Z, (Hero.x (hero g) + d.1, Hero.y (hero g) + d.2)) <$> ds) →
  forEach ds attackDir g r
  = Ok tt (struckGame
             ((λ d : Z * Z, (Hero.x (hero g) + d.1, Hero.y (hero g) + d.2)) <$> ds)
             g) r.
Proof.
  revert g. induction ds as [|d ds IH]; intros g Hnd Hcells.
  { simpl. by rewrite struckGame_nil. }
  rewrite fmap_cons in Hcells |- *. apply NoDup_cons in Hcells as [Hd Hcells].
  cbn [forEach]. unfold bind. rewrite attackDir_eq by done.
  rewrite IH; [|by apply omap_strike_NoDup|done].
  cbn [struckGame hero Hero.set_hp Hero.x Hero.y].
  by rewrite struckGame_cons.
Qed.

Lemma targets_neighbours h : targets h = neighbours h.
Proof.
  unfold targets, neighbours, dirs. simpl.
  repeat f_equal; lia.
Qed.

Lemma NoDup_neighbours h : NoDup (neighbours h).
Proof.
  unfold neighbours. repeat (apply NoDup_cons; split);
    rewrite ?elem_of_cons, ?elem_of_nil; [..|apply NoDup_nil_2];
    intros H; repeat destruct H as [H|H]; try done; injection H; lia.
Qed.

(** [heroAttack] is the Attack of the specification, when no two enemies
    share a cell. *)
Lemma heroAttack_eq g r :
  NoDup (enemy_pos <$> enemies g) →
  heroAttack g r = Ok tt (attack_spec g) r.
Proof.
  intros Hnd. unfold heroAttack, bind.
  fold (targets (hero g)) in *.
  pose proof (forEach_attackDir dirs g r Hnd) as Hloop.
  fold (targets (hero g)) in Hloop. rewrite targets_neighbours in Hloop.
  rewrite Hloop by apply NoDup_neighbours.
  unfold get, attack_spec.
  set (g1 := struckGame _ g).
  assert (Hnil : bool_decide (length (enemies g1) = O) = bool_decide (enemies g1 = [])).
  { apply bool_decide_ext. by destruct (enemies g1). }
  rewrite Hnil. clear Hnil Hloop. clearbody g1.
  destruct (_ || _); [done|].
  by destruct (bool_decide (Hero.hp (hero g1) <= 0)).
Qed.

(** ** The Move action *)

Lemma forEach_damageFrom ds g r :
  forEach ds damageFrom g r
  = Ok tt (set_hero (Hero.set_hp
                       (Hero.hp (hero g) - contactDamage (hero g) (enemies g) ds)
                       (hero g)) g) r.
Proof.
  revert g. induction ds as [|d ds IH]; intros g.
  { simpl. rewrite Z.sub_0_r. by destruct g as [m [] ]. }
  cbn [forEach]. unfold bind at 1.
  assert (Hd : damageFrom d g r
    = Ok tt (set_hero (Hero.set_hp
         (Hero.hp (hero g)
          - contact (enemies g) (Hero.x (hero g) + d.1, Hero.y (hero g) + d.2))
         (hero g)) g) r).
  { unfold damageFrom, bind, get, contact. cbn [fst snd].
    destruct (find _ _); [done|]. unfold ret. rewrite Z.sub_0_r.
    by destruct g as [m [] ]. }
  rewrite Hd, IH. unfold contactDamage. cbn [foldr]. simpl.
  unfold Hero.set_hp, set_hero. simpl. f_equal. f_equal. f_equal. lia.
Qed.

Lemma adjacentEnemyDamage_eq g r :
  adjacentEnemyDamage g r
  = Ok tt (damaged (contactDamage (hero g) (enemies g) dirs) g) r.
Proof.
  unfold adjacentEnemyDamage, bind. rewrite forEach_damageFrom.
  unfold get, damaged. cbv zeta.
  by destruct (bool_decide _).
Qed.

Lemma contact_nonneg (es : list Enemy.t) p :
  Forall enemy_ok es → 0 ≤ contact es p.
Proof.
  intros Hok. unfold contact. destruct (find _ es) as [en|] eqn:Hf; [|done].
  apply find_some in Hf as [Hin _]. apply list_elem_of_In in Hin.
  rewrite Forall_forall in Hok. destruct (Hok _ Hin) as [_ ->]. done.
Qed.

Lemma contactDamage_nonneg h (es : list Enemy.t) ds :
  Forall enemy_ok es → 0 ≤ contactDamage h es ds.
Proof.
  intros Hok. induction ds as [|d ds IH]; [done|].
  unfold contactDamage in *. cbn [foldr].
  pose proof (contact_nonneg es (Hero.x h + d.1, Hero.y h + d.2) Hok). lia.
Qed.

Lemma damaged_Base dmg g :
  Base g → _gameOver g = false → 0 ≤ dmg → Base (damaged dmg g).
Proof.
  intros [Hgrid Hhero Hen Hnd Hk Hhp Halive Hlost Hwon] Hplay Hdmg.
  destruct (Halive Hplay) as [Hpos Hwin].
  unfold damaged. cbv zeta. cbn [hero set_hero Hero.hp Hero.set_hp].
  case_bool_decide as Hdead;
    split; simpl; rewrite ?Hwin, ?Hplay; try done; lia.
Qed.

Lemma checkPickup_Base g r :
  Base g → _gameOver g = false →
  ∃ g', checkPickup g r = Ok tt g' r ∧ Base g' ∧
        enemies g' = enemies g ∧ _gameOver g' = false ∧
        Hero.x (hero g') = Hero.x (hero g) ∧ Hero.y (hero g') = Hero.y (hero g).
Proof.
  intros HB Hplay.
  pose proof HB as [Hgrid Hhero Hen Hnd Hk Hhp Halive Hlost Hwon].
  destruct (Halive Hplay) as [Hpos Hwin].
  assert (Hrow : is_Some (map g !! Hero.y (hero g))).
  { apply grid_wf_row; [done|]. apply Hhero. }
  unfold checkPickup, bind at 1, get. unfold bind at 1.
  rewrite readTile_eq by done.
  case_bool_decide as Hpotion; [|case_bool_decide as Hsword].
  - unfold bind, modify, get. cbn [hero set_hero set_potionsCarried Hero.set_hp Hero.x Hero.y].
    rewrite writeTile_eq by done. eexists. split; [done|].
    split_and!; try done.
    split; simpl; rewrite ?Hwin, ?Hplay; try done.
    + by apply grid_wf_setTile.
    + unfold POTION_COUNT. lia.
    + intros _. unfold POTION_COUNT. split; [lia|done].
  - unfold bind, modify, get. cbn [hero set_hero Hero.set_attack Hero.x Hero.y].
    rewrite writeTile_eq by done. eexists. split; [done|].
    split_and!; try done.
    split; simpl; rewrite ?Hwin, ?Hplay; try done.
    by apply grid_wf_setTile.
  - exists g. by split_and!.
Qed.

Lemma attemptMove_Inv dx dy g r :
  Inv g → _gameOver g = false →
  ∃ g', attemptMove dx dy g r = Ok tt g' r ∧ Inv g' ∧ enemies g' = enemies g.
Proof.
  intros [HB Hfl] Hplay.
  pose proof HB as [Hgrid Hhero Hen Hnd Hk Hhp Halive Hlost Hwon].
  destruct (Halive Hplay) as [Hpos Hwin].
  pose proof (wrap_range MAP_WIDTH (Hero.x (hero g) + dx) eq_refl) as Hnx.
  pose proof (wrap_range MAP_HEIGHT (Hero.y (hero g) + dy) eq_refl) as Hny.
  unfold attemptMove, bind at 1, get. unfold bind at 1.
  rewrite readTile_eq by by apply grid_wf_row.
  case_bool_decide as Hwall; [by exists g|].
  destruct (existsb _ _); [by exists g|].
  unfold bind at 1, modify.
  set (g1 := set_hero _ g).
  assert (HB1 : Base g1) by (split; simpl; done).
  destruct (checkPickup_Base g1 r HB1 Hplay) as (g2 & Hg2 & HB2 & Hes2 & Hplay2 & _).
  unfold bind. rewrite Hg2, adjacentEnemyDamage_eq.
  eexists. split; [done|]. split; [split|].
  - apply damaged_Base; [done..|]. apply contactDamage_nonneg, HB2.
  - unfold flags_clear, damaged. cbv zeta. case_bool_decide; simpl; by rewrite Hes2.
  - unfold damaged. cbv zeta. case_bool_decide; simpl; by rewrite Hes2.
Qed.

(** ** The enemy turn *)

Lemma someIdx_false {A} (p : A → nat → bool) (l : list A) (k : nat) :
  someIdx p l k = false → ∀ j a, l !! j = Some a → p a (k + j)%nat = false.
Proof.
  revert k. induction l as [|a0 l IH]; intros k H j a Hj; [done|].
  simpl in H. apply orb_false_iff in H as [H0 Hrest].
  destruct j as [|j]; simpl in Hj.
  - injection Hj as <-. by rewrite Nat.add_0_r.
  - rewrite <- Nat.add_succ_comm. by apply IH.
Qed.

Lemma draw_move u :
  ∃ mv, moves !! Z.to_nat (floor_scale u (Z.of_nat (length moves) - 1 - 0 + 1) + 0)
        = Some mv ∧ mv ∈ moves.
Proof.
  pose proof (floor_scale_range u (Z.of_nat (length moves) - 1 - 0 + 1) eq_refl) as Hk.
  destruct (lookup_lt_is_Some_2 moves
              (Z.to_nat (floor_scale u (Z.of_nat (length moves) - 1 - 0 + 1) + 0)))
    as [mv Hmv].
  { simpl in *. lia. }
  exists mv. split; [done|]. by eapply list_elem_of_lookup_2.
Qed.

Lemma enemyTurn_turned i e g r :
  grid_wf (map g) → enemies g !! i = Some e →
  ∃ f g' r', enemyTurn i g r = Ok f g' r' ∧ turned i e g f g' ∧
             (Enemy._justRetaliated e = true ∨ adjacent e (hero g) = true → r' = r).
Proof.
  intros Hwf He. unfold enemyTurn, bind at 1, get. rewrite He.
  destruct (Enemy._justRetaliated e) eqn:Hflag.
  { do 3 eexists. split; [done|]. split; [by constructor | done]. }
  destruct (adjacent e (hero g)) eqn:Hadj; pose proof Hadj as Hadj';
    unfold adjacent in Hadj'; cbv zeta in Hadj'; rewrite Hadj'; clear Hadj'.
  { unfold bind at 1, modify. unfold bind at 1, get.
    cbn [hero set_hero Hero.hp Hero.set_hp].
    case_bool_decide as Hdead.
    - do 3 eexists. split; [done|]. split; [by apply turned_kill | done].
    - do 3 eexists. split; [done|]. split; [apply turned_hit; done || lia | done]. }
  unfold bind at 1, randomInt, bind at 1, random, ret.
  destruct (draw_move (stream r (cursor r))) as (mv & -> & Hmv).
  destruct (bool_decide (mv.1 ≠ 0) || bool_decide (mv.2 ≠ 0));
    [|do 3 eexists; split; [done|]; split; [by apply turned_stay | by intros [|] ] ].
  pose proof (wrap_range MAP_WIDTH (Enemy.x e + mv.1) eq_refl) as Hnx.
  pose proof (wrap_range MAP_HEIGHT (Enemy.y e + mv.2) eq_refl) as Hny.
  unfold bind at 1. rewrite readTile_eq by by apply grid_wf_row.
  unfold bind at 1, get.
  destruct (is_empty _ && _ && _) eqn:Hc;
    [|do 3 eexists; split; [done|]; split; [by apply turned_stay | by intros [|] ] ].
  apply andb_true_iff in Hc as [Hc Hfree]. apply andb_true_iff in Hc as [Hempty Hhero].
  apply bool_decide_eq_true in Hempty.
  apply negb_true_iff in Hhero, Hfree.
  do 3 eexists. split; [done|]. split; [|by intros [|] ].
  apply (turned_step i e g mv); try done.
  - intros [= Hx Hy]. by rewrite !bool_decide_eq_true_2 in Hhero.
  - intros j oth Hne Hj.
    pose proof (someIdx_false _ _ _ Hfree j oth Hj) as Hp. simpl in Hp.
    rewrite (bool_decide_eq_true_2 _ Hne) in Hp. by apply at_pos_false.
Qed.

Lemma NoDup_pos_insert (es : list Enemy.t) i e' :
  NoDup (enemy_pos <$> es) →
  (∀ j oth, j ≠ i → es !! j = Some oth → enemy_pos oth ≠ enemy_pos e') →
  NoDup (enemy_pos <$> <[i := e']> es).
Proof.
  rewrite !NoDup_alt. intros Hnd Hfree j k p.
  rewrite !list_lookup_fmap, !fmap_Some.
  intros (a & Ha & ->) (b & Hb & Hab).
  rewrite list_lookup_insert_Some in Ha, Hb.
  destruct Ha as [(-> & <- & Hj)|(Hj & Ha)], Hb as [(-> & <- & Hk)|(Hk & Hb)].
  - done.
  - by destruct (Hfree k b).
  - by destruct (Hfree j a).
  - apply (Hnd j k (enemy_pos a)); rewrite list_lookup_fmap.
    + by rewrite Ha.
    + by rewrite Hb, Hab.
Qed.

Lemma pos_insert_same (es : list Enemy.t) i e e' :
  es !! i = Some e → enemy_pos e' = enemy_pos e →
  enemy_pos <$> <[i := e']> es = enemy_pos <$> es.
Proof.
  intros He Hpos. rewrite list_fmap_insert, Hpos.
  apply list_insert_id. by rewrite list_lookup_fmap, He.
Qed.

Lemma turned_Base i e g f g' :
  Base g → enemies g !! i = Some e → turned i e g f g' → Base g'.
Proof.
  intros [Hgrid Hhero Hen Hnd Hk Hhp Halive Hlost Hwon] He Ht.
  pose proof (Forall_lookup_1 _ _ _ _ Hen He) as [Hpos Hatk].
  assert (Hw : _win g = false).
  { destruct (_win g); [|done]. destruct Hwon as [Hnil _]; [done|].
    by rewrite Hnil in He. }
  unfold ENEMY_ATTACK in Hatk.
  destruct Ht as [Hflag|Hflag Hadj Hsurv|Hflag Hadj Hdead|Hflag Hadj
                  |mv Hflag Hadj Hmv nx ny Hin Hempty Hnh Hfree].
  - split; simpl; try done.
    + by apply Forall_insert.
    + by rewrite (pos_insert_same _ _ e).
    + by rewrite length_insert.
    + by rewrite Hw.
  - split; simpl; [done..|lia| | |by rewrite Hw].
    + intros Hplay. split; [lia|done].
    + intros Hover _. rewrite (Hlost Hover Hw) in Hsurv. lia.
  - split; simpl; [done..|lia|done|done|done].
  - by split.
  - split; simpl; try done.
    + by apply Forall_insert.
    + by apply NoDup_pos_insert.
    + by rewrite length_insert.
    + by rewrite Hw.
Qed.

(** What an iteration does to the enemy list: only the entry [i] may change,
    its flag ends up clear, and a flagged enemy only loses its flag. *)
Lemma turned_enemies i e g f g' :
  enemies g !! i = Some e → turned i e g f g' →
  length (enemies g') = length (enemies g) ∧
  (∀ j, j ≠ i → enemies g' !! j = enemies g !! j) ∧
  ∃ e', enemies g' !! i = Some e' ∧ Enemy._justRetaliated e' = false ∧
        (Enemy._justRetaliated e = true → e' = Enemy.set_justRetaliated false e).
Proof.
  intros He Ht. pose proof (lookup_lt_Some _ _ _ He) as Hlt.
  destruct Ht; simpl; rewrite ?length_insert.
  - split_and!; [done|by intros; apply list_lookup_insert_ne|].
    eexists. rewrite list_lookup_insert_eq by done. done.
  - split_and!; [done..|]. exists e. split_and!; [done..|congruence].
  - split_and!; [done..|]. exists e. split_and!; [done..|congruence].
  - split_and!; [done..|]. exists e. split_and!; [done..|congruence].
  - split_and!; [done|by intros; apply list_lookup_insert_ne|].
    eexists. rewrite list_lookup_insert_eq by done.
    split_and!; [done..|congruence].
Qed.

Lemma turned_flags_clear i e g f g' :
  enemies g !! i = Some e → turned i e g f g' → flags_clear g → flags_clear g'.
Proof.
  intros He Ht Hfl. destruct (turned_enemies i e g f g' He Ht)
    as (_ & Hother & e' & He' & Hflag' & _).
  unfold flags_clear in *. rewrite Forall_lookup in Hfl |- *.
  intros j a Ha. destruct (decide (j = i)) as [->|Hne].
  - congruence.
  - rewrite Hother in Ha by done. by eapply Hfl.
Qed.

(** The enemy turn from a state where no enemy is flagged: it returns
    normally and keeps the invariant. *)
Lemma sweep_Inv idxs g r :
  Inv g → (∀ i, i ∈ idxs → (i < length (enemies g))%nat) →
  ∃ g' r', updateEnemies_loop idxs g r = Ok tt g' r' ∧ Inv g'.
Proof.
  revert g r. induction idxs as [|i idxs IH]; intros g r [HB Hfl] Hidx.
  { by exists g, r. }
  destruct (lookup_lt_is_Some_2 (enemies g) i) as [e He]; [apply Hidx; by left|].
  destruct (enemyTurn_turned i e g r (base_grid _ HB) He) as (f & g1 & r1 & Heq & Ht & _).
  cbn [updateEnemies_loop]. unfold bind. rewrite Heq.
  assert (Inv g1) as HI1.
  { split; [by eapply turned_Base | by eapply turned_flags_clear]. }
  destruct f; [|by exists g1, r1].
  apply IH; [done|]. intros j Hj.
  destruct (turned_enemies i e g Next g1 He Ht) as (-> & _). apply Hidx. by right.
Qed.

(** The enemy turn that follows an Attack: when every enemy adjacent to the
    hero is flagged, no enemy attacks, every flag is cleared, and a flagged
    enemy changes in nothing else. *)
Lemma sweep_after_attack k i g r :
  Base g → length (enemies g) = (i + k)%nat →
  (∀ j e, (j < i)%nat → enemies g !! j = Some e → Enemy._justRetaliated e = false) →
  (∀ j e, (i ≤ j)%nat → enemies g !! j = Some e →
          adjacent e (hero g) = true → Enemy._justRetaliated e = true) →
  ∃ g' r', updateEnemies_loop (seq i k) g r = Ok tt g' r' ∧
    Base g' ∧ flags_clear g' ∧ g' = set_enemies (enemies g') g ∧
    length (enemies g') = length (enemies g) ∧
    (∀ j, (j < i)%nat → enemies g' !! j = enemies g !! j) ∧
    (∀ j e, (i ≤ j)%nat → enemies g !! j = Some e →
            Enemy._justRetaliated e = true →
            enemies g' !! j = Some (Enemy.set_justRetaliated false e)).
Proof.
  revert i g r. induction k as [|k IH]; intros i g r HB Hlen Hlow Hhigh.
  { exists g, r. split_and!; try done.
    - apply Forall_lookup. intros j e He. apply (Hlow j e); [|done].
      apply lookup_lt_Some in He. lia.
    - by destruct g.
    - intros j e Hj He. apply lookup_lt_Some in He. lia. }
  destruct (lookup_lt_is_Some_2 (enemies g) i) as [e He]; [lia|].
  destruct (enemyTurn_turned i e g r (base_grid _ HB) He) as (f & g1 & r1 & Heq & Ht & _).
  cbn [seq updateEnemies_loop]. unfold bind. rewrite Heq.
  pose proof (turned_Base i e g f g1 HB He Ht) as HB1.
  destruct (turned_enemies i e g f g1 He Ht) as (Hlen1 & Hother & e' & He' & Hflag' & Hskip).
  assert (Hframe : f = Next ∧ g1 = set_enemies (enemies g1) g).
  { destruct Ht as [Hflag|Hflag Hadj Hsurv|Hflag Hadj Hdead|Hflag Hadj
                    |mv Hflag Hadj Hmv nx ny Hin Hempty Hnh Hfree].
    - done.
    - rewrite (Hhigh i e) in Hflag; done.
    - rewrite (Hhigh i e) in Hflag; done.
    - split; [done|]. by destruct g.
    - done. }
  destruct Hframe as [-> Hframe].
  assert (Hhero1 : hero g1 = hero g) by (by rewrite Hframe).
  destruct (IH (S i) g1 r1) as (g' & r' & Hloop & HB' & Hfl' & Hframe' & Hlen' & Hlow' & Hhigh').
  - done.
  - lia.
  - intros j a Hj Ha. destruct (decide (j = i)) as [->|Hne]; [congruence|].
    rewrite Hother in Ha by done. apply (Hlow j a); [lia|done].
  - intros j a Hj Ha. rewrite Hhero1. rewrite Hother in Ha by lia.
    apply (Hhigh j a); [lia|done].
  - exists g', r'. split_and!; try done.
    + rewrite Hframe' at 1. rewrite Hframe. done.
    + lia.
    + intros j Hj. rewrite Hlow' by lia. apply Hother. lia.
    + intros j a Hj Ha Hflag. destruct (decide (j = i)) as [->|Hne].
      * assert (a = e) as -> by congruence.
        rewrite Hlow' by lia. rewrite He'. f_equal. by apply Hskip.
      * apply Hhigh'; [lia| |done]. rewrite Hother by done. done.
Qed.

(** ** The state after the Attack phase *)

Lemma adjacent_neighbours e h :
  adjacent e h = true ↔ enemy_pos e ∈ neighbours h.
Proof.
  unfold adjacent, neighbours, enemy_pos. cbv zeta.
  rewrite orb_true_iff, !andb_true_iff, !bool_decide_eq_true.
  rewrite !elem_of_cons, elem_of_nil. split.
  - intros [[Hx Hy]|[Hx Hy]].
    + destruct (decide (Enemy.x e - Hero.x h < 0)).
      * left. f_equal; lia.
      * right; left. f_equal; lia.
    + destruct (decide (Enemy.y e - Hero.y h < 0)).
      * right; right; left. f_equal; lia.
      * right; right; right; left. f_equal; lia.
  - intros [H|[H|[H|[H|[]]]]]; injection H as Hx Hy; lia.
Qed.

Lemma strike_ok atk ps e e' :
  strike atk ps e = Some e' → enemy_ok e → enemy_ok e'.
Proof.
  unfold strike. repeat case_bool_decide; intros [= <-]; done.
Qed.

Lemma kills_length atk ps (es : list Enemy.t) :
  kills atk ps es + Z.of_nat (length (omap (strike atk ps) es))
  = Z.of_nat (length es).
Proof.
  induction es as [|e es IH]; [done|].
  unfold kills in *. rewrite omap_cons. cbn [foldr length].
  unfold falls at 1, strike at 1.
  destruct (bool_decide (enemy_pos e ∈ ps)); cbn [andb];
    [destruct (bool_decide (Enemy.hp e - atk > 0)); cbn [andb negb]|];
    cbn [length]; lia.
Qed.

Lemma retaliation_bounds atk ps (es : list Enemy.t) :
  Forall enemy_ok es →
  0 ≤ retaliation atk ps es ∧
  (omap (strike atk ps) es = [] → retaliation atk ps es = 0).
Proof.
  induction 1 as [|e es [_ Hatk] _ [IH0 IHnil]]; [done|].
  unfold retaliation in *. rewrite omap_cons. cbn [foldr].
  unfold strikes_back at 1 3, strike at 1. unfold ENEMY_ATTACK in Hatk.
  destruct (bool_decide (enemy_pos e ∈ ps)); cbn [andb];
    [destruct (bool_decide (Enemy.hp e - atk > 0)); cbn [andb]|].
  - split; [lia|done].
  - split; [lia|]. intros Hnil. rewrite IHnil by done. done.
  - split; [lia|done].
Qed.

Lemma struckGame_Base g :
  Base g → _gameOver g = false →
  let g1 := struckGame (neighbours (hero g)) g in
  Forall enemy_ok (enemies g1) ∧ NoDup (enemy_pos <$> enemies g1) ∧
  killed g1 + Z.of_nat (length (enemies g1)) = ENEMY_COUNT ∧
  Hero.hp (hero g1) ≤ Hero.maxHp (hero g1) ∧
  (enemies g1 = [] → 0 < Hero.hp (hero g1)) ∧
  (∀ e, e ∈ enemies g1 → adjacent e (hero g1) = true →
        Enemy._justRetaliated e = true).
Proof.
  intros [Hgrid Hhero Hen Hnd Hk Hhp Halive Hlost Hwon] Hplay.
  destruct (Halive Hplay) as [Hpos Hwin].
  destruct (retaliation_bounds (Hero.attack (hero g)) (neighbours (hero g)) _ Hen)
    as [Hret0 Hretnil].
  pose proof (kills_length (Hero.attack (hero g)) (neighbours (hero g)) (enemies g)) as Hkl.
  cbv zeta. unfold struckGame. cbn [enemies hero killed Hero.hp Hero.maxHp Hero.set_hp].
  split_and!.
  - apply Forall_forall. intros e' (e & Hin & He)%list_elem_of_omap.
    eapply strike_ok; [done|]. rewrite Forall_forall in Hen. by apply Hen.
  - by apply omap_strike_NoDup.
  - lia.
  - lia.
  - intros Hnil. rewrite Hretnil by done. lia.
  - intros e' (e & Hin & He)%list_elem_of_omap Hadj.
    apply adjacent_neighbours in Hadj. cbn [neighbours Hero.x Hero.y] in Hadj.
    fold (neighbours (hero g)) in Hadj.
    rewrite (strike_pos _ _ _ _ He) in Hadj.
    unfold strike in He. rewrite (bool_decide_eq_true_2 _ Hadj) in He.
    case_bool_decide; [by injection He as <- | done].
Qed.

Lemma attack_spec_Base g :
  Base g → _gameOver g = false →
  Base (attack_spec g) ∧
  (∀ e, e ∈ enemies (attack_spec g) → adjacent e (hero (attack_spec g)) = true →
        Enemy._justRetaliated e = true).
Proof.
  intros HB Hplay.
  destruct (struckGame_Base g HB Hplay) as (Hen1 & Hnd1 & Hk1 & Hhp1 & Hnil1 & Hadj1).
  destruct HB as [Hgrid Hhero Hen Hnd Hk Hhp Halive Hlost Hwon].
  destruct (Halive Hplay) as [Hpos Hwin].
  unfold attack_spec. cbv zeta.
  set (g1 := struckGame (neighbours (hero g)) g) in *.
  assert (Hmap : map g1 = map g) by done.
  assert (Hx : Hero.x (hero g1) = Hero.x (hero g)) by done.
  assert (Hy : Hero.y (hero g1) = Hero.y (hero g)) by done.
  assert (Hmax : Hero.maxHp (hero g1) = Hero.maxHp (hero g)) by done.
  assert (Hov : _gameOver g1 = _gameOver g) by done.
  assert (Hw : _win g1 = _win g) by done.
  clearbody g1.
  destruct (bool_decide (enemies g1 = []) || bool_decide (killed g1 >= ENEMY_COUNT))
    eqn:Hwoncheck.
  - assert (Hnil : enemies g1 = []).
    { apply orb_true_iff in Hwoncheck as [H|H]; apply bool_decide_eq_true in H;
        [done|]. destruct (enemies g1); [done|]. simpl in Hk1. lia. }
    specialize (Hnil1 Hnil). split; [|done].
    split; simpl; rewrite ?Hmap, ?Hx, ?Hy; try done; lia.
  - clear Hwoncheck.
    destruct (bool_decide (Hero.hp (hero g1) <= 0)) eqn:Hdead;
      [apply bool_decide_eq_true in Hdead | apply bool_decide_eq_false in Hdead].
    + split.
      * split; simpl; rewrite ?Hmap, ?Hx, ?Hy, ?Hmax; try done; lia.
      * intros e He. apply Hadj1. exact He.
    + split; [|done].
      split; simpl; rewrite ?Hmap, ?Hx, ?Hy, ?Hov, ?Hw, ?Hwin, ?Hplay;
        try done; lia.
Qed.

(** ** Every key event keeps the invariant *)

(** The test [e.key in keyMap] and the four ways through [handleInput]. *)
Lemma inherited_not_own key : key ∈ objectPrototype → keyMap !! key = None.
Proof.
  unfold objectPrototype. rewrite !elem_of_cons, elem_of_nil. intros H.
  repeat (destruct H as [->|H]; [vm_compute; reflexivity|]). done.
Qed.

Lemma space_not_inherited : " "%string ∉ objectPrototype.
Proof.
  unfold objectPrototype. rewrite !elem_of_cons, elem_of_nil. intros H.
  repeat (destruct H as [H|H]; [discriminate H|]). done.
Qed.

Lemma inKeyMap_own key d : keyMap !! key = Some d → inKeyMap key = true.
Proof.
  intros Hk. unfold inKeyMap.
  rewrite (bool_decide_eq_true_2 (is_Some (keyMap !! key))); [done|by exists d].
Qed.

Lemma inKeyMap_inherited key : key ∈ objectPrototype → inKeyMap key = true.
Proof.
  intros Hk. unfold inKeyMap.
  rewrite (bool_decide_eq_true_2 (key ∈ objectPrototype)) by done.
  apply orb_true_r.
Qed.

Lemma inKeyMap_neither key :
  keyMap !! key = None → key ∉ objectPrototype → inKeyMap key = false.
Proof.
  intros Hk Hn. unfold inKeyMap.
  rewrite (bool_decide_eq_false_2 (key ∈ objectPrototype)) by done.
  rewrite bool_decide_eq_false_2; [done|]. rewrite Hk. by intros [d Hd].
Qed.

Lemma handleInput_own key dx dy g r :
  _gameOver g = false → keyMap !! key = Some (dx, dy) →
  handleInput key g r = (attemptMove dx dy ;;; updateEnemies) g r.
Proof.
  intros Hplay Hk. unfold handleInput, bind at 1, get.
  by rewrite Hplay, (inKeyMap_own key (dx, dy) Hk), Hk.
Qed.

Lemma handleInput_inherited key g r :
  _gameOver g = false → key ∈ objectPrototype → handleInput key g r = Throw g r.
Proof.
  intros Hplay Hk. unfold handleInput, bind at 1, get.
  by rewrite Hplay, (inKeyMap_inherited key Hk), (inherited_not_own key Hk).
Qed.

Lemma handleInput_space g r :
  _gameOver g = false →
  handleInput " " g r = (heroAttack ;;; updateEnemies) g r.
Proof.
  intros Hplay. unfold handleInput, bind at 1, get. rewrite Hplay.
  rewrite inKeyMap_neither;
    [|vm_compute; reflexivity|apply space_not_inherited].
  by rewrite bool_decide_eq_true_2.
Qed.

Lemma handleInput_other key g r :
  keyMap !! key = None → key ∉ objectPrototype → key ≠ " "%string →
  handleInput key g r = Ok tt g r.
Proof.
  intros Hk Hn Hsp. unfold handleInput, bind at 1, get.
  destruct (_gameOver g); [done|].
  rewrite inKeyMap_neither by done. by rewrite bool_decide_eq_false_2.
Qed.

(** The outcomes of a key event, by the way taken through [handleInput]. *)
Lemma handled_intro (Q : Game → Prop) key g r :
  (_gameOver g = true → Q g) →
  (_gameOver g = false → ∀ dx dy, keyMap !! key = Some (dx, dy) →
     ∃ g' r', (attemptMove dx dy ;;; updateEnemies) g r = Ok tt g' r' ∧ Q g') →
  (_gameOver g = false → key = " "%string →
     ∃ g' r', (heroAttack ;;; updateEnemies) g r = Ok tt g' r' ∧ Q g') →
  (_gameOver g = false → keyMap !! key = None → key ≠ " "%string → Q g) →
  handled key g r Q.
Proof.
  intros Hover Hmove Hattack Hother. unfold handled.
  destruct (_gameOver g) eqn:Hplay.
  { unfold handleInput, bind, get. rewrite Hplay. split; [by right|by apply Hover]. }
  destruct (decide (key ∈ objectPrototype)) as [Hin|Hin].
  { by rewrite handleInput_inherited. }
  destruct (keyMap !! key) as [[dx dy]|] eqn:Hk.
  - rewrite (handleInput_own key dx dy) by done.
    destruct (Hmove eq_refl dx dy eq_refl) as (g' & r' & -> & HQ).
    split; [by left|done].
  - destruct (decide (key = " "%string)) as [->|Hsp].
    + rewrite handleInput_space by done.
      destruct (Hattack eq_refl eq_refl) as (g' & r' & -> & HQ).
      split; [by left|done].
    + rewrite handleInput_other by done. split; [by left|by apply Hother].
Qed.


Lemma handled_step (Q : Game → Prop) key g r g' r' :
  handled key g r Q → handleInput key g r = Ok tt g' r' → Q g'.
Proof. unfold handled. intros H Heq. rewrite Heq in H. apply H. Qed.

Lemma handled_throw (Q : Game → Prop) key g r g' r' :
  handled key g r Q → handleInput key g r = Throw g' r' →
  key ∈ objectPrototype ∧ _gameOver g = false ∧ g' = g ∧ r' = r.
Proof. unfold handled. intros H Heq. by rewrite Heq in H. Qed.

Lemma handled_mono (P Q : Game → Prop) key g r :
  (∀ g', P g' → Q g') → handled key g r P → handled key g r Q.
Proof.
  unfold handled. intros HPQ H.
  destruct (handleInput key g r) as [[] g' r'|g' r'|]; [|done..].
  split; [apply H|]. apply HPQ, H.
Qed.

Lemma handleInput_Inv key g r : Inv g → handled key g r Inv.
Proof.
  intros HI. apply handled_intro; [done| | |done].
  - intros Hplay dx dy _.
    destruct (attemptMove_Inv dx dy g r HI Hplay) as (g1 & Heq & HI1 & _).
    unfold bind at 1. rewrite Heq. unfold updateEnemies, bind, get.
    apply sweep_Inv; [done|]. intros i Hi%elem_of_seq. lia.
  - intros Hplay _. destruct HI as [HB Hfl].
    unfold bind at 1. rewrite heroAttack_eq by apply HB.
    destruct (attack_spec_Base g HB Hplay) as [HB1 Hadj1].
    unfold updateEnemies, bind, get.
    destruct (sweep_after_attack (length (enemies (attack_spec g))) 0
                (attack_spec g) r HB1)
      as (g' & r' & Heq & HB' & Hfl' & _); [done|intros; lia| |].
    + intros j e _ He. apply Hadj1. by eapply list_elem_of_lookup_2.
    + by exists g', r'.
Qed.

Theorem reachable_Inv g : reachable g → Inv g.
Proof.
  induction 1 as [g0 r0 fuel g r Hinit|g key r0 g' r _ IH Hstep|g key r0 g' r _ IH Hstep].
  - pose proof (init_post fuel g0 r0) as Hpost. rewrite Hinit in Hpost. apply Hpost.
  - exact (handled_step Inv key g r0 g' r (handleInput_Inv key g r0 IH) Hstep).
  - by destruct (handled_throw Inv key g r0 g' r (handleInput_Inv key g r0 IH) Hstep)
      as (_ & _ & -> & _).
Qed.

(** ** The concrete game *)

Lemma returns_eq (res : Res unit) :
  returns res = true → res = Ok tt (state_of res) (rng_after res).
Proof. by destruct res as [ [] g r | | ]. Qed.

Lemma demo_start_init :
  init 10 blank (rng_of demo_draws)
  = Ok tt demo_start (rng_after (init 10 blank (rng_of demo_draws))).
Proof. apply returns_eq. vm_compute. reflexivity. Qed.

Lemma demo_start_reachable : reachable demo_start.
Proof. eapply reach_init, demo_start_init. Qed.

Lemma demo_cornered_reachable : reachable demo_cornered.
Proof.
  eapply reach_step; [eapply reach_step; [apply demo_start_reachable|]|];
    apply returns_eq; vm_compute; reflexivity.
Qed.

(** ** The model on small scenes *)

(** The hero (attack 5) strikes the only enemy (hp 5, attack 2) next to it:
    the enemy is removed without retaliating, and the game is Won. *)
Example attack_kills_last_enemy :
  let g := state_of (heroAttack (scene (Hero.mk 1 1 10 10 5)
                                       [Enemy.mk 1 2 5 5 2 false]) quiet) in
  enemies g = [] ∧ killed g = 1 ∧ Hero.hp (hero g) = 10 ∧ phase g = Won.
Proof. vm_compute. done. Qed.

(** The hero (9 of 10 hp) steps west onto the potion at (11,20): it heals to
    10, not 11, and the tile becomes Empty. *)
Example potion_heals_up_to_maxHp :
  let g0 := scene (Hero.mk 12 20 9 10 1) [] in
  let g := state_of (attemptMove (-1) 0 g0 quiet) in
  tileAt (map g0) 11 20 = Some TILE_POTION ∧
  hero g = Hero.mk 11 20 10 10 1 ∧ potionsCarried g = 1 ∧
  tileAt (map g) 11 20 = Some TILE_EMPTY.
Proof. vm_compute. done. Qed.

(** The hero steps west onto the sword at (1,20): its attack grows by
    [SWORD_COUNT]. *)
Example sword_raises_attack :
  let g0 := scene (Hero.mk 2 20 9 10 1) [] in
  let g := state_of (attemptMove (-1) 0 g0 quiet) in
  tileAt (map g0) 1 20 = Some TILE_SWORD ∧
  hero g = Hero.mk 1 20 9 10 2 ∧ tileAt (map g) 1 20 = Some TILE_EMPTY.
Proof. vm_compute. done. Qed.

(** The hero steps west off the grid on the corridor of row 20 and re-enters
    on the east edge. *)
Example move_wraps_around :
  hero (state_of (attemptMove (-1) 0 (scene (Hero.mk 0 20 9 10 1) []) quiet))
  = Hero.mk 39 20 9 10 1.
Proof. vm_compute. done. Qed.

(** ** Auxiliary facts for the claims *)

(** A game starts with no kill and [ENEMY_COUNT] enemies. *)
Lemma init_fresh fuel g0 r0 g r : init fuel g0 r0 = Ok tt g r → fresh g.
Proof.
  intros Hinit. pose proof (init_post fuel g0 r0) as Hpost.
  rewrite Hinit in Hpost. apply Hpost.
Qed.

Lemma grid_full_wf m : grid_full m = true → grid_wf m.
Proof.
  intros H%bool_decide_eq_true x y [Hx Hy].
  rewrite Forall_forall in H. specialize (H y). rewrite Forall_forall in H.
  apply H; apply elem_of_seqZ; lia.
Qed.

Lemma find_skip {A} (p : A → bool) (l1 l2 : list A) (a : A) :
  p a = false → find p (l1 ++ a :: l2) = find p (l1 ++ l2).
Proof.
  intros Ha. induction l1 as [|b l1 IH]; simpl; [by rewrite Ha|].
  by destruct (p b).
Qed.

Lemma contactDamage_skip h (l1 l2 : list Enemy.t) e ds :
  (∀ d, d ∈ ds → Enemy.at_pos (Hero.x h + d.1) (Hero.y h + d.2) e = false) →
  contactDamage h (l1 ++ e :: l2) ds = contactDamage h (l1 ++ l2) ds.
Proof.
  induction ds as [|d ds IH]; intros Hfree; [done|].
  unfold contactDamage in *. cbn [foldr]. rewrite IH.
  - unfold contact. cbn [fst snd]. rewrite find_skip; [done|]. apply Hfree. by left.
  - intros d' Hd'. apply Hfree. by right.
Qed.

Lemma across_edge_not_neighbour h e :
  across_edge h e → enemy_pos e ∉ neighbours h.
Proof.
  unfold across_edge, neighbours, enemy_pos, MAP_WIDTH, MAP_HEIGHT.
  rewrite !elem_of_cons, elem_of_nil.
  intros Hedge Hin.
  destruct Hin as [H|[H|[H|[H|[]]]]]; injection H as Hx Hy; lia.
Qed.

(** Once [_gameOver] is set, a key event changes nothing: the part of the
    terminal-stability property that concerns later key events. *)
Lemma handleInput_terminal key g r :
  _gameOver g = true → handleInput key g r = Ok tt g r.
Proof. intros Hover. unfold handleInput, bind, get. by rewrite Hover. Qed.

(** * The claims *)

(** C1.  When [init] returns, the grid holds exactly 2 Sword tiles and exactly
    10 Potion tiles: the two loops of [placeItems] run to the literals 2 and
    10, not to [SWORD_COUNT] = 1 and [POTION_COUNT] = 2. *)
Theorem init_places_two_swords_ten_potions fuel g0 r0 g r :
  init fuel g0 r0 = Ok tt g r →
  countTiles (map g) TILE_SWORD = 2%nat ∧
  countTiles (map g) TILE_POTION = 10%nat.
Proof.
  intros Hinit. pose proof (init_post fuel g0 r0) as Hpost.
  rewrite Hinit in Hpost. apply Hpost.
Qed.

Lemma init_places_two_swords_ten_potions_demo :
  countTiles (map demo_start) TILE_SWORD = 2%nat ∧
  countTiles (map demo_start) TILE_POTION = 10%nat ∧
  SWORD_COUNT = 1 ∧ POTION_COUNT = 2.
Proof.
  split_and!; [| |reflexivity..];
    apply (init_places_two_swords_ten_potions 10 blank (rng_of demo_draws)
             demo_start (rng_after (init 10 blank (rng_of demo_draws))));
    apply returns_eq; vm_compute; reflexivity.
Defined.

(** C2.  The enemy turn runs after the phase has become Lost within the same
    key event, and moves an enemy.  In the reachable state [demo_cornered]
    (hero at (6,5) with 1 hp) the key ["a"] moves the hero to (5,5), next to
    the enemy at (5,4): [attemptMove] ends in phase Lost with the first enemy
    at (30,0); [handleInput] then still runs [updateEnemies], which moves
    that enemy to (30,1). *)
Theorem enemy_turn_runs_after_Lost :
  let g1 := state_of (attemptMove (-1) 0 demo_cornered south_first) in
  let g2 := state_of (handleInput "a" demo_cornered south_first) in
  reachable demo_cornered ∧ phase demo_cornered = Playing ∧
  keyMap !! "a"%string = Some (-1, 0) ∧
  attemptMove (-1) 0 demo_cornered south_first = Ok tt g1 south_first ∧
  phase g1 = Lost ∧
  handleInput "a" demo_cornered south_first = updateEnemies g1 south_first ∧
  returns (handleInput "a" demo_cornered south_first) = true ∧
  phase g2 = Lost ∧
  enemy_pos <$> enemies g1
    = [(30, 0); (7, 5); (6, 4); (6, 6); (5, 4);
       (30, 2); (30, 4); (30, 6); (30, 8); (30, 10)] ∧
  enemy_pos <$> enemies g2
    = [(30, 1); (7, 5); (6, 4); (6, 6); (5, 4);
       (30, 2); (30, 4); (30, 6); (30, 8); (30, 10)] ∧
  enemies g2 ≠ enemies g1.
Proof.
  cbv zeta. split; [apply demo_cornered_reachable|].
  assert (Hmove : attemptMove (-1) 0 demo_cornered south_first
                  = Ok tt (state_of (attemptMove (-1) 0 demo_cornered south_first))
                       south_first)
    by (apply returns_eq; vm_compute; reflexivity).
  assert (Hkey : handleInput "a" demo_cornered south_first
                 = updateEnemies
                     (state_of (attemptMove (-1) 0 demo_cornered south_first))
                     south_first).
  { rewrite (handleInput_own "a" (-1) 0) by (vm_compute; reflexivity).
    unfold bind. by rewrite Hmove. }
  split; [vm_compute; reflexivity|]. split; [vm_compute; reflexivity|].
  split; [exact Hmove|]. split; [vm_compute; reflexivity|].
  split; [exact Hkey|]. split; [vm_compute; reflexivity|].
  split; [vm_compute; reflexivity|]. split; [vm_compute; reflexivity|].
  split; [vm_compute; reflexivity|].
  intros Heq. apply (f_equal (fmap enemy_pos)) in Heq.
  vm_compute in Heq. discriminate.
Qed.





(** C5.  From a reachable state in phase Playing, for an Attack (the key
    [" "]): [heroAttack] returns the state [g1] of the specification's
    Attack, in which every enemy that retaliated (it stood on a neighbour of
    the hero and survived the blow) is present with its flag set, and every
    flagged enemy is such a retaliator; the enemy turn that follows returns
    a state [g2] in which the hero is exactly as in [g1] (no enemy has
    attacked), and every enemy flagged in [g1] is at the same index the same
    enemy with the flag cleared (same position, same hp: its whole turn was
    skipped). *)
Theorem retaliation_no_double_attack g r :
  reachable g → _gameOver g = false →
  let atk := Hero.attack (hero g) in
  let g1 := attack_spec g in
  heroAttack g r = Ok tt g1 r ∧
  (∀ e, e ∈ enemies g → enemy_pos e ∈ neighbours (hero g) →
        Enemy.hp e - atk > 0 → retaliated atk e ∈ enemies g1) ∧
  (∀ e1, e1 ∈ enemies g1 → Enemy._justRetaliated e1 = true →
         ∃ e, e ∈ enemies g ∧ enemy_pos e ∈ neighbours (hero g) ∧
              Enemy.hp e - atk > 0 ∧ e1 = retaliated atk e) ∧
  ∃ g2 r2,
    updateEnemies g1 r = Ok tt g2 r2 ∧
    handleInput " " g r = Ok tt g2 r2 ∧
    hero g2 = hero g1 ∧
    length (enemies g2) = length (enemies g1) ∧
    (∀ j e1, enemies g1 !! j = Some e1 → Enemy._justRetaliated e1 = true →
             enemies g2 !! j = Some (Enemy.set_justRetaliated false e1)).
Proof.
  intros [HB Hfl]%reachable_Inv Hplay. cbv zeta.
  pose proof (heroAttack_eq g r (base_nodup _ HB)) as Hattack.
  destruct (attack_spec_Base g HB Hplay) as [HB1 Hadj1].
  assert (Hes1 : enemies (attack_spec g)
                 = omap (strike (Hero.attack (hero g)) (neighbours (hero g)))
                        (enemies g)).
  { unfold attack_spec. cbv zeta.
    destruct (_ || _); [done|]. by destruct (bool_decide _). }
  split; [done|]. split; [|split].
  - intros e He Hpos Hhp. rewrite Hes1. apply list_elem_of_omap.
    exists e. split; [done|]. unfold strike.
    by rewrite (bool_decide_eq_true_2 _ Hpos), (bool_decide_eq_true_2 _ Hhp).
  - intros e1 He1 Hflag. rewrite Hes1 in He1.
    apply list_elem_of_omap in He1 as (e & He & Hstrike).
    unfold flags_clear in Hfl. rewrite Forall_forall in Hfl.
    specialize (Hfl e He). unfold strike in Hstrike.
    case_bool_decide as Hpos; [case_bool_decide as Hhp|].
    + injection Hstrike as <-. by exists e.
    + done.
    + injection Hstrike as <-. congruence.
  - destruct (sweep_after_attack (length (enemies (attack_spec g))) 0
                (attack_spec g) r HB1)
      as (g2 & r2 & Heq & HB2 & Hfl2 & Hframe & Hlen & _ & Hskip);
      [done|intros; lia| |].
    { intros j e _ He. apply Hadj1. by eapply list_elem_of_lookup_2. }
    exists g2, r2. split_and!.
    + done.
    + rewrite handleInput_space by done. unfold bind. by rewrite Hattack.
    + by rewrite Hframe.
    + done.
    + intros j e1 He1 Hflag. apply Hskip; [lia|done..].
Qed.

Lemma retaliation_no_double_attack_demo :
  let atk := Hero.attack (hero demo_start) in
  let g1 := attack_spec demo_start in
  heroAttack demo_start quiet = Ok tt g1 quiet ∧
  (∀ e, e ∈ enemies demo_start → enemy_pos e ∈ neighbours (hero demo_start) →
        Enemy.hp e - atk > 0 → retaliated atk e ∈ enemies g1) ∧
  (∀ e1, e1 ∈ enemies g1 → Enemy._justRetaliated e1 = true →
         ∃ e, e ∈ enemies demo_start ∧ enemy_pos e ∈ neighbours (hero demo_start) ∧
              Enemy.hp e - atk > 0 ∧ e1 = retaliated atk e) ∧
  ∃ g2 r2,
    updateEnemies g1 quiet = Ok tt g2 r2 ∧
    handleInput " " demo_start quiet = Ok tt g2 r2 ∧
    hero g2 = hero g1 ∧
    length (enemies g2) = length (enemies g1) ∧
    (∀ j e1, enemies g1 !! j = Some e1 → Enemy._justRetaliated e1 = true →
             enemies g2 !! j = Some (Enemy.set_justRetaliated false e1)).
Proof.
  apply (retaliation_no_double_attack demo_start quiet).
  - apply (reach_init blank (rng_of demo_draws) 10 _
             (rng_after (init 10 blank (rng_of demo_draws)))).
    apply returns_eq; vm_compute; reflexivity.
  - vm_compute; reflexivity.
Defined.

(** C7.  In any state where no two enemies share a cell (which holds of every
    reachable state, lemma [reachable_Inv]), [heroAttack] returns normally
    without consuming randomness, and its result is the Attack of the
    specification: every enemy on one of the four orthogonal neighbours of
    the hero loses exactly [hero.attack] hp; one that stays above 0 remains
    in the list, flagged, and the hero loses its [attack] once; one that
    drops to 0 or below is removed, [killed] grows by one and the hero loses
    nothing for it; all four neighbours are treated; then Won is decided
    (no enemy left, or [killed >= ENEMY_COUNT]) before Lost ([hero.hp <= 0],
    with hp reset to 0). *)
Theorem heroAttack_refines_spec g r :
  NoDup (enemy_pos <$> enemies g) →
  heroAttack g r = Ok tt (attack_spec g) r.
Proof. apply heroAttack_eq. Qed.

Lemma heroAttack_refines_spec_demo :
  heroAttack demo_start quiet = Ok tt (attack_spec demo_start) quiet ∧
  Hero.hp (hero (attack_spec demo_start)) = 9 ∧
  Enemy.hp <$> enemies (attack_spec demo_start) = [5; 5; 5; 5; 4; 5; 5; 5; 5; 5].
Proof.
  split; [|vm_compute; done].
  apply (heroAttack_refines_spec demo_start quiet).
  apply (bool_decide_unpack _). vm_compute. exact I.
Defined.

(** C8.  On a well-formed grid, a Move whose wrapped candidate cell holds a
    Wall, or on which an enemy stands, returns normally and leaves the whole
    game state (hero, grid, enemies, counters, flags) and the oracle exactly
    as they were. *)
Theorem blocked_move_changes_nothing dx dy g r :
  grid_wf (map g) →
  let nx := wrap MAP_WIDTH (Hero.x (hero g) + dx) in
  let ny := wrap MAP_HEIGHT (Hero.y (hero g) + dy) in
  tileAt (map g) nx ny = Some TILE_WALL ∨ (nx, ny) ∈ (enemy_pos <$> enemies g) →
  attemptMove dx dy g r = Ok tt g r.
Proof.
  intros Hwf nx ny Hblocked. unfold attemptMove, bind at 1, get.
  fold nx ny. unfold bind at 1.
  rewrite readTile_eq by (apply grid_wf_row; [done | by apply wrap_range]).
  case_bool_decide as Hwall; [done|].
  destruct (existsb (Enemy.at_pos nx ny) (enemies g)) eqn:Hex; [done|].
  apply existsb_at_pos_false in Hex. by destruct Hblocked.
Qed.

Lemma blocked_move_changes_nothing_demo :
  attemptMove 1 0 demo_east quiet = Ok tt demo_east quiet ∧
  attemptMove (-1) 0 demo_start quiet = Ok tt demo_start quiet.
Proof.
  split.
  - apply (blocked_move_changes_nothing 1 0 demo_east quiet).
    + apply grid_full_wf. vm_compute. reflexivity.
    + right. apply (bool_decide_unpack _). vm_compute. exact I.
  - apply (blocked_move_changes_nothing (-1) 0 demo_start quiet).
    + apply grid_full_wf. vm_compute. reflexivity.
    + left. vm_compute. reflexivity.
Defined.

(** C10.  Whatever the random draws, room generation ([generateMap] followed
    by [placeRooms]) returns normally; every room it records has its size in
    [[ROOM_MIN, ROOM_MAX]] and spans columns within [[1, MAP_WIDTH - 2]] and
    rows within [[1, MAP_HEIGHT - 2]]; every cell it has turned to Empty
    satisfies [1 <= x <= MAP_WIDTH - 2] and [1 <= y <= MAP_HEIGHT - 2]; and
    every cell of the border of the grid is still a Wall. *)
Theorem placeRooms_wall_margin g r :
  ∃ g' r',
    (generateMap ;;; placeRooms) g r = Ok tt g' r' ∧
    Forall room_inside (rooms g') ∧
    (∀ x y, tileAt (map g') x y = Some TILE_EMPTY → interior x y) ∧
    (∀ x y, in_grid x y → ¬ interior x y →
            tileAt (map g') x y = Some TILE_WALL).
Proof.
  destruct (post_Ok _ _ _ (placeRooms_post g r)) as ([] & g' & r' & Heq & Hc);
    [tauto|].
  destruct Hc as (Hwf & Hrooms & Hempty & Hkinds).
  exists g', r'. split_and!; [done..|].
  intros x y Hin Hout. destruct (Hwf x y Hin) as [t Ht].
  destruct (Hkinds x y t Ht) as [-> | ->]; [done|].
  destruct Hout. by apply Hempty.
Qed.

(** * Further properties of the code *)

(** ** Random integers and wrap-around *)

Lemma floor_scale_reversed u n : n ≤ 0 → n ≤ floor_scale u n ≤ 0.
Proof.
  intros Hn. unfold floor_scale. split.
  - apply Z.div_le_lower_bound; [lia|]. nia.
  - apply Z.div_le_upper_bound; [lia|]. nia.
Qed.

Lemma floor_scale_nth_of (n v : nat) :
  (v < n)%nat → floor_scale (nth_of n v) (Z.of_nat n) = Z.of_nat v.
Proof.
  intros Hv. unfold floor_scale, nth_of. cbn [num gap].
  replace (Z.of_nat v + Z.of_nat (n - v - 1) + 1) with (Z.of_nat n) by lia.
  apply Z.div_mul. lia.
Qed.
(** X1.  [randomInt min max] reads exactly one sample of the oracle and
    leaves the game state alone.  Its value lies in [[min, max]] when
    [min <= max], and in [[max + 1, min]] when the bounds are given in the
    wrong order.  Every integer of [[min, max]] is the value under some
    oracle. *)
Theorem randomInt_covers_range lo hi g r :
  (∃ z, randomInt lo hi g r = Ok z g (mkRng (stream r) (S (cursor r))) ∧
        (lo ≤ hi → lo ≤ z ≤ hi) ∧ (hi < lo → hi + 1 ≤ z ≤ lo)) ∧
  (∀ v, lo ≤ v ≤ hi → ∃ r0 r1, randomInt lo hi g r0 = Ok v g r1).
Proof.
  split.
  - eexists. split; [done|]. split; intros H.
    + pose proof (floor_scale_range (stream r (cursor r)) (hi - lo + 1)). lia.
    + pose proof (floor_scale_reversed (stream r (cursor r)) (hi - lo + 1)). lia.
  - intros v Hv.
    exists (rng_of [nth_of (Z.to_nat (hi - lo + 1)) (Z.to_nat (v - lo))]).
    eexists. unfold randomInt, bind, random, ret, rng_of. cbn [stream cursor nth].
    f_equal.
    replace (hi - lo + 1) with (Z.of_nat (Z.to_nat (hi - lo + 1))) at 2 by lia.
    rewrite floor_scale_nth_of by lia. lia.
Qed.

(** X2.  On a grid axis of at least two cells, the wrap-around of
    [attemptMove] and [updateEnemies] is the remainder modulo the size of
    the axis for every coordinate one step off the grid at most; a step
    followed by the opposite step returns to the starting coordinate, also
    across an edge.  Further off the grid it is not a remainder: every
    negative coordinate is sent to the last cell and every coordinate at or
    beyond the size to cell 0. *)
Theorem wrap_is_modular limit :
  2 ≤ limit →
  (∀ n, -1 ≤ n ≤ limit → wrap limit n = n `mod` limit) ∧
  (∀ x d, 0 ≤ x < limit → d = 1 ∨ d = -1 →
          wrap limit (wrap limit (x + d) - d) = x) ∧
  (∀ n, n < 0 → wrap limit n = limit - 1) ∧
  (∀ n, limit ≤ n → wrap limit n = 0).
Proof.
  intros Hl. split_and!.
  - intros n Hn. unfold wrap.
    destruct (decide (n = -1)) as [->|]; [|destruct (decide (n = limit)) as [->|]].
    + rewrite (bool_decide_eq_true_2 (-1 < 0)) by lia.
      rewrite bool_decide_eq_false_2 by lia.
      apply (Z.mod_unique _ _ (-1)); lia.
    + rewrite (bool_decide_eq_false_2 (limit < 0)) by lia.
      rewrite bool_decide_eq_true_2 by lia.
      by rewrite Z.mod_same by lia.
    + rewrite (bool_decide_eq_false_2 (n < 0)) by lia.
      rewrite bool_decide_eq_false_2 by lia. by rewrite Z.mod_small by lia.
  - intros x d Hx Hd.
    assert (Hin : wrap limit (x + d) = x + d ∨
                  (x = limit - 1 ∧ d = 1 ∧ wrap limit (x + d) = 0) ∨
                  (x = 0 ∧ d = -1 ∧ wrap limit (x + d) = limit - 1)).
    { unfold wrap. repeat case_bool_decide; lia. }
    destruct Hin as [-> | [(-> & -> & ->) | (-> & -> & ->)]];
      unfold wrap; repeat case_bool_decide; lia.
  - intros n Hn. unfold wrap. repeat case_bool_decide; lia.
  - intros n Hn. unfold wrap. repeat case_bool_decide; lia.
Qed.

Lemma wrap_is_modular_demo :
  2 ≤ MAP_WIDTH ∧ wrap MAP_WIDTH (wrap MAP_WIDTH (0 + -1) - -1) = 0.
Proof.
  split; [unfold MAP_WIDTH; lia|].
  refine (proj1 (proj2 (wrap_is_modular MAP_WIDTH _)) 0 (-1) _ _);
    [unfold MAP_WIDTH; lia..|by right].
Defined.

(** ** Pickup and move as functions of the state *)

Lemma checkPickup_eq g r :
  is_Some (map g !! Hero.y (hero g)) → checkPickup g r = Ok tt (picked g) r.
Proof.
  intros Hrow. unfold checkPickup, bind at 1, get. unfold bind at 1.
  rewrite readTile_eq by done. unfold picked. cbv zeta.
  destruct (tileAt (map g) (Hero.x (hero g)) (Hero.y (hero g))) as [[]|];
    cbn [bool_decide]; try done.
  - rewrite bool_decide_eq_false_2 by done.
    rewrite bool_decide_eq_true_2 by done.
    unfold bind, modify, get. cbn [hero set_hero Hero.set_attack Hero.x Hero.y].
    by rewrite writeTile_eq by done.
  - rewrite bool_decide_eq_true_2 by done.
    unfold bind, modify, get.
    cbn [hero set_hero set_potionsCarried Hero.set_hp Hero.x Hero.y].
    by rewrite writeTile_eq by done.
Qed.

Lemma existsb_at_pos x y (es : list Enemy.t) :
  existsb (Enemy.at_pos x y) es = bool_decide ((x, y) ∈ enemy_pos <$> es).
Proof.
  destruct (existsb _ es) eqn:H.
  - symmetry. apply bool_decide_eq_true. apply dec_stable. intros Hn.
    apply existsb_at_pos_false in Hn. congruence.
  - symmetry. apply bool_decide_eq_false. by apply existsb_at_pos_false.
Qed.

Lemma attemptMove_eq dx dy g r :
  grid_wf (map g) → attemptMove dx dy g r = Ok tt (moved dx dy g) r.
Proof.
  intros Hwf.
  pose proof (wrap_range MAP_WIDTH (Hero.x (hero g) + dx) eq_refl) as Hnx.
  pose proof (wrap_range MAP_HEIGHT (Hero.y (hero g) + dy) eq_refl) as Hny.
  unfold attemptMove, bind at 1, get. unfold bind at 1.
  rewrite readTile_eq by by apply grid_wf_row.
  unfold moved, target. cbv zeta. cbn [fst snd].
  destruct (bool_decide (tileAt _ _ _ = Some TILE_WALL)); [done|].
  rewrite existsb_at_pos. destruct (bool_decide (_ ∈ _)); [done|].
  unfold bind at 1, modify. unfold bind.
  rewrite checkPickup_eq by by apply grid_wf_row.
  by rewrite adjacentEnemyDamage_eq.
Qed.

(** ** The further invariant *)

Lemma countTiles_setTile_gone m x y t t' :
  is_Some (m !! y) → in_grid x y → tileAt m x y = Some t' → t ≠ t' →
  countTiles m t' = S (countTiles (setTile m x y t) t').
Proof.
  intros Hrow [Hx Hy] Hold Hne. unfold countTiles.
  apply (tally_point _ _ _ y); [apply NoDup_seqZ | apply elem_of_seqZ; lia | |].
  - intros y' _ Hy'. apply tally_ext. intros x' _.
    rewrite tileAt_setTile by done.
    rewrite (bool_decide_eq_false_2 (x' = x ∧ y' = y)); [done | tauto].
  - apply (tally_point _ _ _ x); [apply NoDup_seqZ | apply elem_of_seqZ; lia | |].
    + intros x' _ Hx'. rewrite tileAt_setTile by done.
      rewrite (bool_decide_eq_false_2 (x' = x ∧ y = y)); [done | tauto].
    + rewrite tileAt_setTile by done.
      rewrite (bool_decide_eq_true_2 (x = x ∧ y = y)) by done.
      rewrite (bool_decide_eq_true_2 _ Hold).
      rewrite bool_decide_eq_false_2; [done | congruence].
Qed.

(** The hero's hp and the two flags play no part in [Orderly], as long as an
    enemy is left. *)
Lemma Orderly_hp_flags g v over won :
  Orderly g → enemies g ≠ [] →
  Orderly (set_flags over won (set_hero (Hero.set_hp v (hero g)) g)).
Proof. intros [Hst Hstats Hmax Hatk Hstock Hwon] Hne. by split. Qed.

Lemma Orderly_damaged dmg g : Orderly g → enemies g ≠ [] → Orderly (damaged dmg g).
Proof.
  intros [Hst Hstats Hmax Hatk Hstock Hwon] Hne. unfold damaged, lostGame. cbv zeta.
  destruct (bool_decide _); by split.
Qed.

Lemma picked_Orderly p g :
  Base g → Orderly g → enemies g ≠ [] → in_grid p.1 p.2 →
  tileAt (map g) p.1 p.2 ≠ Some TILE_WALL → p ∉ (enemy_pos <$> enemies g) →
  Orderly (picked (set_hero (Hero.set_pos p.1 p.2 (hero g)) g)).
Proof.
  intros [Hgrid Hhero Hen Hnd Hk Hhp Halive Hlost Hwon]
         [(Hht & Het & Hhe) Hstats Hmax Hatk (Hpc & Hpo & Hsw) Hwin] Hne Hin Hwall Hfree.
  destruct p as [x y]. cbn [fst snd] in *.
  assert (Hrow : is_Some (map g !! y)) by (apply grid_wf_row; [done | apply Hin]).
  destruct (Hgrid x y Hin) as [t Ht].
  assert (Hens : ∀ t0, Forall (λ e, tileAt (setTile (map g) x y t0)
                                      (Enemy.x e) (Enemy.y e) = Some TILE_EMPTY)
                              (enemies g)).
  { intros t0. rewrite Forall_forall in Het |- *. intros e He.
    rewrite tileAt_setTile by done. rewrite bool_decide_eq_false_2; [by apply Het|].
    intros [Hx Hy]. apply Hfree. apply list_elem_of_fmap. exists e.
    split; [|done]. unfold enemy_pos. by rewrite Hx, Hy. }
  unfold picked. cbv zeta. cbn [map hero set_hero Hero.x Hero.y Hero.set_pos].
  rewrite Ht. destruct t; [|done| |].
  - by split.
  - split; [split_and!|..]; simpl; try done.
    + rewrite tileAt_setTile by done. by rewrite bool_decide_eq_true_2.
    + unfold SWORD_COUNT. lia.
    + split_and!; simpl; [done| |].
      * rewrite countTiles_setTile_other; [done..| congruence].
      * rewrite (countTiles_setTile_gone (map g) x y TILE_EMPTY TILE_SWORD) in Hsw
          by done. unfold SWORD_COUNT in *. lia.
  - split; [split_and!|..]; simpl; try done.
    + rewrite tileAt_setTile by done. by rewrite bool_decide_eq_true_2.
    + split_and!; simpl; [lia| |].
      * rewrite (countTiles_setTile_gone (map g) x y TILE_EMPTY TILE_POTION) in Hpo
          by done. lia.
      * rewrite countTiles_setTile_other; [done..| congruence].
Qed.

Lemma entered_Orderly p g :
  Base g → Orderly g → enemies g ≠ [] → in_grid p.1 p.2 →
  tileAt (map g) p.1 p.2 ≠ Some TILE_WALL → p ∉ (enemy_pos <$> enemies g) →
  Orderly (entered p g).
Proof.
  intros HB HE Hne Hin Hwall Hfree. unfold entered. cbv zeta.
  apply Orderly_damaged; [by apply picked_Orderly|].
  unfold picked. cbv zeta. by destruct (tileAt _ _ _) as [[]|].
Qed.

Lemma target_in_grid dx dy g : in_grid (target dx dy g).1 (target dx dy g).2.
Proof.
  split; [apply (wrap_range MAP_WIDTH) | apply (wrap_range MAP_HEIGHT)]; done.
Qed.

Lemma moved_Orderly dx dy g :
  Base g → Orderly g → _gameOver g = false → Orderly (moved dx dy g).
Proof.
  intros HB HE Hplay. unfold moved. cbv zeta.
  case_bool_decide as Hwall; [done|]. case_bool_decide as Hfree; [done|].
  apply entered_Orderly; [done..| |apply target_in_grid|done|done].
  intros Hnil. destruct (base_alive _ HB Hplay) as [_ Hw].
  rewrite (orderly_won _ HE Hnil) in Hw. done.
Qed.

Lemma turned_Orderly i e g f g' :
  Orderly g → enemies g !! i = Some e → turned i e g f g' → Orderly g'.
Proof.
  intros HE He Ht.
  assert (Hne : enemies g ≠ []) by (intros Hnil; by rewrite Hnil in He).
  pose proof HE as [(Hht & Het & Hhe) Hstats Hmax Hatk Hstock Hwin].
  pose proof (Forall_lookup_1 _ _ _ _ Het He) as Htile.
  pose proof (Forall_lookup_1 _ _ _ _ Hstats He) as Hstat.
  assert (Hins : ∀ e', <[i := e']> (enemies g) ≠ []).
  { intros e' Hnil. apply Hne. apply length_zero_iff_nil.
    by rewrite <- (length_insert (enemies g) i e'), Hnil. }
  destruct Ht as [Hflag|Hflag Hadj Hsurv|Hflag Hadj Hdead|Hflag Hadj
                  |mv Hflag Hadj Hmv nx ny Hin Hempty Hnh Hfree].
  - split; [split_and!|..]; simpl; try done.
    + by apply Forall_insert.
    + by rewrite (pos_insert_same _ _ e).
    + by apply Forall_insert.
    + intros Hnil. by destruct (Hins _ Hnil).
  - by split.
  - unfold lostGame. by split.
  - done.
  - split; [split_and!|..]; simpl; try done.
    + by apply Forall_insert.
    + intros (e1 & Hpos & Hin1)%list_elem_of_fmap.
      apply list_elem_of_lookup in Hin1 as [j Hj].
      apply list_lookup_insert_Some in Hj as [(-> & <- & _)|(Hji & Hj)].
      * by apply Hnh.
      * apply Hhe. apply list_elem_of_fmap. exists e1.
        split; [done|]. by eapply list_elem_of_lookup_2.
    + by apply Forall_insert.
    + intros Hnil. by destruct (Hins _ Hnil).
Qed.

Lemma strike_stats atk ps e e' :
  0 ≤ atk → strike atk ps e = Some e' → enemy_stats e → enemy_stats e'.
Proof.
  intros Hatk. unfold strike, enemy_stats.
  repeat case_bool_decide; intros [= <-]; simpl; lia.
Qed.

Lemma attack_spec_Orderly g : Orderly g → Orderly (attack_spec g).
Proof.
  intros [(Hht & Het & Hhe) Hstats Hmax Hatk Hstock Hwin].
  assert (HE1 : ∀ won, (enemies (struckGame (neighbours (hero g)) g) = [] → won = true) →
     ∀ v over, Orderly (set_flags over won
                 (set_hero (Hero.set_hp v (hero (struckGame (neighbours (hero g)) g)))
                           (struckGame (neighbours (hero g)) g)))).
  { intros won Hwon v over. split; [split_and!|..]; simpl; try done.
    - apply Forall_forall. intros e' (e & Hin & He)%list_elem_of_omap.
      pose proof (strike_pos _ _ _ _ He) as [= -> ->].
      rewrite Forall_forall in Het. by apply Het.
    - intros Hin. apply Hhe. eapply elem_of_sublist; [done|apply omap_strike_sublist].
    - apply Forall_forall. intros e' (e & Hin & He)%list_elem_of_omap.
      eapply strike_stats; [|done|]; [unfold HERO_ATTACK in Hatk; lia|].
      rewrite Forall_forall in Hstats. by apply Hstats. }
  unfold attack_spec. cbv zeta.
  set (g1 := struckGame (neighbours (hero g)) g) in *.
  assert (Hsame : ∀ over won,
    set_flags over won (set_hero (Hero.set_hp (Hero.hp (hero g1)) (hero g1)) g1)
    = set_flags over won g1).
  { intros over won. unfold g1, struckGame. done. }
  destruct (bool_decide (enemies g1 = []) || bool_decide (killed g1 >= ENEMY_COUNT))
    eqn:Hcheck.
  - rewrite <- Hsame. by apply HE1.
  - apply orb_false_iff in Hcheck as [Hne%bool_decide_eq_false _].
    destruct (bool_decide (Hero.hp (hero g1) <= 0)).
    + by apply HE1.
    + replace g1 with (set_flags (_gameOver g1) (_win g1)
        (set_hero (Hero.set_hp (Hero.hp (hero g1)) (hero g1)) g1))
        by (unfold g1, struckGame; done).
      by apply HE1.
Qed.

(** The enemy turn keeps whatever every iteration keeps. *)
Lemma sweep_keeps (P : Game → Prop) idxs g r :
  (∀ i e g f g', Base g → P g → enemies g !! i = Some e → turned i e g f g' → P g') →
  Base g → P g → (∀ i, i ∈ idxs → (i < length (enemies g))%nat) →
  ∃ g' r', updateEnemies_loop idxs g r = Ok tt g' r' ∧ Base g' ∧ P g'.
Proof.
  intros Hstep. revert g r. induction idxs as [|i idxs IH]; intros g r HB HP Hidx.
  { by exists g, r. }
  destruct (lookup_lt_is_Some_2 (enemies g) i) as [e He]; [apply Hidx; by left|].
  destruct (enemyTurn_turned i e g r (base_grid _ HB) He) as (f & g1 & r1 & Heq & Ht & _).
  cbn [updateEnemies_loop]. unfold bind. rewrite Heq.
  pose proof (turned_Base i e g f g1 HB He Ht) as HB1.
  pose proof (Hstep i e g f g1 HB HP He Ht) as HP1.
  destruct f; [|by exists g1, r1].
  apply IH; [done..|]. intros j Hj.
  destruct (turned_enemies i e g Next g1 He Ht) as (-> & _). apply Hidx. by right.
Qed.

Lemma updateEnemies_keeps (P : Game → Prop) g r :
  (∀ i e g f g', Base g → P g → enemies g !! i = Some e → turned i e g f g' → P g') →
  Base g → P g →
  ∃ g' r', updateEnemies g r = Ok tt g' r' ∧ Base g' ∧ P g'.
Proof.
  intros Hstep HB HP. unfold updateEnemies, bind, get.
  apply sweep_keeps; [done..|]. intros i Hi%elem_of_seq. lia.
Qed.

(** A key event in the Playing phase: the action, then the enemy turn. *)
Lemma handleInput_playing key g r :
  Base g → _gameOver g = false →
  handleInput key g r =
    match keyMap !! key with
    | Some (dx, dy) => updateEnemies (moved dx dy g) r
    | None => if bool_decide (key ∈ objectPrototype) then Throw g r
              else if bool_decide (key = " "%string)
                   then updateEnemies (attack_spec g) r else Ok tt g r
    end.
Proof.
  intros HB Hplay. destruct (keyMap !! key) as [[dx dy]|] eqn:Hk.
  - rewrite (handleInput_own key dx dy) by done.
    unfold bind. by rewrite attemptMove_eq by apply HB.
  - case_bool_decide as Hin; [by apply handleInput_inherited|].
    case_bool_decide as Hsp.
    + subst key. rewrite handleInput_space by done.
      unfold bind. by rewrite heroAttack_eq by apply HB.
    + by apply handleInput_other.
Qed.

Lemma moved_Base dx dy g : Inv g → _gameOver g = false → Base (moved dx dy g).
Proof.
  intros HI Hplay.
  destruct (attemptMove_Inv dx dy g (mkRng (λ _, mkSample 0 0) 0) HI Hplay)
    as (g' & Heq & [HB' _] & _).
  rewrite attemptMove_eq in Heq by apply HI. by injection Heq as <-.
Qed.

Lemma handleInput_keeps (P : Game → Prop) key g r :
  (∀ i e g f g', Base g → P g → enemies g !! i = Some e → turned i e g f g' → P g') →
  (_gameOver g = false → ∀ dx dy, keyMap !! key = Some (dx, dy) →
                          P (moved dx dy g)) →
  (_gameOver g = false → key = " "%string → P (attack_spec g)) →
  Inv g → P g →
  handled key g r P.
Proof.
  intros Hturn Hmove Hattack HI HP. apply handled_intro; [done| | |done].
  - intros Hplay dx dy Hkey.
    unfold bind. rewrite attemptMove_eq by apply HI.
    destruct (updateEnemies_keeps P (moved dx dy g) r) as (g' & r' & Heq & _ & HP');
      [done|by apply moved_Base|by apply Hmove|]. by exists g', r'.
  - intros Hplay Hsp.
    unfold bind. rewrite heroAttack_eq by apply HI.
    destruct (updateEnemies_keeps P (attack_spec g) r) as (g' & r' & Heq & _ & HP');
      [done|apply attack_spec_Base; [apply HI|done]|by apply Hattack|]. by exists g', r'.
Qed.

(** The enemies that [placeEnemies] adds stand on Empty tiles, off the
    hero's cell. *)
Lemma placeEnemies_loop_standing fuel count g r :
  grid_wf (map g) →
  Forall (λ e, tileAt (map g) (Enemy.x e) (Enemy.y e) = Some TILE_EMPTY ∧
               enemy_pos e ≠ (Hero.x (hero g), Hero.y (hero g))) (enemies g) →
  post True (placeEnemies_loop fuel count g r) (λ _ g' _,
    g' = set_enemies (enemies g') g ∧
    Forall (λ e, tileAt (map g) (Enemy.x e) (Enemy.y e) = Some TILE_EMPTY ∧
                 enemy_pos e ≠ (Hero.x (hero g), Hero.y (hero g))) (enemies g')).
Proof.
  revert count g r. induction fuel as [|fuel IH]; intros count g r Hwf He; simpl.
  { case_bool_decide; [done|]. split; [by destruct g | done]. }
  case_bool_decide as Hlt; [|split; [by destruct g | done]].
  apply post_bind, randomInt_post; [unfold MAP_WIDTH; lia|]. intros x Hx.
  apply post_bind, randomInt_post; [unfold MAP_HEIGHT; lia|]. intros y Hy.
  apply post_bind. rewrite readTile_eq by (apply grid_wf_row; [done|lia]).
  apply post_bind, post_get. cbv beta.
  destruct (is_empty _ && _ && negb (existsb (Enemy.at_pos x y) (enemies g))) eqn:Hc;
    [|by apply IH].
  apply andb_true_iff in Hc as [Hc _]. apply andb_true_iff in Hc as [Hempty Hhero].
  apply bool_decide_eq_true in Hempty.
  apply post_bind, post_modify.
  eapply post_mono.
  - apply (IH (count + 1)); [done|]. simpl.
    apply Forall_app. split; [done|]. apply Forall_singleton. split; [done|].
    unfold enemy_pos. simpl. intros [= -> ->].
    by rewrite !bool_decide_eq_false_2 in Hhero by (intros ?; done).
  - intros [] g' r' [Heq He']. split; [|done]. rewrite Heq at 1. done.
Qed.

Lemma init_standing fuel g r :
  post True (init fuel g r) (λ _ g' _, standing g').
Proof.
  unfold init.
  do 3 apply post_bind, post_modify.
  set (g1 := set_flags _ _ _). clearbody g1.
  pose proof (placeRooms_post g1 r) as Hrooms.
  apply post_Ok in Hrooms as ([] & g3 & r3 & Heq3 & Hcarved); [|tauto].
  unfold generateMap. apply post_bind, post_modify.
  eapply post_bind_eq; [exact Heq3|]. clear Heq3.
  destruct Hcarved as (Hwf3 & Hin3 & _ & _).
  apply post_bind. eapply post_mono.
  { apply post_weaken. by apply carveCorridors_post. }
  intros [] g4 r4 (Hwf4 & _ & _).
  apply post_bind. eapply post_mono; [by apply placeHero_post|].
  intros [] g5 r5 (hx & hy & Hhero & Hht & ->).
  apply post_bind. eapply post_mono; [by apply placeItems_post|].
  intros [] g6 r6 (Heq6 & Hwf6 & _ & _ & Hchg6).
  assert (Hht6 : tileAt (map g6) hx hy = Some TILE_EMPTY).
  { destruct (decide (tileAt (map g6) hx hy
                      = tileAt (map (set_hero (Hero.mk hx hy HERO_HP HERO_HP HERO_ATTACK)
                                              g4)) hx hy)) as [->|Hne]; [done|].
    by destruct (Hchg6 hx hy Hne) as (_ & _ & []). }
  assert (Hh6 : hero g6 = Hero.mk hx hy HERO_HP HERO_HP HERO_ATTACK)
    by (by rewrite Heq6).
  unfold placeEnemies. apply post_bind, post_modify.
  eapply post_mono.
  { apply (placeEnemies_loop_standing fuel 0); [done|]. simpl. constructor. }
  intros [] g7 r7 [Heq7 Hst7]. simpl in Hst7.
  rewrite Heq7. unfold standing. simpl. rewrite Hh6 in *. simpl in *.
  split_and!; [done| |].
  - eapply Forall_impl; [done|]. by intros e [? _].
  - intros (e & Hpos & He)%list_elem_of_fmap.
    rewrite Forall_forall in Hst7. destruct (Hst7 e He) as [_ Hne]. done.
Qed.

Lemma init_Orderly fuel g r :
  post True (init fuel g r) (λ _ g' _, Orderly g').
Proof.
  pose proof (init_post fuel g r) as Hpost.
  pose proof (init_standing fuel g r) as Hst.
  destruct (init fuel g r) as [[] g' r'| |]; [|done..]. simpl in *.
  destruct Hpost as (HI & (Hk & Hpc & Hlen & Hhp & Hhhp & Hmax & Hatk & Hov & Hw)
                     & Hsw & Hpo).
  split; [done| |done|by rewrite Hatk| |].
  - eapply Forall_impl; [done|]. intros e [H1 H2]. unfold enemy_stats, ENEMY_HP in *. lia.
  - split_and!; [by rewrite Hpc | rewrite Hpc, Hpo; lia | rewrite Hatk, Hsw; done].
  - intros Hnil. rewrite Hnil in Hlen. done.
Qed.

Lemma handleInput_Orderly key g r :
  Inv g → Orderly g → handled key g r Orderly.
Proof.
  intros HI HE. apply (handleInput_keeps Orderly); [|..|done|done].
  - intros i e g0 f g' _. apply turned_Orderly.
  - intros Hplay dx dy _. apply moved_Orderly; [apply HI|done..].
  - intros _ _. by apply attack_spec_Orderly.
Qed.

Lemma reachable_Orderly g : reachable g → Orderly g.
Proof.
  induction 1 as [g0 r0 fuel g r Hinit|g key r0 g' r Hg IH Hstep|g key r0 g' r Hg IH Hstep].
  - pose proof (init_Orderly fuel g0 r0) as Hpost. rewrite Hinit in Hpost. apply Hpost.
  - exact (handled_step Orderly key g r0 g' r
             (handleInput_Orderly key g r0 (reachable_Inv g Hg) IH) Hstep).
  - by destruct (handled_throw Orderly key g r0 g' r
                   (handleInput_Orderly key g r0 (reachable_Inv g Hg) IH) Hstep)
      as (_ & _ & -> & _).
Qed.

(** ** Invariants of the reachable states *)

(** X3.  In every reachable state the hero stands on an Empty tile, every
    enemy stands on an Empty tile, no enemy shares the hero's cell and no
    two enemies share a cell: items are picked up on arrival, walls are
    never entered, and units never overlap. *)
Theorem units_stand_apart_on_empty_tiles g :
  reachable g →
  tileAt (map g) (Hero.x (hero g)) (Hero.y (hero g)) = Some TILE_EMPTY ∧
  (∀ e, e ∈ enemies g →
        tileAt (map g) (Enemy.x e) (Enemy.y e) = Some TILE_EMPTY ∧
        (Enemy.x e, Enemy.y e) ≠ (Hero.x (hero g), Hero.y (hero g))) ∧
  (∀ i j e1 e2, enemies g !! i = Some e1 → enemies g !! j = Some e2 →
                (Enemy.x e1, Enemy.y e1) = (Enemy.x e2, Enemy.y e2) → i = j).
Proof.
  intros Hg. pose proof (reachable_Inv g Hg) as [HB _].
  pose proof (reachable_Orderly g Hg) as [(Hht & Het & Hhe) _ _ _ _ _].
  split; [done|]. split.
  - intros e He. rewrite Forall_forall in Het. split; [by apply Het|].
    intros Heq. apply Hhe. apply list_elem_of_fmap. by exists e.
  - intros i j e1 e2 H1 H2 Heq.
    pose proof (base_nodup _ HB) as Hnd. rewrite NoDup_alt in Hnd.
    apply (Hnd i j (enemy_pos e1)); rewrite list_lookup_fmap.
    + by rewrite H1.
    + rewrite H2. simpl. unfold enemy_pos. by rewrite Heq.
Qed.

Lemma units_stand_apart_on_empty_tiles_demo :
  tileAt (map demo_start) (Hero.x (hero demo_start)) (Hero.y (hero demo_start))
    = Some TILE_EMPTY ∧
  (∀ e, e ∈ enemies demo_start →
        tileAt (map demo_start) (Enemy.x e) (Enemy.y e) = Some TILE_EMPTY ∧
        (Enemy.x e, Enemy.y e)
          ≠ (Hero.x (hero demo_start), Hero.y (hero demo_start))) ∧
  (∀ i j e1 e2, enemies demo_start !! i = Some e1 →
                enemies demo_start !! j = Some e2 →
                (Enemy.x e1, Enemy.y e1) = (Enemy.x e2, Enemy.y e2) → i = j).
Proof.
  apply (units_stand_apart_on_empty_tiles demo_start).
  apply (reach_init blank (rng_of demo_draws) 10 _
           (rng_after (init 10 blank (rng_of demo_draws)))).
  apply returns_eq; vm_compute; reflexivity.
Defined.

(** X4.  In every reachable state every enemy of the list is alive and
    unchanged but for its position and hp: its hp lies in
    [[1, ENEMY_HP]], its [maxHp] is [ENEMY_HP], its attack [ENEMY_ATTACK],
    and its [_justRetaliated] flag is clear between two key events; the
    hero's [maxHp] is [HERO_HP]. *)
Theorem enemies_alive_and_bounded g :
  reachable g →
  (∀ e, e ∈ enemies g →
        0 < Enemy.hp e ≤ ENEMY_HP ∧ Enemy.maxHp e = ENEMY_HP ∧
        Enemy.attack e = ENEMY_ATTACK ∧ Enemy._justRetaliated e = false) ∧
  Hero.maxHp (hero g) = HERO_HP.
Proof.
  intros Hg. pose proof (reachable_Inv g Hg) as [HB Hfl].
  pose proof (reachable_Orderly g Hg) as [_ Hstats Hmax _ _ _].
  split; [|done]. intros e He.
  pose proof (base_enemies _ HB) as Hok. unfold flags_clear in Hfl.
  rewrite Forall_forall in Hok, Hstats, Hfl.
  destruct (Hstats e He) as [H1 H2]. destruct (Hok e He) as [_ H3].
  split_and!; [apply H2..|done|done|by apply Hfl].
Qed.

Lemma enemies_alive_and_bounded_demo :
  (∀ e, e ∈ enemies demo_start →
        0 < Enemy.hp e ≤ ENEMY_HP ∧ Enemy.maxHp e = ENEMY_HP ∧
        Enemy.attack e = ENEMY_ATTACK ∧ Enemy._justRetaliated e = false) ∧
  Hero.maxHp (hero demo_start) = HERO_HP.
Proof.
  apply (enemies_alive_and_bounded demo_start).
  apply (reach_init blank (rng_of demo_draws) 10 _
           (rng_after (init 10 blank (rng_of demo_draws)))).
  apply returns_eq; vm_compute; reflexivity.
Defined.

(** X5.  In every reachable state the items are accounted for:
    [potionsCarried] plus the number of Potion tiles on the grid is 10, and
    the hero's attack is [HERO_ATTACK] plus [SWORD_COUNT] for each of the 2
    swords no longer on the grid.  Hence [potionsCarried] never exceeds 10
    and the attack never exceeds [HERO_ATTACK + 2 * SWORD_COUNT]. *)
Theorem items_accounted_for g :
  reachable g →
  potionsCarried g + Z.of_nat (countTiles (map g) TILE_POTION) = 10 ∧
  Hero.attack (hero g)
    = HERO_ATTACK + SWORD_COUNT * (2 - Z.of_nat (countTiles (map g) TILE_SWORD)) ∧
  0 ≤ potionsCarried g ≤ 10 ∧
  HERO_ATTACK ≤ Hero.attack (hero g) ≤ HERO_ATTACK + 2 * SWORD_COUNT.
Proof.
  intros Hg. pose proof (reachable_Orderly g Hg) as [_ _ _ Hatk (Hpc & Hpo & Hsw) _].
  unfold SWORD_COUNT, HERO_ATTACK in *. lia.
Qed.

Lemma items_accounted_for_demo :
  potionsCarried demo_cornered
    + Z.of_nat (countTiles (map demo_cornered) TILE_POTION) = 10 ∧
  Hero.attack (hero demo_cornered)
    = HERO_ATTACK
      + SWORD_COUNT * (2 - Z.of_nat (countTiles (map demo_cornered) TILE_SWORD)) ∧
  0 ≤ potionsCarried demo_cornered ≤ 10 ∧
  HERO_ATTACK ≤ Hero.attack (hero demo_cornered) ≤ HERO_ATTACK + 2 * SWORD_COUNT.
Proof.
  apply (items_accounted_for demo_cornered).
  apply (reach_step (state_of (handleInput "d" demo_start quiet)) "d" quiet _
           (rng_after (handleInput "d" (state_of (handleInput "d" demo_start quiet))
                                   quiet)));
    [apply (reach_step demo_start "d" quiet _
              (rng_after (handleInput "d" demo_start quiet)));
       [apply (reach_init blank (rng_of demo_draws) 10 _
                 (rng_after (init 10 blank (rng_of demo_draws))))|]|];
    apply returns_eq; vm_compute; reflexivity.
Defined.

(** X6.  In every reachable state the phase is Won exactly when no enemy is
    left, and exactly when [killed] has reached [ENEMY_COUNT]: the two tests
    of the win check of [heroAttack] agree, and a game in phase Playing or
    Lost still has an enemy. *)
Theorem won_iff_no_enemy_left g :
  reachable g →
  (phase g = Won ↔ enemies g = []) ∧
  (phase g = Won ↔ killed g = ENEMY_COUNT).
Proof.
  intros Hg. pose proof (reachable_Inv g Hg) as [HB _].
  pose proof (reachable_Orderly g Hg) as [_ _ _ _ _ Hwin].
  destruct HB as [Hgrid Hhero Hen Hnd Hk Hhp Halive Hlost Hwon].
  assert (Hphase : phase g = Won ↔ _win g = true).
  { unfold phase. destruct (_gameOver g) eqn:Hov; [by destruct (_win g)|].
    destruct (Halive eq_refl) as [_ ->]. done. }
  assert (Hnil : phase g = Won ↔ enemies g = []).
  { rewrite Hphase. split; [|done]. intros Hw. by destruct (Hwon Hw). }
  split; [done|]. rewrite Hnil. split.
  - intros Hn. rewrite Hn in Hk. simpl in Hk. lia.
  - intros Hn. destruct (enemies g); [done|]. simpl in Hk. lia.
Qed.

Lemma won_iff_no_enemy_left_demo :
  (phase demo_start = Won ↔ enemies demo_start = []) ∧
  (phase demo_start = Won ↔ killed demo_start = ENEMY_COUNT).
Proof.
  apply (won_iff_no_enemy_left demo_start).
  apply (reach_init blank (rng_of demo_draws) 10 _
           (rng_after (init 10 blank (rng_of demo_draws)))).
  apply returns_eq; vm_compute; reflexivity.
Defined.

(** ** The frame of the enemy turn *)

Lemma shifted_refl g e : shifted g e e.
Proof. split_and!; [done..|by left]. Qed.

Lemma turned_frame i e g f g' :
  enemies g !! i = Some e → turned i e g f g' → 0 ≤ Enemy.attack e →
  0 ≤ Hero.hp (hero g) →
  turn_frame g g' ∧ 0 ≤ Hero.hp (hero g') ≤ Hero.hp (hero g) ∧
  ∃ e', enemies g' !! i = Some e' ∧ shifted g e e'.
Proof.
  intros He Ht Hatk Hhp. pose proof (lookup_lt_Some _ _ _ He) as Hlt.
  destruct Ht as [Hflag|Hflag Hadj Hsurv|Hflag Hadj Hdead|Hflag Hadj
                  |mv Hflag Hadj Hmv nx ny Hin Hempty Hnh Hfree].
  - split; [by split_and!|]. split; [done|]. eexists. simpl.
    rewrite list_lookup_insert_eq by done. split; [done|].
    split_and!; [done..|by left].
  - split; [by split_and!|]. split; [simpl; lia|]. exists e.
    split; [done | apply shifted_refl].
  - split; [by split_and!|]. split; [simpl; lia|]. exists e.
    split; [done | apply shifted_refl].
  - split; [by split_and!|]. split; [done|]. exists e.
    split; [done | apply shifted_refl].
  - split; [by split_and!|]. split; [done|]. eexists. simpl.
    rewrite list_lookup_insert_eq by done. split; [done|].
    split_and!; [done..|]. right. split_and!; [done..| |done|done].
    by exists mv.
Qed.

Lemma sweep_frame k i g0 g r :
  grid_wf (map g) → Forall (λ e, 0 ≤ Enemy.attack e) (enemies g) →
  turn_frame g0 g → 0 ≤ Hero.hp (hero g) ≤ Hero.hp (hero g0) →
  length (enemies g) = (i + k)%nat → length (enemies g0) = (i + k)%nat →
  (∀ j, (i ≤ j)%nat → enemies g !! j = enemies g0 !! j) →
  (∀ j e e', (j < i)%nat → enemies g0 !! j = Some e → enemies g !! j = Some e' →
             shifted g0 e e') →
  ∃ g' r', updateEnemies_loop (seq i k) g r = Ok tt g' r' ∧
    turn_frame g0 g' ∧ Hero.hp (hero g') ≤ Hero.hp (hero g0) ∧
    length (enemies g') = length (enemies g0) ∧
    (∀ j e e', enemies g0 !! j = Some e → enemies g' !! j = Some e' →
               shifted g0 e e').
Proof.
  revert i g r. induction k as [|k IH]; intros i g r Hwf Hatk Hfr Hhp Hlen Hlen0 Hhigh Hlow.
  { exists g, r. split_and!; [done|done|lia|lia|].
    intros j e e' He He'. apply (Hlow j); [|done..].
    apply lookup_lt_Some in He. lia. }
  destruct (lookup_lt_is_Some_2 (enemies g) i) as [e He]; [lia|].
  destruct (enemyTurn_turned i e g r Hwf He) as (f & g1 & r1 & Heq & Ht & _).
  cbn [seq updateEnemies_loop]. unfold bind. rewrite Heq.
  pose proof (Forall_lookup_1 _ _ _ _ Hatk He) as Hatke. cbv beta in Hatke.
  destruct (turned_frame i e g f g1 He Ht Hatke) as (Hfr1 & Hhp1 & e' & He' & Hsh);
    [lia|].
  destruct (turned_enemies i e g f g1 He Ht) as (Hlen1 & Hother & _).
  destruct Hfr as (Hm & Hr & Hp & Hk & Hx & Hy & Hmx & Hat & Hw).
  destruct Hfr1 as (Hm1 & Hr1 & Hp1 & Hk1 & Hx1 & Hy1 & Hmx1 & Hat1 & Hw1).
  assert (Hfr01 : turn_frame g0 g1).
  { split_and!; try congruence. intros H. by apply Hw, Hw1. }
  assert (He0 : enemies g0 !! i = Some e) by (by rewrite <- Hhigh).
  assert (Hsh0 : shifted g0 e e').
  { destruct Hsh as (H1 & H2 & H3 & H4). split_and!; [done..|].
    destruct H4 as [H4|(H4 & H5 & H6 & H7 & H8)]; [by left|right].
    unfold adjacent in *. rewrite Hm, Hx, Hy in *. done. }
  assert (Hlow1 : ∀ j a a', (j < S i)%nat → enemies g0 !! j = Some a →
                            enemies g1 !! j = Some a' → shifted g0 a a').
  { intros j a a' Hj Ha Ha'. destruct (decide (j = i)) as [->|Hne].
    - congruence.
    - rewrite Hother in Ha' by done. apply (Hlow j); [lia|done..]. }
  destruct f.
  - destruct (IH (S i) g1 r1) as (g' & r' & Hloop & Hrest); try done; try lia.
    + rewrite Hm1. done.
    + apply Forall_lookup. intros j a Ha. destruct (decide (j = i)) as [->|Hne].
      * destruct Hsh as (_ & _ & Hsame & _). assert (a = e') as -> by congruence.
        cbv beta. lia.
      * rewrite Hother in Ha by done. by apply (Forall_lookup_1 _ _ _ _ Hatk Ha).
    + intros j Hj. rewrite Hother by lia. apply Hhigh. lia.
    + by exists g', r'.
  - exists g1, r1. split_and!; [done|done|lia|lia|].
    intros j a a' Ha Ha'. destruct (decide (j < S i)%nat) as [Hj|Hj].
    + by apply (Hlow1 j).
    + rewrite Hother, Hhigh in Ha' by lia.
      assert (a' = a) as -> by congruence. apply shifted_refl.
Qed.

(** X7.  The enemy turn, from any state whose grid is complete and whose
    enemies have no negative attack, the hero's hp being at least 0:
    [updateEnemies] returns normally; it
    leaves the grid, the rooms, [potionsCarried], [killed], the hero's
    position, [maxHp] and attack alone, never raises the hero's hp and never
    sets the win flag; it keeps the number and the order of the enemies, and
    each enemy keeps its hp, [maxHp] and attack and either keeps its cell
    or, being neither flagged nor next to the hero, takes one wrapped step
    onto a cell that holds an Empty tile and is not the hero's. *)
Theorem enemy_turn_frame g r :
  grid_wf (map g) → Forall (λ e, 0 ≤ Enemy.attack e) (enemies g) →
  0 ≤ Hero.hp (hero g) →
  ∃ g' r', updateEnemies g r = Ok tt g' r' ∧
    turn_frame g g' ∧ Hero.hp (hero g') ≤ Hero.hp (hero g) ∧
    length (enemies g') = length (enemies g) ∧
    (∀ j e e', enemies g !! j = Some e → enemies g' !! j = Some e' →
               shifted g e e').
Proof.
  intros Hwf Hatk Hhp. unfold updateEnemies, bind, get.
  apply (sweep_frame (length (enemies g)) 0 g g r);
    [done|done|by split_and!|lia|done|done|done|intros j e e' Hj; lia].
Qed.

Lemma enemy_turn_frame_demo :
  ∃ g' r', updateEnemies demo_start south_first = Ok tt g' r' ∧
    turn_frame demo_start g' ∧
    Hero.hp (hero g') ≤ Hero.hp (hero demo_start) ∧
    length (enemies g') = length (enemies demo_start) ∧
    (∀ j e e', enemies demo_start !! j = Some e → enemies g' !! j = Some e' →
               shifted demo_start e e').
Proof.
  apply (enemy_turn_frame demo_start south_first).
  - apply grid_full_wf. vm_compute. reflexivity.
  - apply (bool_decide_unpack _). vm_compute. exact I.
  - vm_compute. discriminate.
Defined.

(** ** The Move action, field by field *)

Lemma contact_free (es : list Enemy.t) p :
  p ∉ (enemy_pos <$> es) → contact es p = 0.
Proof.
  intros Hp. unfold contact.
  destruct (find _ es) as [en|] eqn:Hf; [|done].
  apply find_some in Hf as [Hin Hat]. apply list_elem_of_In in Hin.
  apply at_pos_true in Hat. destruct Hp. apply list_elem_of_fmap.
  exists en. by destruct p.
Qed.

Lemma contactDamage_nil h ds : contactDamage h [] ds = 0.
Proof.
  induction ds as [|d ds IH]; [done|]. unfold contactDamage in *.
  cbn [foldr]. by rewrite IH.
Qed.

Lemma contactDamage_cons h e (es : list Enemy.t) ds :
  NoDup ((λ d : Z * Z, (Hero.x h + d.1, Hero.y h + d.2)) <$> ds) →
  enemy_pos e ∉ (enemy_pos <$> es) →
  contactDamage h (e :: es) ds
  = (if bool_decide (enemy_pos e
                       ∈ (λ d : Z * Z, (Hero.x h + d.1, Hero.y h + d.2)) <$> ds)
     then Enemy.attack e else 0)
    + contactDamage h es ds.
Proof.
  intros Hnd He. induction ds as [|d ds IH].
  { unfold contactDamage. cbn. rewrite bool_decide_eq_false_2; [done|].
    apply not_elem_of_nil. }
  rewrite fmap_cons in Hnd |- *. apply NoDup_cons in Hnd as [Hd Hnd].
  unfold contactDamage in *. cbn [foldr]. rewrite IH by done. clear IH.
  set (p := (Hero.x h + d.1, Hero.y h + d.2)) in *.
  unfold contact at 1. cbn [find fst snd].
  destruct (Enemy.at_pos p.1 p.2 e) eqn:Hat.
  - apply at_pos_true in Hat. change (p.1, p.2) with p in Hat.
    rewrite contact_free by (by rewrite <- Hat).
    rewrite (bool_decide_eq_true_2 (enemy_pos e ∈ p :: _)) by (rewrite Hat; by left).
    rewrite bool_decide_eq_false_2 by (by rewrite Hat). lia.
  - apply at_pos_false in Hat. change (p.1, p.2) with p in Hat.
    fold (contact es p).
    assert (Hiff : bool_decide (enemy_pos e ∈ p :: ((λ d0 : Z * Z,
                       (Hero.x h + d0.1, Hero.y h + d0.2)) <$> ds))
                   = bool_decide (enemy_pos e ∈ (λ d0 : Z * Z,
                       (Hero.x h + d0.1, Hero.y h + d0.2)) <$> ds)).
    { apply bool_decide_ext. rewrite elem_of_cons. split; [intros [?|?]; done|by right]. }
    rewrite Hiff. lia.
Qed.

Lemma contactDamage_adjacentAttack h (es : list Enemy.t) :
  NoDup (enemy_pos <$> es) → contactDamage h es dirs = adjacentAttack h es.
Proof.
  induction es as [|e es IH]; intros Hnd; [apply contactDamage_nil|].
  rewrite fmap_cons in Hnd. apply NoDup_cons in Hnd as [He Hnd].
  rewrite contactDamage_cons; [|fold (targets h); rewrite targets_neighbours;
                                apply NoDup_neighbours | done].
  fold (targets h). rewrite targets_neighbours.
  unfold adjacentAttack in *. cbn [foldr]. rewrite IH by done.
  destruct (adjacent e h) eqn:Hadj.
  - rewrite bool_decide_eq_true_2; [done|]. by apply adjacent_neighbours.
  - rewrite bool_decide_eq_false_2; [done|]. rewrite <- adjacent_neighbours.
    by rewrite Hadj.
Qed.

(** X8.  After a step onto a cell, [adjacentEnemyDamage] takes from the
    hero's hp the attack of every enemy next to the hero, each enemy counted
    once, when no two enemies share a cell; if that leaves the hp at 0 or
    below, the hp is set to 0 and the game is over and not won, and
    otherwise the flags stay.  Nothing else changes. *)
Theorem contact_damage_once_per_adjacent_enemy g r :
  NoDup (enemy_pos <$> enemies g) →
  let left := Hero.hp (hero g) - adjacentAttack (hero g) (enemies g) in
  adjacentEnemyDamage g r =
    Ok tt (if bool_decide (left <= 0)
           then set_flags true false (set_hero (Hero.set_hp 0 (hero g)) g)
           else set_hero (Hero.set_hp left (hero g)) g) r.
Proof.
  intros Hnd. cbv zeta. rewrite adjacentEnemyDamage_eq.
  rewrite contactDamage_adjacentAttack by done.
  unfold damaged, lostGame. cbv zeta. cbn [hero set_hero Hero.hp Hero.set_hp].
  by destruct (bool_decide _).
Qed.

Lemma contact_damage_once_per_adjacent_enemy_demo :
  adjacentAttack (hero demo_cornered) (enemies demo_cornered) = 3 ∧
  adjacentEnemyDamage demo_cornered quiet =
    Ok tt (if bool_decide (Hero.hp (hero demo_cornered)
                           - adjacentAttack (hero demo_cornered)
                                            (enemies demo_cornered) <= 0)
           then set_flags true false
                  (set_hero (Hero.set_hp 0 (hero demo_cornered)) demo_cornered)
           else set_hero (Hero.set_hp
                            (Hero.hp (hero demo_cornered)
                             - adjacentAttack (hero demo_cornered)
                                              (enemies demo_cornered))
                            (hero demo_cornered)) demo_cornered) quiet.
Proof.
  split; [vm_compute; reflexivity|].
  apply (contact_damage_once_per_adjacent_enemy demo_cornered quiet).
  apply (bool_decide_unpack _). vm_compute. exact I.
Defined.

Lemma attemptMove_fields dx dy g r :
  grid_wf (map g) →
  tileAt (map g) (target dx dy g).1 (target dx dy g).2 ≠ Some TILE_WALL →
  target dx dy g ∉ (enemy_pos <$> enemies g) →
  ∃ g', attemptMove dx dy g r = Ok tt g' r ∧ stepped_onto (target dx dy g) g g'.
Proof.
  intros Hwf Hwall Hfree. unfold stepped_onto. cbv zeta.
  rewrite attemptMove_eq by done. eexists. split; [done|].
  pose proof (target_in_grid dx dy g) as Hin.
  unfold moved. cbv zeta.
  rewrite (bool_decide_eq_false_2 _ Hwall), (bool_decide_eq_false_2 _ Hfree).
  destruct (target dx dy g) as [x y] eqn:Hp. cbn [fst snd] in *.
  assert (Hrow : is_Some (map g !! y)) by (apply grid_wf_row; [done | apply Hin]).
  unfold entered, picked. cbv zeta.
  cbn [fst snd map hero set_hero Hero.x Hero.y Hero.set_pos].
  destruct (Hwf x y Hin) as [t Ht]. rewrite Ht in *.
  assert (Hother : ∀ t0 x' y', (x', y') ≠ (x, y) →
            tileAt (setTile (map g) x y t0) x' y' = tileAt (map g) x' y').
  { intros t0 x' y' Hne. rewrite tileAt_setTile by done.
    rewrite bool_decide_eq_false_2; [done|]. by intros [-> ->]. }
  assert (Hhere : ∀ t0, tileAt (setTile (map g) x y t0) x y = Some t0).
  { intros t0. rewrite tileAt_setTile by done. by rewrite bool_decide_eq_true_2. }
  destruct t; [|done| |].
  - rewrite !(bool_decide_eq_false_2 (Some TILE_EMPTY = _)) by done.
    rewrite (bool_decide_eq_false_2 (_ ∨ _)) by (intros [?|?]; done).
    unfold damaged, lostGame. cbv zeta.
    cbn [map hero enemies set_hero Hero.hp Hero.set_hp Hero.x Hero.y].
    destruct (bool_decide (_ <= 0)); simpl; by split_and!.
  - rewrite (bool_decide_eq_false_2 (Some TILE_SWORD = Some TILE_POTION)) by done.
    rewrite (bool_decide_eq_true_2 (Some TILE_SWORD = Some TILE_SWORD)) by done.
    rewrite (bool_decide_eq_true_2 (_ ∨ _)) by by right.
    unfold damaged, lostGame. cbv zeta.
    cbn [map hero enemies set_hero set_map Hero.hp Hero.set_hp Hero.set_attack
         Hero.x Hero.y].
    destruct (bool_decide (_ <= 0)); simpl; split_and!; try done; apply Hother.
  - rewrite (bool_decide_eq_true_2 (Some TILE_POTION = Some TILE_POTION)) by done.
    rewrite (bool_decide_eq_false_2 (Some TILE_POTION = Some TILE_SWORD)) by done.
    rewrite (bool_decide_eq_true_2 (_ ∨ _)) by by left.
    unfold damaged, lostGame. cbv zeta.
    cbn [map hero enemies set_hero set_map set_potionsCarried Hero.hp Hero.set_hp
         Hero.x Hero.y].
    destruct (bool_decide (_ <= 0)); simpl; split_and!; try done; apply Hother.
Qed.

(** X9.  A Move onto a cell [p] that holds no Wall and no enemy, on a
    complete grid: [attemptMove] returns normally with the hero on [p]; a
    Potion on [p] raises [potionsCarried] by one and heals [POTION_COUNT] hp
    up to [maxHp], a Sword adds [SWORD_COUNT] to the attack, and in both
    cases the tile becomes Empty; only then is the damage of the enemies
    next to [p] taken, so that a potion can save the hero.  No other cell,
    no enemy and no other counter changes. *)
Theorem move_picks_up_then_takes_damage dx dy g r :
  grid_wf (map g) →
  tileAt (map g) (target dx dy g).1 (target dx dy g).2 ≠ Some TILE_WALL →
  target dx dy g ∉ (enemy_pos <$> enemies g) →
  ∃ g', attemptMove dx dy g r = Ok tt g' r ∧ stepped_onto (target dx dy g) g g'.
Proof. apply attemptMove_fields. Qed.


Lemma move_picks_up_then_takes_damage_demo :
  let g := scene (Hero.mk 12 20 1 10 1) [Enemy.mk 10 20 5 5 2 false] in
  ∃ g', attemptMove (-1) 0 g quiet = Ok tt g' quiet ∧
        (Hero.x (hero g'), Hero.y (hero g')) = (11, 20) ∧
        Hero.hp (hero g') = 1 ∧ _gameOver g' = false ∧ potionsCarried g' = 1.
Proof.
  cbv zeta.
  destruct (move_picks_up_then_takes_damage (-1) 0
              (scene (Hero.mk 12 20 1 10 1) [Enemy.mk 10 20 5 5 2 false]) quiet)
    as (g' & Heq & Hpos & Hhp & Hflags & _ & _ & Hpc & _).
  - apply grid_full_wf. vm_compute. reflexivity.
  - vm_compute. discriminate.
  - apply (bool_decide_unpack _). vm_compute. exact I.
  - exists g'. split; [exact Heq|].
    split; [rewrite Hpos; vm_compute; reflexivity|].
    split; [rewrite Hhp; vm_compute; reflexivity|].
    split; [|rewrite Hpc; vm_compute; reflexivity].
    change (_gameOver g') with (fst (_gameOver g', _win g')).
    rewrite Hflags. vm_compute. reflexivity.
Defined.

(** ** An Attack that reaches nobody *)

(** X10.  When no enemy stands on one of the four cells next to the hero,
    no two enemies share a cell, an enemy is left, fewer than [ENEMY_COUNT]
    have been killed and the hero has hp left, [heroAttack] changes nothing:
    the key event is then the enemy turn alone. *)
Theorem attack_without_target_changes_nothing g r :
  NoDup (enemy_pos <$> enemies g) →
  (∀ e, e ∈ enemies g → adjacent e (hero g) = false) →
  enemies g ≠ [] → killed g < ENEMY_COUNT → 0 < Hero.hp (hero g) →
  heroAttack g r = Ok tt g r ∧
  (_gameOver g = false → handleInput " " g r = updateEnemies g r).
Proof.
  intros Hnd Hfar Hne Hk Hhp.
  assert (Hfree : ∀ p, p ∈ neighbours (hero g) → p ∉ (enemy_pos <$> enemies g)).
  { intros p Hp (e & -> & He)%list_elem_of_fmap.
    apply adjacent_neighbours in Hp. by rewrite Hfar in Hp. }
  assert (Hstruck : struckGame (neighbours (hero g)) g = g).
  { unfold struckGame.
    rewrite omap_strike_elsewhere, retaliation_elsewhere, kills_elsewhere by done.
    destruct g as [m [] ]. simpl. by rewrite !Z.sub_0_r, !Z.add_0_r. }
  assert (Hattack : heroAttack g r = Ok tt g r).
  { rewrite heroAttack_eq by done. unfold attack_spec. cbv zeta. rewrite Hstruck.
    rewrite (bool_decide_eq_false_2 _ Hne).
    rewrite (bool_decide_eq_false_2 (killed g >= ENEMY_COUNT)) by lia.
    rewrite bool_decide_eq_false_2 by lia. done. }
  split; [done|]. intros Hplay. rewrite handleInput_space by done.
  unfold bind. by rewrite Hattack.
Qed.

Lemma attack_without_target_changes_nothing_demo :
  heroAttack demo_edge quiet = Ok tt demo_edge quiet ∧
  (_gameOver demo_edge = false →
   handleInput " " demo_edge quiet = updateEnemies demo_edge quiet).
Proof.
  apply (attack_without_target_changes_nothing demo_edge quiet).
  - apply (bool_decide_unpack _). vm_compute. exact I.
  - intros e He. apply list_elem_of_singleton in He. rewrite He.
    vm_compute. reflexivity.
  - vm_compute. discriminate.
  - vm_compute. reflexivity.
  - vm_compute. reflexivity.
Defined.

(** ** What a key event may change *)

Lemma keyMap_dirs key d : keyMap !! key = Some d → d ∈ dirs.
Proof.
  revert key d. change (map_Forall (λ _ d, d ∈ dirs) keyMap).
  apply (bool_decide_unpack _). vm_compute. exact I.
Qed.

Lemma kills_nonneg atk ps (es : list Enemy.t) : 0 ≤ kills atk ps es.
Proof.
  induction es as [|e es IH]; [done|]. unfold kills in *. cbn [foldr].
  unfold falls at 1. destruct (_ && _); lia.
Qed.

Lemma key_frame_refl key g : key_frame key g g.
Proof.
  unfold key_frame. unfold SWORD_COUNT.
  split_and!; try done; try lia; try (by left); intros; by left.
Qed.

Lemma key_frame_turn key g g1 g2 :
  key_frame key g g1 → turn_frame g1 g2 →
  length (enemies g2) = length (enemies g1) → key_frame key g g2.
Proof.
  intros (Hr & Ht & Hk & Hp & Ha & Hm & Hl & Hpos)
         (Hm2 & Hr2 & Hp2 & Hk2 & Hx2 & Hy2 & Hmx2 & Hat2 & _) Hlen.
  split_and!; rewrite ?Hm2, ?Hr2, ?Hp2, ?Hk2, ?Hx2, ?Hy2, ?Hmx2, ?Hat2, ?Hlen;
    done || lia.
Qed.

Lemma attack_spec_frame key g : key_frame key g (attack_spec g).
Proof.
  pose proof (kills_nonneg (Hero.attack (hero g)) (neighbours (hero g)) (enemies g)) as H0.
  pose proof (kills_length (Hero.attack (hero g)) (neighbours (hero g)) (enemies g)) as Hl.
  unfold attack_spec. cbv zeta.
  destruct (_ || _); [|destruct (bool_decide _)];
    (unfold key_frame, SWORD_COUNT; split_and!; simpl; try done; try lia;
     try (by left); intros; by left).
Qed.

Lemma moved_frame key dx dy g :
  grid_wf (map g) → keyMap !! key = Some (dx, dy) → key_frame key g (moved dx dy g).
Proof.
  intros Hwf Hkey.
  destruct (decide (tileAt (map g) (target dx dy g).1 (target dx dy g).2
                    = Some TILE_WALL)) as [Hwall|Hwall].
  { unfold moved. cbv zeta. rewrite (bool_decide_eq_true_2 _ Hwall).
    apply key_frame_refl. }
  destruct (decide (target dx dy g ∈ enemy_pos <$> enemies g)) as [Hen|Hfree].
  { unfold moved. cbv zeta. rewrite (bool_decide_eq_false_2 _ Hwall).
    rewrite (bool_decide_eq_true_2 _ Hen). apply key_frame_refl. }
  destruct (attemptMove_fields dx dy g (mkRng (λ _, mkSample 0 0) 0) Hwf Hwall Hfree)
    as (g' & Heq & Hpos & Hhp & Hflags & Hatk & Hmax & Hpc & Hhere & Hother
        & Hes & Hk & Hr).
  rewrite attemptMove_eq in Heq by done. injection Heq as <-.
  destruct (target dx dy g) as [px py] eqn:Hp. cbn [fst snd] in *.
  assert (Htiles : ∀ x y, tileAt (map (moved dx dy g)) x y = tileAt (map g) x y ∨
            ((x, y) = (Hero.x (hero (moved dx dy g)), Hero.y (hero (moved dx dy g))) ∧
             tileAt (map (moved dx dy g)) x y = Some TILE_EMPTY ∧
             (tileAt (map g) x y = Some TILE_POTION ∨
              tileAt (map g) x y = Some TILE_SWORD))).
  { intros x y. destruct (decide ((x, y) = (px, py))) as [[= -> ->]|Hne];
      [|left; by apply Hother].
    rewrite Hhere.
    destruct (bool_decide (tileAt (map g) px py = Some TILE_POTION
                           ∨ tileAt (map g) px py = Some TILE_SWORD)) eqn:Hitem;
      [|by left].
    apply bool_decide_eq_true in Hitem. right. by rewrite Hpos. }
  assert (Hstep : ∃ d, keyMap !! key = Some d ∧ d ∈ dirs ∧
            (Hero.x (hero (moved dx dy g)), Hero.y (hero (moved dx dy g)))
            = target d.1 d.2 g).
  { exists (dx, dy). split; [done|]. split; [by eapply keyMap_dirs|].
    cbn [fst snd]. by rewrite Hp. }
  unfold key_frame. rewrite Hpc, Hatk, Hes, Hmax, Hk, Hr. unfold SWORD_COUNT.
  destruct (bool_decide (tileAt (map g) px py = Some TILE_POTION));
    destruct (bool_decide (tileAt (map g) px py = Some TILE_SWORD));
    (split_and!; try done; try lia; by right).
Qed.

Lemma handleInput_frame key g r :
  Inv g → handled key g r (key_frame key g).
Proof.
  intros HI. apply (handleInput_keeps (key_frame key g)); [|..|done|].
  - intros i e g1 f g2 HB HP He Ht.
    pose proof (Forall_lookup_1 _ _ _ _ (base_enemies _ HB) He) as [_ Hatk].
    destruct (turned_frame i e g1 f g2 He Ht) as (Hfr & _ & _);
      [rewrite Hatk; done | apply (base_hp _ HB) |].
    destruct (turned_enemies i e g1 f g2 He Ht) as (Hlen & _).
    by eapply key_frame_turn.
  - intros _ dx dy Hkey. apply moved_frame; [apply HI|done].
  - intros _ _. apply attack_spec_frame.
  - apply key_frame_refl.
Qed.

Lemma handleInput_hp key g r :
  Inv g →
  handled key g r (λ g',
    potionsCarried g ≤ potionsCarried g' ∧
    (Hero.hp (hero g') ≤ Hero.hp (hero g) ∨
     (potionsCarried g' = potionsCarried g + 1 ∧
      Hero.hp (hero g') ≤ Hero.hp (hero g) + POTION_COUNT))).
Proof.
  intros HI. pose proof HI as [HB _].
  apply (handleInput_keeps (λ g1,
    potionsCarried g ≤ potionsCarried g1 ∧
    (Hero.hp (hero g1) ≤ Hero.hp (hero g) ∨
     (potionsCarried g1 = potionsCarried g + 1 ∧
      Hero.hp (hero g1) ≤ Hero.hp (hero g) + POTION_COUNT)))); [|..|done|].
  - intros i e g1 f g2 HB1 [Hpc Hhp] He Ht.
    pose proof (Forall_lookup_1 _ _ _ _ (base_enemies _ HB1) He) as [_ Hatk].
    destruct (turned_frame i e g1 f g2 He Ht) as ((_ & _ & Hp2 & _) & Hhp2 & _);
      [rewrite Hatk; done | apply (base_hp _ HB1) |].
    rewrite Hp2. split; [done|]. destruct Hhp as [Hhp|[Hpc1 Hhp]]; [left|right]; lia.
  - intros Hplay dx dy _.
    destruct (decide (tileAt (map g) (target dx dy g).1 (target dx dy g).2
                      = Some TILE_WALL)) as [Hwall|Hwall].
    { unfold moved. cbv zeta. rewrite (bool_decide_eq_true_2 _ Hwall).
      split; [lia|left; lia]. }
    destruct (decide (target dx dy g ∈ enemy_pos <$> enemies g)) as [Hen|Hfree].
    { unfold moved. cbv zeta. rewrite (bool_decide_eq_false_2 _ Hwall).
      rewrite (bool_decide_eq_true_2 _ Hen). split; [lia|left; lia]. }
    destruct (attemptMove_fields dx dy g (mkRng (λ _, mkSample 0 0) 0)
                (base_grid _ HB) Hwall Hfree)
      as (g' & Heq & _ & Hhp & _ & _ & _ & Hpc & _).
    rewrite attemptMove_eq in Heq by apply HB. injection Heq as <-.
    pose proof (contactDamage_nonneg
                  (Hero.set_pos (target dx dy g).1 (target dx dy g).2 (hero g))
                  (enemies g) dirs (base_enemies _ HB)) as Hdmg.
    pose proof (base_hp _ HB) as Hrange.
    rewrite Hpc, Hhp. unfold POTION_COUNT in *.
    destruct (bool_decide (tileAt (map g) (target dx dy g).1 (target dx dy g).2
                           = Some TILE_POTION));
      destruct (bool_decide (_ <= 0)); split; try lia; (left; lia) || (right; lia).
  - intros Hplay _.
    destruct (retaliation_bounds (Hero.attack (hero g)) (neighbours (hero g))
                (enemies g) (base_enemies _ HB)) as [Hret _].
    pose proof (base_hp _ HB) as Hrange.
    unfold attack_spec. cbv zeta.
    destruct (_ || _); [|destruct (bool_decide _)]; simpl; split; try lia; left; lia.
  - split; [lia|left; lia].
Qed.

(** X11.  Over a key event handled from a reachable state: the rooms stay;
    a cell changes only by becoming Empty when the hero ends on it and it
    held a Potion or a Sword, so walls are never made nor removed;
    [killed], [potionsCarried] and the hero's attack never decrease, and the
    latter two grow by at most one and [SWORD_COUNT]; the number of enemies
    never grows; the hero either keeps its cell or has taken the one wrapped
    step of the direction that [keyMap] gives for the key, a direction of
    [dirs]; and the hero's hp rises only with a potion picked up, by
    [POTION_COUNT] at most.  A key that is neither in [keyMap] nor the space
    key, and any key once the game is over, changes nothing and draws no
    random number. *)
Theorem key_event_frame g key r g' r' :
  reachable g → handleInput key g r = Ok tt g' r' →
  key_frame key g g' ∧
  (∀ x y, tileAt (map g') x y = Some TILE_WALL ↔ tileAt (map g) x y = Some TILE_WALL) ∧
  (Hero.hp (hero g') ≤ Hero.hp (hero g) ∨
   (potionsCarried g' = potionsCarried g + 1 ∧
    Hero.hp (hero g') ≤ Hero.hp (hero g) + POTION_COUNT)) ∧
  (keyMap !! key = None → key ≠ " "%string → g' = g ∧ r' = r) ∧
  (_gameOver g = true → g' = g ∧ r' = r).
Proof.
  intros Hg Hstep.
  pose proof (handled_step _ key g r g' r'
                (handleInput_frame key g r (reachable_Inv g Hg)) Hstep) as Hfr.
  pose proof (handled_step _ key g r g' r'
                (handleInput_hp key g r (reachable_Inv g Hg)) Hstep) as [_ Hhp].
  split; [done|]. split_and!; [|done| |].
  - destruct Hfr as (_ & Ht & _). intros x y.
    destruct (Ht x y) as [-> | (_ & -> & [-> | ->])]; done.
  - intros Hkey Hsp. destruct (_gameOver g) eqn:Hplay.
    { rewrite handleInput_terminal in Hstep by done. by injection Hstep as <- <-. }
    destruct (decide (key ∈ objectPrototype)) as [Hin|Hin].
    + by rewrite handleInput_inherited in Hstep.
    + rewrite handleInput_other in Hstep by done. by injection Hstep as <- <-.
  - intros Hover. rewrite handleInput_terminal in Hstep by done.
    by injection Hstep as <- <-.
Qed.

Lemma key_event_frame_demo :
  let g' := state_of (handleInput "d" demo_start quiet) in
  let r' := rng_after (handleInput "d" demo_start quiet) in
  key_frame "d" demo_start g' ∧
  (∀ x y, tileAt (map g') x y = Some TILE_WALL
          ↔ tileAt (map demo_start) x y = Some TILE_WALL) ∧
  (Hero.hp (hero g') ≤ Hero.hp (hero demo_start) ∨
   (potionsCarried g' = potionsCarried demo_start + 1 ∧
    Hero.hp (hero g') ≤ Hero.hp (hero demo_start) + POTION_COUNT)) ∧
  (keyMap !! "d"%string = None → "d"%string ≠ " "%string →
   g' = demo_start ∧ r' = quiet) ∧
  (_gameOver demo_start = true → g' = demo_start ∧ r' = quiet).
Proof.
  apply (key_event_frame demo_start "d" quiet
           (state_of (handleInput "d" demo_start quiet))
           (rng_after (handleInput "d" demo_start quiet))).
  - apply (reach_init blank (rng_of demo_draws) 10 _
             (rng_after (init 10 blank (rng_of demo_draws)))).
    apply returns_eq; vm_compute; reflexivity.
  - apply returns_eq; vm_compute; reflexivity.
Defined.

(** ** Carving, cell by cell *)

Lemma post_conj {A} s (res : Res A) (Q1 Q2 : A → Game → Rng → Prop) :
  post s res Q1 → post s res Q2 → post s res (λ a g r, Q1 a g r ∧ Q2 a g r).
Proof. destruct res; simpl; auto. Qed.

Lemma carves_refl S g : grid_wf (map g) → carves S g g.
Proof. intros Hwf. split; [by apply same_but_map_refl | done]. Qed.

Lemma carves_trans S g g1 g2 : carves S g g1 → carves S g1 g2 → carves S g g2.
Proof.
  intros [H1 Hc1] [H2 Hc2]. split; [by eapply same_but_map_rebase|].
  intros x y Hne.
  destruct (decide (tileAt (map g1) x y = tileAt (map g) x y)) as [Heq|Hne1];
    [|by apply Hc1].
  apply Hc2. by rewrite Heq.
Qed.

Lemma carves_mono (S S' : Z → Z → Prop) g g' :
  (∀ x y, S x y → S' x y) → carves S g g' → carves S' g g'.
Proof. intros HS [H Hc]. split; [done|]. intros x y Hne. by apply HS, Hc. Qed.

Lemma carves_write (S : Z → Z → Prop) g x y :
  grid_wf (map g) → 0 ≤ y < MAP_HEIGHT → S x y →
  carves S g (set_map (setTile (map g) x y TILE_EMPTY) g).
Proof.
  intros Hwf Hy HS. split.
  - apply same_but_map_write. by apply same_but_map_refl.
  - intros x' y'. simpl. rewrite tileAt_setTile by by apply grid_wf_row.
    case_bool_decide as Heq; [|done]. by destruct Heq as [-> ->].
Qed.

Lemma carves_wf S g g' : carves S g g' → grid_wf (map g').
Proof. by intros [(Hwf & _) _]. Qed.

Lemma carves_rooms S g g' : carves S g g' → rooms g' = rooms g.
Proof. intros [(_ & -> & _) _]. done. Qed.

Lemma carves_empty S g g' x y :
  carves S g g' → tileAt (map g) x y = Some TILE_EMPTY →
  tileAt (map g') x y = Some TILE_EMPTY.
Proof. intros [(_ & _ & Hc) _] He. destruct (Hc x y) as [-> | ->]; done. Qed.

Lemma carves_old S g g' x y :
  carves S g g' → ¬ S x y → tileAt (map g') x y = tileAt (map g) x y.
Proof.
  intros [_ Hc] HS.
  destruct (decide (tileAt (map g') x y = tileAt (map g) x y)); [done|].
  destruct HS. by apply Hc.
Qed.

(** A loop each of whose iterations establishes a fact that the later
    iterations keep. *)
Lemma forEach_each {A} (I : Game → Prop) (R : Game → Game → Prop)
      (K : A → Game → Prop) (l : list A) (body : A → M unit) :
  (∀ g, I g → R g g) → (∀ g g1 g2, R g g1 → R g1 g2 → R g g2) →
  (∀ a g g', K a g → R g g' → K a g') →
  (∀ a g r, a ∈ l → I g →
            post False (body a g r) (λ _ g' _, I g' ∧ R g g' ∧ K a g')) →
  ∀ g r, I g →
    post False (forEach l body g r)
         (λ _ g' _, I g' ∧ R g g' ∧ ∀ a, a ∈ l → K a g').
Proof.
  intros Hrefl Htrans Hkeep. induction l as [|a l IH]; intros Hbody g r HI.
  { simpl. split_and!; [done | by apply Hrefl |]. intros a Ha.
    by apply elem_of_nil in Ha. }
  cbn [forEach]. apply post_bind. eapply post_mono; [apply Hbody; [by left|done]|].
  intros [] g1 r1 (HI1 & HR1 & HK1). cbv beta.
  eapply post_mono.
  { apply IH; [|done]. intros b g2 r2 Hb. apply Hbody. by right. }
  intros [] g2 r2 (HI2 & HR2 & HK2). split_and!; [done|by eapply Htrans|].
  intros b [->|Hb]%elem_of_cons; [by eapply Hkeep | by apply HK2].
Qed.

Lemma carveLine_cells (S : Z → Z → Prop) (cells : list Z) (f : Z → Z * Z) g r :
  grid_wf (map g) →
  (∀ c, c ∈ cells → 0 ≤ (f c).2 < MAP_HEIGHT ∧ S (f c).1 (f c).2) →
  post False (forEach cells (λ c, writeTile (f c).2 (f c).1 TILE_EMPTY) g r)
       (λ _ g' _, carves S g g' ∧
                  ∀ c, c ∈ cells → tileAt (map g') (f c).1 (f c).2 = Some TILE_EMPTY).
Proof.
  intros Hwf Hcells.
  eapply post_mono.
  - apply (forEach_each (λ g, grid_wf (map g)) (carves S)
             (λ c g, tileAt (map g) (f c).1 (f c).2 = Some TILE_EMPTY));
      [apply carves_refl | apply carves_trans | | | done].
    + intros c g1 g2 Hc Hcarve. by eapply carves_empty.
    + intros c g1 r1 Hc Hwf1. destruct (Hcells c Hc) as [Hrow HS].
      rewrite writeTile_eq by by apply grid_wf_row. simpl.
      split_and!.
      * by apply grid_wf_setTile.
      * by apply carves_write.
      * rewrite tileAt_setTile by by apply grid_wf_row.
        by rewrite bool_decide_eq_true_2.
  - intros [] g' r' (_ & H1 & H2). done.
Qed.

Lemma carveRoom_cells g r x y w h :
  grid_wf (map g) → 0 ≤ y → y + h ≤ MAP_HEIGHT →
  post False (carveRoom x y w h g r)
       (λ _ g' _, carves (λ cx cy, x ≤ cx < x + w ∧ y ≤ cy < y + h) g g' ∧
                  ∀ cx cy, x ≤ cx < x + w → y ≤ cy < y + h →
                           tileAt (map g') cx cy = Some TILE_EMPTY).
Proof.
  intros Hwf Hy1 Hy2. unfold carveRoom.
  eapply post_mono.
  - apply (forEach_each (λ g, grid_wf (map g))
             (carves (λ cx cy, x ≤ cx < x + w ∧ y ≤ cy < y + h))
             (λ ry g, ∀ cx, x ≤ cx < x + w →
                            tileAt (map g) cx ry = Some TILE_EMPTY));
      [apply carves_refl | apply carves_trans | | | done].
    + intros ry g1 g2 Hc Hcarve cx Hcx. eapply carves_empty; [done|]. by apply Hc.
    + intros ry g1 r1 Hry%elem_of_seqZ Hwf1.
      eapply post_mono.
      * apply (carveLine_cells (λ cx cy, x ≤ cx < x + w ∧ y ≤ cy < y + h)
                 _ (λ rx, (rx, ry))); [done|].
        intros c Hc%elem_of_seqZ. simpl. lia.
      * intros [] g2 r2 [Hcarve Hcells]. split_and!; [by eapply carves_wf|done|].
        intros cx Hcx. apply (Hcells cx). apply elem_of_seqZ. lia.
  - intros [] g' r' (_ & H1 & H2). split; [done|].
    intros cx cy Hcx Hcy. apply (H2 cy); [|done]. apply elem_of_seqZ. lia.
Qed.

(** ** The rooms *)

Lemma forEach_count {A} (I : Game → Prop) (n : Game → nat) (l : list A)
      (body : A → M unit) :
  (∀ a g r, a ∈ l → I g →
            post False (body a g r) (λ _ g' _, I g' ∧ n g' = S (n g))) →
  ∀ g r, I g →
    post False (forEach l body g r)
         (λ _ g' _, I g' ∧ n g' = (n g + length l)%nat).
Proof.
  induction l as [|a l IH]; intros Hbody g r HI.
  { simpl. split; [done | lia]. }
  cbn [forEach]. apply post_bind. eapply post_mono; [apply Hbody; [by left|done]|].
  intros [] g1 r1 (HI1 & Hn1). cbv beta.
  eapply post_mono.
  { apply IH; [|done]. intros b g2 r2 Hb. apply Hbody. by right. }
  intros [] g2 r2 (HI2 & Hn2). split; [done|]. cbn [length]. lia.
Qed.

Lemma placeRoom_rooms g r :
  carved g → rooms_carved g →
  post False (placeRoom g r) (λ _ g' _,
    (carved g' ∧ rooms_carved g') ∧ length (rooms g') = S (length (rooms g))).
Proof.
  intros Hc Hrc. unfold placeRoom.
  apply post_bind, randomInt_post; [unfold ROOM_MIN, ROOM_MAX; lia|]. intros w Hw.
  apply post_bind, randomInt_post; [unfold ROOM_MIN, ROOM_MAX; lia|]. intros h Hh.
  cbv beta.
  apply post_bind, randomInt_post;
    [unfold ROOM_MIN, ROOM_MAX, MAP_WIDTH in *; lia|]. intros x Hx.
  apply post_bind, randomInt_post;
    [unfold ROOM_MIN, ROOM_MAX, MAP_HEIGHT in *; lia|]. intros y Hy.
  cbv beta. apply post_bind, post_modify.
  set (g1 := set_rooms _ g).
  destruct Hc as (Hwf & Hrooms & Hempty & Hkinds).
  assert (Hc1 : carved g1).
  { split_and!; simpl; [done| |done|done].
    apply Forall_app. split; [done|]. apply Forall_singleton.
    unfold room_inside. simpl. lia. }
  eapply post_mono.
  { apply post_conj.
    - apply (carveRoom_post g1); [done|lia..].
    - apply (carveRoom_cells g1); [done|lia|unfold MAP_HEIGHT in *; lia]. }
  intros [] g' r' [Hc' [Hcarve Hrect]].
  pose proof (carves_rooms _ _ _ Hcarve) as Hrs. simpl in Hrs.
  split; [split; [done|]|].
  - intros rm cx cy Hrm Hin. rewrite Hrs in Hrm.
    apply elem_of_app in Hrm as [Hrm|Hrm%list_elem_of_singleton].
    + eapply carves_empty; [done|]. by apply (Hrc rm).
    + subst rm. destruct Hin as [Hcx Hcy]. simpl in *. by apply Hrect.
  - rewrite Hrs, length_app. simpl. lia.
Qed.

Lemma placeRooms_rooms g r :
  post False ((generateMap ;;; placeRooms) g r) (λ _ g' _,
    carved g' ∧ rooms_carved g' ∧
    ROOM_COUNT_MIN ≤ Z.of_nat (length (rooms g')) ≤ ROOM_COUNT_MAX).
Proof.
  apply post_bind, post_modify. unfold placeRooms. apply post_bind, post_modify.
  apply post_bind, randomInt_post; [unfold ROOM_COUNT_MIN, ROOM_COUNT_MAX; lia|].
  intros count Hcount.
  eapply post_mono.
  - apply (forEach_count (λ g, carved g ∧ rooms_carved g) (λ g, length (rooms g))).
    + intros _ g1 r1 _ [Hc Hrc]. by apply placeRoom_rooms.
    + split.
      * split_and!; simpl.
        -- apply grid_wf_wallGrid.
        -- constructor.
        -- intros x y. rewrite tileAt_wallGrid. by case_bool_decide.
        -- intros x y t. rewrite tileAt_wallGrid. case_bool_decide; [|done].
           intros [= <-]. by left.
      * intros rm x y Hrm. simpl in Hrm. by apply elem_of_nil in Hrm.
  - intros [] g' r' [[Hc Hrc] Hlen]. cbn [rooms set_rooms length] in Hlen.
    rewrite length_seqZ in Hlen. unfold ROOM_COUNT_MIN, ROOM_COUNT_MAX in *.
    split_and!; [done..| |]; lia.
Qed.

(** ** The corridors *)

Lemma centre_in c len : 1 ≤ len → c ≤ centre c len < c + len.
Proof.
  intros Hlen. unfold centre.
  assert (0 ≤ len `div` 2 < len) by (split; [apply Z.div_pos | apply Z.div_lt]; lia).
  lia.
Qed.

Lemma room_centre_interior rm :
  room_inside rm → interior (room_centre rm).1 (room_centre rm).2.
Proof.
  intros (Hw & Hh & Hx1 & Hx2 & Hy1 & Hy2). unfold room_centre, interior. cbn [fst snd].
  pose proof (centre_in (Room.x rm) (Room.w rm)).
  pose proof (centre_in (Room.y rm) (Room.h rm)).
  unfold ROOM_MIN in *. lia.
Qed.

Lemma carves_kinds S g g' : carves S g g' → two_kinds g → two_kinds g'.
Proof.
  intros [(_ & _ & Hc) _] Hk x y t Ht. destruct (Hc x y) as [Heq|Heq].
  - rewrite Heq in Ht. by eapply Hk.
  - right. congruence.
Qed.

Lemma carves_empty_row S g g' y :
  carves S g g' → empty_row (map g) y → empty_row (map g') y.
Proof. intros Hc [Hy Hrow]. split; [done|]. intros x Hx. eapply carves_empty; eauto. Qed.

Lemma carves_empty_column S g g' x :
  carves S g g' → empty_column (map g) x → empty_column (map g') x.
Proof. intros Hc [Hx Hcol]. split; [done|]. intros y Hy. eapply carves_empty; eauto. Qed.

Lemma spread_carves (S : Z → Z → Prop) g g' :
  carves S g g' → spread g →
  (∀ x y, S x y → interior x y ∨ empty_row (map g') y ∨ empty_column (map g') x) →
  spread g'.
Proof.
  intros Hc Hs HS x y He.
  destruct (decide (tileAt (map g') x y = tileAt (map g) x y)) as [Heq|Hne].
  - rewrite Heq in He. destruct (Hs x y He) as [H|[H|H]]; [by left| |].
    + right; left. by eapply carves_empty_row.
    + right; right. by eapply carves_empty_column.
  - apply HS. by apply Hc.
Qed.

Lemma connectRooms_cells rs i g r :
  grid_wf (map g) → rooms g = rs → Forall room_inside rs →
  (1 ≤ i < length rs)%nat →
  post False (connectRooms i g r)
       (λ _ g' _, carves interior g g' ∧ elbow_carved rs i g').
Proof.
  intros Hwf Hrs Hrooms Hi. unfold connectRooms. apply post_bind, post_get.
  rewrite Hrs.
  destruct (lookup_lt_is_Some_2 rs (i - 1)) as [r1 H1]; [lia|].
  destruct (lookup_lt_is_Some_2 rs i) as [r2 H2]; [lia|].
  rewrite H1, H2. cbv zeta.
  pose proof (room_centre_interior r1 (Forall_lookup_1 _ _ _ _ Hrooms H1)) as [Hx1 Hy1].
  pose proof (room_centre_interior r2 (Forall_lookup_1 _ _ _ _ Hrooms H2)) as [Hx2 Hy2].
  unfold room_centre in Hx1, Hy1, Hx2, Hy2. cbn [fst snd] in Hx1, Hy1, Hx2, Hy2.
  set (x1 := centre (Room.x r1) (Room.w r1)) in *.
  set (y1 := centre (Room.y r1) (Room.h r1)) in *.
  set (x2 := centre (Room.x r2) (Room.w r2)) in *.
  set (y2 := centre (Room.y r2) (Room.h r2)) in *.
  apply post_bind. eapply post_mono.
  { apply (carveLine_cells interior _ (λ x, (x, y1))); [done|].
    intros c Hc%elem_of_seqZ. unfold interior, MAP_HEIGHT, MAP_WIDTH in *.
    cbn [fst snd]. lia. }
  intros [] g1 r1' [Hc1 Hline1]. cbv beta.
  eapply post_mono.
  { apply (carveLine_cells interior _ (λ y, (x2, y))); [by eapply carves_wf|].
    intros c Hc%elem_of_seqZ. unfold interior, MAP_HEIGHT, MAP_WIDTH in *.
    cbn [fst snd]. lia. }
  intros [] g2 r2' [Hc2 Hline2]. cbn [fst snd] in *.
  split; [by eapply carves_trans|].
  intros r1'' r2'' x y H1' H2' Hel.
  assert (r1'' = r1) as -> by congruence. assert (r2'' = r2) as -> by congruence.
  unfold on_elbow, room_centre in Hel. cbn [fst snd] in Hel.
  fold x1 y1 x2 y2 in Hel.
  destruct Hel as [[-> Hx]|[-> Hy]].
  - eapply carves_empty; [done|]. apply (Hline1 x). apply elem_of_seqZ. lia.
  - apply (Hline2 y). apply elem_of_seqZ. lia.
Qed.

Lemma carveCorridors_layout g r :
  carved g → rooms_carved g →
  post False (carveCorridors g r) (λ _ g' _,
    carves (λ _ _, True) g g' ∧ two_kinds g' ∧ spread g' ∧
    (∀ i, (1 ≤ i < length (rooms g))%nat → elbow_carved (rooms g) i g') ∧
    (∃ y, empty_row (map g') y) ∧ (∃ x, empty_column (map g') x)).
Proof.
  intros (Hwf & Hrooms & Hempty & Hkinds) Hrc.
  unfold carveCorridors. apply post_bind, post_get.
  set (R := carves (λ _ _ : Z, True)).
  assert (Hrefl : ∀ I : Game → Prop, (∀ g1, I g1 → grid_wf (map g1)) →
                                     ∀ g1, I g1 → R g1 g1).
  { intros I HI g1 Hg1. apply carves_refl. by apply HI. }
  apply post_bind. eapply post_mono.
  { apply (forEach_each
             (λ g1, grid_wf (map g1) ∧ rooms g1 = rooms g ∧ two_kinds g1 ∧ spread g1)
             R (λ i g1, elbow_carved (rooms g) i g1)).
    - apply Hrefl. by intros g1 [? _].
    - apply carves_trans.
    - intros i g1 g2 HK Hc r1 r2 x y H1 H2 Hel.
      eapply carves_empty; [done|]. by eapply HK.
    - intros i g1 r1 Hi%elem_of_seq (Hwf1 & Hrs1 & Hk1 & Hs1).
      eapply post_mono.
      { apply (connectRooms_cells (rooms g)); [done..|lia]. }
      intros [] g2 r2 [Hc2 Hel2]. split_and!.
      + by eapply carves_wf.
      + by rewrite (carves_rooms _ _ _ Hc2).
      + by eapply carves_kinds.
      + eapply spread_carves; [done..|]. intros x y Hin. by left.
      + eapply carves_mono; [|done]. done.
      + done.
    - split_and!; [done..|]. intros x y He. left. by apply Hempty. }
  intros [] g1 r1 ((Hwf1 & Hrs1 & Hk1 & Hs1) & HR1 & Hel1).
  apply post_bind, randomInt_post; [unfold CORRIDOR_MIN, CORRIDOR_MAX; lia|].
  intros hCount HhCount.
  apply post_bind, randomInt_post; [unfold CORRIDOR_MIN, CORRIDOR_MAX; lia|].
  intros vCount HvCount. cbv beta.
  apply post_bind. eapply post_mono.
  { apply (forEach_each (λ g2, grid_wf (map g2) ∧ two_kinds g2 ∧ spread g2)
             R (λ _ g2, ∃ y, empty_row (map g2) y)).
    - apply Hrefl. by intros g2 [? _].
    - apply carves_trans.
    - intros _ g2 g3 [y Hy] Hc. exists y. by eapply carves_empty_row.
    - intros _ g2 r2 _ (Hwf2 & Hk2 & Hs2).
      apply post_bind, randomInt_post; [unfold MAP_HEIGHT; lia|]. intros y Hy. cbv beta.
      eapply post_mono.
      { apply (carveLine_cells (λ _ cy, cy = y) _ (λ x, (x, y))); [done|].
        intros c _. cbn [fst snd]. split; [lia|done]. }
      intros [] g3 r3 [Hc3 Hline3]. cbn [fst snd] in Hline3.
      assert (Hrow : empty_row (map g3) y).
      { split; [done|]. intros x Hx. apply Hline3. apply elem_of_seqZ. lia. }
      split_and!.
      + by eapply carves_wf.
      + by eapply carves_kinds.
      + eapply spread_carves; [done..|]. intros x cy ->. right. by left.
      + eapply carves_mono; [|done]. done.
      + by exists y.
    - done. }
  intros [] g2 r2 ((Hwf2 & Hk2 & Hs2) & HR2 & Hrow2).
  eapply post_mono.
  { apply (forEach_each (λ g3, grid_wf (map g3) ∧ two_kinds g3 ∧ spread g3)
             R (λ _ g3, ∃ x, empty_column (map g3) x)).
    - apply Hrefl. by intros g3 [? _].
    - apply carves_trans.
    - intros _ g3 g4 [x Hx] Hc. exists x. by eapply carves_empty_column.
    - intros _ g3 r3 _ (Hwf3 & Hk3 & Hs3).
      apply post_bind, randomInt_post; [unfold MAP_WIDTH; lia|]. intros x Hx. cbv beta.
      eapply post_mono.
      { apply (carveLine_cells (λ cx _, cx = x) _ (λ y, (x, y))); [done|].
        intros c Hc%elem_of_seqZ. cbn [fst snd]. split; [lia|done]. }
      intros [] g4 r4 [Hc4 Hline4]. cbn [fst snd] in Hline4.
      assert (Hcol : empty_column (map g4) x).
      { split; [done|]. intros y Hy. apply Hline4. apply elem_of_seqZ. lia. }
      split_and!.
      + by eapply carves_wf.
      + by eapply carves_kinds.
      + eapply spread_carves; [done..|]. intros cx y ->. right. by right.
      + eapply carves_mono; [|done]. done.
      + by exists x.
    - done. }
  intros [] g3 r3 ((Hwf3 & Hk3 & Hs3) & HR3 & Hcol3).
  assert (HR13 : R g1 g3) by (by eapply carves_trans).
  split_and!.
  - exact (carves_trans _ _ _ _ HR1 HR13).
  - exact Hk3.
  - exact Hs3.
  - intros i Hi r1' r2' x y H1 H2 Hel.
    eapply carves_empty; [exact HR13|]. eapply (Hel1 i); [|done..].
    apply elem_of_seq. lia.
  - destruct (Hrow2 0) as [y Hy]; [apply elem_of_seqZ; unfold CORRIDOR_MIN in *; lia|].
    exists y. exact (carves_empty_row _ _ _ _ HR3 Hy).
  - destruct (Hcol3 0) as [x Hx]; [apply elem_of_seqZ; unfold CORRIDOR_MIN in *; lia|].
    by exists x.
Qed.

(** ** The layout of every reachable state *)

Lemma Layout_ext rs m m' :
  (∀ x y, open_at m' x y ↔ open_at m x y) → Layout rs m → Layout rs m'.
Proof.
  intros Hiff [Hcount Hin Hrooms Helbows [y [Hy Hrow]] [x [Hx Hcol]] Hborder].
  assert (Hfr : ∀ y0, full_row m y0 → full_row m' y0)
    by (intros y0 H x0 Hx0; by apply Hiff, H).
  assert (Hfc : ∀ x0, full_column m x0 → full_column m' x0)
    by (intros x0 H y0 Hy0; by apply Hiff, H).
  split; [done|done| | | | |].
  - intros rm cx cy Hrm Hcell. apply Hiff. exact (Hrooms rm cx cy Hrm Hcell).
  - intros i r1 r2 cx cy H1 H2 Hel. apply Hiff.
    exact (Helbows i r1 r2 cx cy H1 H2 Hel).
  - exists y. split; [done|]. by apply Hfr.
  - exists x. split; [done|]. by apply Hfc.
  - intros cx cy Hcell Hopen%Hiff.
    destruct (Hborder cx cy Hcell Hopen) as [H|[[H1 H2]|[H1 H2]]]; [by left| |].
    + right; left. split; [done|]. by apply Hfr.
    + right; right. split; [done|]. by apply Hfc.
Qed.

Lemma empty_open m x y : tileAt m x y = Some TILE_EMPTY → open_at m x y.
Proof. intros H. by exists TILE_EMPTY. Qed.

Lemma carved_Layout g :
  two_kinds g → spread g → rooms_carved g → Forall room_inside (rooms g) →
  ROOM_COUNT_MIN ≤ Z.of_nat (length (rooms g)) ≤ ROOM_COUNT_MAX →
  (∀ i, (1 ≤ i < length (rooms g))%nat → elbow_carved (rooms g) i g) →
  (∃ y, empty_row (map g) y) → (∃ x, empty_column (map g) x) →
  Layout (rooms g) (map g).
Proof.
  intros Hk Hs Hrc Hin Hcount Hel [y [Hy Hrow]] [x [Hx Hcol]].
  assert (Hfr : ∀ y0, empty_row (map g) y0 →
                      1 ≤ y0 ≤ MAP_HEIGHT - 2 ∧ full_row (map g) y0).
  { intros y0 [H1 H2]. split; [done|]. intros x0 Hx0. by apply empty_open, H2. }
  assert (Hfc : ∀ x0, empty_column (map g) x0 →
                      1 ≤ x0 ≤ MAP_WIDTH - 2 ∧ full_column (map g) x0).
  { intros x0 [H1 H2]. split; [done|]. intros y0 Hy0. by apply empty_open, H2. }
  split; [done|done| | | | |].
  - intros rm cx cy Hrm Hcell. apply empty_open. exact (Hrc rm cx cy Hrm Hcell).
  - intros i r1 r2 cx cy H1 H2 Hon. apply empty_open.
    refine (Hel (S i) _ r1 r2 cx cy _ H2 Hon).
    + apply lookup_lt_Some in H2. lia.
    + by replace (S i - 1)%nat with i by lia.
  - exists y. by apply Hfr.
  - exists x. by apply Hfc.
  - intros cx cy _ (t & Ht & Hopen).
    destruct (Hk cx cy t Ht) as [->| ->]; [done|].
    destruct (Hs cx cy Ht) as [H|[H|H]]; [by left| |].
    + right; left. by apply Hfr.
    + right; right. by apply Hfc.
Qed.

Lemma scattered_open tile n g g' :
  tile ≠ TILE_WALL → scattered tile n g g' →
  ∀ x y, open_at (map g') x y ↔ open_at (map g) x y.
Proof.
  intros Htile (_ & _ & _ & _ & Hchg) x y.
  destruct (decide (tileAt (map g') x y = tileAt (map g) x y)) as [Heq|Hne].
  - unfold open_at. by rewrite Heq.
  - destruct (Hchg x y Hne) as (_ & Hold & Hnew & _). split; intros _.
    + by apply empty_open.
    + by exists tile.
Qed.

Lemma init_Layout fuel g r :
  post True (init fuel g r) (λ _ g' _, Layout (rooms g') (map g')).
Proof.
  unfold init.
  do 3 apply post_bind, post_modify.
  set (g1 := set_flags _ _ _). clearbody g1.
  pose proof (placeRooms_rooms g1 r) as Hrooms.
  apply post_Ok in Hrooms as ([] & g3 & r3 & Heq3 & Hc3 & Hrc3 & Hcount3); [|tauto].
  unfold generateMap. apply post_bind, post_modify.
  eapply post_bind_eq; [exact Heq3|]. clear Heq3.
  apply post_bind. eapply post_mono.
  { apply post_weaken. by apply carveCorridors_layout. }
  intros [] g4 r4 (Hcarve & Hk4 & Hs4 & Hel4 & Hrow4 & Hcol4).
  pose proof (carves_rooms _ _ _ Hcarve) as Hrs4.
  pose proof (carves_wf _ _ _ Hcarve) as Hwf4.
  assert (HL4 : Layout (rooms g4) (map g4)).
  { apply carved_Layout; rewrite ?Hrs4; try done.
    - intros rm x y Hrm Hcell. rewrite Hrs4 in Hrm.
      eapply carves_empty; [done|]. exact (Hrc3 rm x y Hrm Hcell).
    - apply Hc3. }
  clear Hk4 Hs4 Hel4 Hrow4 Hcol4 Hcarve Hrs4 Hc3 Hrc3 Hcount3.
  apply post_bind. eapply post_mono; [by apply placeHero_post|].
  intros [] g5 r5 (hx & hy & _ & _ & ->).
  apply post_bind. unfold placeItems. apply post_bind. eapply post_mono.
  { by apply (scatter_post TILE_SWORD 2 fuel 0). }
  intros [] g6 r6 Hsc6.
  eapply post_mono.
  { apply (scatter_post TILE_POTION 10 fuel 0); [apply Hsc6|lia|done]. }
  intros [] g7 r7 Hsc7.
  eapply post_mono; [apply placeEnemies_post; apply Hsc7|].
  intros [] g8 r8 [Heq8 _].
  assert (Hsword : TILE_SWORD ≠ TILE_WALL) by done.
  assert (Hpotion : TILE_POTION ≠ TILE_WALL) by done.
  pose proof (scattered_open _ _ _ _ Hsword Hsc6) as Ho6.
  pose proof (scattered_open _ _ _ _ Hpotion Hsc7) as Ho7.
  destruct Hsc6 as (_ & Heq6 & _). destruct Hsc7 as (_ & Heq7 & _).
  assert (Hr8 : rooms g8 = rooms g4).
  { rewrite Heq8. simpl. rewrite Heq7. simpl. rewrite Heq6. done. }
  assert (Hm8 : map g8 = map g7) by (by rewrite Heq8).
  rewrite Hr8, Hm8. eapply Layout_ext; [|exact HL4].
  intros x y. rewrite Ho7, Ho6. done.
Qed.

Lemma key_frame_open key g g' :
  key_frame key g g' → ∀ x y, open_at (map g') x y ↔ open_at (map g) x y.
Proof.
  intros (_ & Ht & _) x y.
  destruct (Ht x y) as [Heq | (_ & Hnew & Hold)].
  - unfold open_at. by rewrite Heq.
  - split; intros _.
    + destruct Hold as [Hold|Hold]; eexists; (split; [exact Hold | done]).
    + by apply empty_open.
Qed.

Lemma reachable_Layout g : reachable g → Layout (rooms g) (map g).
Proof.
  induction 1 as [g0 r0 fuel g r Hinit|g key r0 g' r Hg IH Hstep|g key r0 g' r Hg IH Hstep].
  - pose proof (init_Layout fuel g0 r0) as Hpost. rewrite Hinit in Hpost. apply Hpost.
  - pose proof (handled_step _ key g r0 g' r
                  (handleInput_frame key g r0 (reachable_Inv g Hg)) Hstep) as Hfr.
    destruct Hfr as (Hr & Hrest). rewrite Hr.
    eapply Layout_ext; [|exact IH]. by apply (key_frame_open key), (conj Hr).
  - by destruct (handled_throw _ key g r0 g' r
                   (handleInput_frame key g r0 (reachable_Inv g Hg)) Hstep)
      as (_ & _ & -> & _).
Qed.

(** ** Paths of open cells *)

Lemma linked_open_l m p q : linked m p q → open_at m p.1 p.2.
Proof. induction 1; done. Qed.

Lemma linked_open_r m p q : linked m p q → open_at m q.1 q.2.
Proof. by destruct 1. Qed.

Lemma linked_trans m p q s : linked m p q → linked m q s → linked m p s.
Proof.
  intros Hpq Hqs. induction Hqs as [q Hq|q s t Hqs IH Hst Ht]; [done|].
  eapply linked_step; [by apply IH|done..].
Qed.

Lemma beside_sym p q : beside p q → beside q p.
Proof. unfold beside. lia. Qed.

Lemma linked_sym m p q : linked m p q → linked m q p.
Proof.
  induction 1 as [p Hp|p q s Hpq IH Hqs Hs]; [by apply linked_refl|].
  eapply linked_trans; [|exact IH].
  eapply linked_step; [by apply linked_refl|by apply beside_sym|].
  by eapply linked_open_r.
Qed.

(** A straight run of open cells from [(x, y)] in the direction [(dx, dy)]. *)
Lemma linked_run m x y dx dy (n : nat) :
  Z.abs dx + Z.abs dy = 1 →
  (∀ k, 0 ≤ k ≤ Z.of_nat n → open_at m (x + k * dx) (y + k * dy)) →
  linked m (x, y) (x + Z.of_nat n * dx, y + Z.of_nat n * dy).
Proof.
  intros Hd. induction n as [|n IH]; intros Hopen.
  { replace (x + Z.of_nat 0 * dx) with x by lia.
    replace (y + Z.of_nat 0 * dy) with y by lia.
    apply linked_refl. cbn [fst snd].
    specialize (Hopen 0). replace (x + 0 * dx) with x in Hopen by lia.
    replace (y + 0 * dy) with y in Hopen by lia. apply Hopen. lia. }
  eapply linked_step.
  - apply IH. intros k Hk. apply Hopen. lia.
  - unfold beside. cbn [fst snd]. lia.
  - cbn [fst snd]. apply Hopen. lia.
Qed.

Lemma linked_row m y x1 x2 :
  (∀ x, x1 `min` x2 ≤ x ≤ x1 `max` x2 → open_at m x y) →
  linked m (x1, y) (x2, y).
Proof.
  intros Hopen. destruct (decide (x1 ≤ x2)) as [Hle|Hgt].
  - pose proof (linked_run m x1 y 1 0 (Z.to_nat (x2 - x1)) eq_refl) as H.
    replace (x1 + Z.of_nat (Z.to_nat (x2 - x1)) * 1) with x2 in H by lia.
    replace (y + Z.of_nat (Z.to_nat (x2 - x1)) * 0) with y in H by lia.
    apply H. intros k Hk. replace (y + k * 0) with y by lia. apply Hopen. lia.
  - pose proof (linked_run m x1 y (-1) 0 (Z.to_nat (x1 - x2)) eq_refl) as H.
    replace (x1 + Z.of_nat (Z.to_nat (x1 - x2)) * -1) with x2 in H by lia.
    replace (y + Z.of_nat (Z.to_nat (x1 - x2)) * 0) with y in H by lia.
    apply H. intros k Hk. replace (y + k * 0) with y by lia. apply Hopen. lia.
Qed.

Lemma linked_column m x y1 y2 :
  (∀ y, y1 `min` y2 ≤ y ≤ y1 `max` y2 → open_at m x y) →
  linked m (x, y1) (x, y2).
Proof.
  intros Hopen. destruct (decide (y1 ≤ y2)) as [Hle|Hgt].
  - pose proof (linked_run m x y1 0 1 (Z.to_nat (y2 - y1)) eq_refl) as H.
    replace (y1 + Z.of_nat (Z.to_nat (y2 - y1)) * 1) with y2 in H by lia.
    replace (x + Z.of_nat (Z.to_nat (y2 - y1)) * 0) with x in H by lia.
    apply H. intros k Hk. replace (x + k * 0) with x by lia. apply Hopen. lia.
  - pose proof (linked_run m x y1 0 (-1) (Z.to_nat (y1 - y2)) eq_refl) as H.
    replace (y1 + Z.of_nat (Z.to_nat (y1 - y2)) * -1) with y2 in H by lia.
    replace (x + Z.of_nat (Z.to_nat (y1 - y2)) * 0) with x in H by lia.
    apply H. intros k Hk. replace (x + k * 0) with x by lia. apply Hopen. lia.
Qed.

(** Along a row, then along a column. *)
Lemma linked_elbow m p q :
  (∀ x, p.1 `min` q.1 ≤ x ≤ p.1 `max` q.1 → open_at m x p.2) →
  (∀ y, p.2 `min` q.2 ≤ y ≤ p.2 `max` q.2 → open_at m q.1 y) →
  linked m p q.
Proof.
  destruct p as [px py], q as [qx qy]. cbn [fst snd]. intros Hrow Hcol.
  eapply linked_trans; [by apply linked_row | by apply linked_column].
Qed.

Lemma room_centre_in_room rm :
  room_inside rm → in_room rm (room_centre rm).1 (room_centre rm).2.
Proof.
  intros (Hw & Hh & _). unfold in_room, room_centre. cbn [fst snd].
  pose proof (centre_in (Room.x rm) (Room.w rm)).
  pose proof (centre_in (Room.y rm) (Room.h rm)).
  unfold ROOM_MIN in *. lia.
Qed.

Section Linked.
Context (rs : list Room.t) (m : Grid).
Hypothesis HL : Layout rs m.

Lemma linked_in_room rm p q :
  rm ∈ rs → in_room rm p.1 p.2 → in_room rm q.1 q.2 → linked m p q.
Proof.
  intros Hrm [Hpx Hpy] [Hqx Hqy]. apply linked_elbow.
  - intros x Hx. apply (layout_rooms _ _ HL rm); [done|]. split; lia.
  - intros y Hy. apply (layout_rooms _ _ HL rm); [done|]. split; lia.
Qed.

Lemma linked_next i r1 r2 :
  rs !! i = Some r1 → rs !! S i = Some r2 →
  linked m (room_centre r1) (room_centre r2).
Proof.
  intros H1 H2. apply linked_elbow.
  - intros x Hx. apply (layout_elbows _ _ HL i r1 r2); [done..|]. by left.
  - intros y Hy. apply (layout_elbows _ _ HL i r1 r2); [done..|]. by right.
Qed.

Lemma linked_chain (k i : nat) r1 r2 :
  rs !! i = Some r1 → rs !! (i + k)%nat = Some r2 →
  linked m (room_centre r1) (room_centre r2).
Proof.
  revert r2. induction k as [|k IH]; intros r2 H1 H2.
  - rewrite Nat.add_0_r in H2. assert (r2 = r1) as -> by congruence.
    apply linked_refl. apply (layout_rooms _ _ HL r1).
    + by eapply list_elem_of_lookup_2.
    + apply room_centre_in_room.
      exact (Forall_lookup_1 _ _ _ _ (layout_inside _ _ HL) H1).
  - destruct (lookup_lt_is_Some_2 rs (i + k)) as [r' H'].
    { apply lookup_lt_Some in H2. lia. }
    eapply linked_trans; [by apply IH|].
    apply (linked_next (i + k)); [done|]. by rewrite <- Nat.add_succ_r.
Qed.

Lemma linked_centres r1 r2 :
  r1 ∈ rs → r2 ∈ rs → linked m (room_centre r1) (room_centre r2).
Proof.
  intros [i H1]%list_elem_of_lookup [j H2]%list_elem_of_lookup.
  destruct (decide (i ≤ j)%nat) as [Hle|Hgt].
  - apply (linked_chain (j - i) i); [done|]. by replace (i + (j - i))%nat with j by lia.
  - apply linked_sym. apply (linked_chain (i - j) j); [done|].
    by replace (j + (i - j))%nat with i by lia.
Qed.

Lemma linked_rooms r1 r2 p q :
  r1 ∈ rs → r2 ∈ rs → in_room r1 p.1 p.2 → in_room r2 q.1 q.2 → linked m p q.
Proof.
  intros Hr1 Hr2 Hp Hq.
  pose proof (layout_inside _ _ HL) as Hin. rewrite Forall_forall in Hin.
  eapply linked_trans; [|eapply linked_trans].
  - apply (linked_in_room r1 p (room_centre r1)); [done..|].
    by apply room_centre_in_room, Hin.
  - by apply (linked_centres r1 r2).
  - apply (linked_in_room r2 (room_centre r2) q); [done| |done].
    by apply room_centre_in_room, Hin.
Qed.

End Linked.

(** X12.  In every reachable state, as left by map generation and never
    undone afterwards: between [ROOM_COUNT_MIN] and [ROOM_COUNT_MAX] rooms
    are recorded, each of a size in [[ROOM_MIN, ROOM_MAX]] and within the
    interior of the grid; no cell of a room and no cell of the corridor
    carved from a room to the next one holds a Wall; and at least one row
    and one column, none of them on the border, hold no Wall from edge to
    edge. *)
Theorem rooms_and_corridors_stay_open g :
  reachable g →
  (ROOM_COUNT_MIN ≤ Z.of_nat (length (rooms g)) ≤ ROOM_COUNT_MAX) ∧
  (∀ rm, rm ∈ rooms g →
         room_inside rm ∧ ∀ x y, in_room rm x y → open_at (map g) x y) ∧
  (∀ i r1 r2 x y, rooms g !! i = Some r1 → rooms g !! S i = Some r2 →
                  on_elbow r1 r2 x y → open_at (map g) x y) ∧
  (∃ y, 1 ≤ y ≤ MAP_HEIGHT - 2 ∧ full_row (map g) y) ∧
  (∃ x, 1 ≤ x ≤ MAP_WIDTH - 2 ∧ full_column (map g) x).
Proof.
  intros [Hcount Hin Hrooms Helbows Hrow Hcol _]%reachable_Layout.
  split_and!; [apply Hcount..| |done|done|done].
  intros rm Hrm. split.
  - rewrite Forall_forall in Hin. by apply Hin.
  - intros x y Hcell. exact (Hrooms rm x y Hrm Hcell).
Qed.

Lemma rooms_and_corridors_stay_open_demo :
  (ROOM_COUNT_MIN ≤ Z.of_nat (length (rooms demo_start)) ≤ ROOM_COUNT_MAX) ∧
  (∀ rm, rm ∈ rooms demo_start →
         room_inside rm ∧ ∀ x y, in_room rm x y → open_at (map demo_start) x y) ∧
  (∀ i r1 r2 x y, rooms demo_start !! i = Some r1 →
                  rooms demo_start !! S i = Some r2 →
                  on_elbow r1 r2 x y → open_at (map demo_start) x y) ∧
  (∃ y, 1 ≤ y ≤ MAP_HEIGHT - 2 ∧ full_row (map demo_start) y) ∧
  (∃ x, 1 ≤ x ≤ MAP_WIDTH - 2 ∧ full_column (map demo_start) x).
Proof.
  apply (rooms_and_corridors_stay_open demo_start).
  apply (reach_init blank (rng_of demo_draws) 10 _
           (rng_after (init 10 blank (rng_of demo_draws)))).
  apply returns_eq; vm_compute; reflexivity.
Defined.

(** X13.  In every reachable state a cell on the west or east edge of the
    grid holds no Wall only if its whole row holds none, and a cell on the
    north or south edge only if its whole column holds none; such a row is
    not the first or last one and such a column not the first or last one,
    so the four corners are Walls.  A wrapped step therefore never leads
    from an edge cell into a Wall. *)
Theorem edge_openings_are_full_corridors g :
  reachable g →
  (∀ x y, in_grid x y → open_at (map g) x y →
     (x = 0 ∨ x = MAP_WIDTH - 1 → 1 ≤ y ≤ MAP_HEIGHT - 2 ∧ full_row (map g) y) ∧
     (y = 0 ∨ y = MAP_HEIGHT - 1 → 1 ≤ x ≤ MAP_WIDTH - 2 ∧ full_column (map g) x)) ∧
  (∀ x y, (x = 0 ∨ x = MAP_WIDTH - 1) → (y = 0 ∨ y = MAP_HEIGHT - 1) →
          tileAt (map g) x y = Some TILE_WALL).
Proof.
  intros Hg. pose proof (reachable_Layout g Hg) as HL.
  pose proof (reachable_Inv g Hg) as [HB _].
  assert (Hedge : ∀ x y, in_grid x y → open_at (map g) x y →
     (x = 0 ∨ x = MAP_WIDTH - 1 → 1 ≤ y ≤ MAP_HEIGHT - 2 ∧ full_row (map g) y) ∧
     (y = 0 ∨ y = MAP_HEIGHT - 1 → 1 ≤ x ≤ MAP_WIDTH - 2 ∧ full_column (map g) x)).
  { intros x y Hcell Hopen.
    destruct (layout_border _ _ HL x y Hcell Hopen)
      as [[Hx Hy]|[[Hr Hrow]|[Hc Hcol]]];
      unfold MAP_WIDTH, MAP_HEIGHT in *; split; intros Hon;
      try (split; [exact Hr | exact Hrow]); try (split; [exact Hc | exact Hcol]);
      lia. }
  split; [done|]. intros x y Hx Hy.
  assert (Hcell : in_grid x y) by (unfold in_grid, MAP_WIDTH, MAP_HEIGHT in *; lia).
  destruct (base_grid _ HB x y Hcell) as [t Ht]. rewrite Ht. f_equal.
  destruct (decide (t = TILE_WALL)) as [|Hne]; [done|].
  destruct (Hedge x y Hcell) as [Hrow _]; [by exists t|].
  destruct (Hrow Hx) as [Hrange _]. unfold MAP_HEIGHT in *. lia.
Qed.

Lemma edge_openings_are_full_corridors_demo :
  (∀ x y, in_grid x y → open_at (map demo_start) x y →
     (x = 0 ∨ x = MAP_WIDTH - 1 →
      1 ≤ y ≤ MAP_HEIGHT - 2 ∧ full_row (map demo_start) y) ∧
     (y = 0 ∨ y = MAP_HEIGHT - 1 →
      1 ≤ x ≤ MAP_WIDTH - 2 ∧ full_column (map demo_start) x)) ∧
  (∀ x y, (x = 0 ∨ x = MAP_WIDTH - 1) → (y = 0 ∨ y = MAP_HEIGHT - 1) →
          tileAt (map demo_start) x y = Some TILE_WALL).
Proof.
  apply (edge_openings_are_full_corridors demo_start).
  apply (reach_init blank (rng_of demo_draws) 10 _
           (rng_after (init 10 blank (rng_of demo_draws)))).
  apply returns_eq; vm_compute; reflexivity.
Defined.

(** X14.  In every reachable state every cell of every room is linked to
    every cell of every other room by a path of cells that hold no Wall,
    each orthogonally next to the following one, without any wrap-around:
    the corridors that [carveCorridors] carves from each room to the next
    connect all the rooms. *)
Theorem rooms_are_mutually_linked g r1 r2 p q :
  reachable g → r1 ∈ rooms g → r2 ∈ rooms g →
  in_room r1 p.1 p.2 → in_room r2 q.1 q.2 → linked (map g) p q.
Proof.
  intros HL%reachable_Layout. by apply (linked_rooms (rooms g)).
Qed.

Lemma rooms_are_mutually_linked_demo :
  linked (map demo_start) (5, 4) (7, 6).
Proof.
  apply (rooms_are_mutually_linked demo_start (Room.mk 5 4 3 3) (Room.mk 5 4 3 3)
           (5, 4) (7, 6)).
  - apply (reach_init blank (rng_of demo_draws) 10 _
             (rng_after (init 10 blank (rng_of demo_draws)))).
    apply returns_eq; vm_compute; reflexivity.
  - apply (bool_decide_unpack _). vm_compute. exact I.
  - apply (bool_decide_unpack _). vm_compute. exact I.
  - vm_compute. repeat split; discriminate.
  - vm_compute. repeat split; discriminate.
Defined.

(** ** What [init] reads of the previous state: nothing *)

Lemma rel_ret {A B} (π : Game → B) (a : A) : rel π π (ret a) (ret a).
Proof. intros g g' r H. simpl. done. Qed.

Lemma rel_throw {A B C} (π : Game → B) (π' : Game → C) :
  rel π π' (throw (A := A)) throw.
Proof. intros g g' r H. done. Qed.

Lemma rel_spin {A B C} (π : Game → B) (π' : Game → C) :
  rel π π' (spin (A := A)) spin.
Proof. intros g g' r H. done. Qed.

Lemma rel_bind {A A' B C D} (π : Game → B) (π1 : Game → C) (π2 : Game → D)
      (m m' : M A) (k k' : A → M A') :
  rel π π1 m m' → (∀ a, rel π1 π2 (k a) (k' a)) →
  rel π π2 (bind m k) (bind m' k').
Proof.
  intros Hm Hk g g' r H. unfold bind. specialize (Hm g g' r H).
  destruct (m g r) as [a g1 r1| |], (m' g' r) as [a' g1' r1'| |]; try done.
  destruct Hm as (-> & -> & H1). by apply Hk.
Qed.

Lemma rel_get {A B C} (π : Game → B) (π' : Game → C) (k k' : Game → M A) :
  (∀ g0 g0', π g0 = π g0' → rel π π' (k g0) (k' g0')) →
  rel π π' (bind get k) (bind get k').
Proof. intros Hk g g' r H. unfold bind, get. by apply Hk. Qed.

Lemma rel_modify {B C} (π : Game → B) (π' : Game → C) (f f' : Game → Game) :
  (∀ g g', π g = π g' → π' (f g) = π' (f' g')) → rel π π' (modify f) (modify f').
Proof. intros Hf g g' r H. simpl. split_and!; [done..|]. by apply Hf. Qed.

Lemma rel_randomInt {B} (π : Game → B) lo hi :
  rel π π (randomInt lo hi) (randomInt lo hi).
Proof. intros g g' r H. simpl. done. Qed.

Lemma rel_forEach {A B} (π : Game → B) (l : list A) (body body' : A → M unit) :
  (∀ a, rel π π (body a) (body' a)) → rel π π (forEach l body) (forEach l body').
Proof.
  intros Hbody. induction l as [|a l IH]; [apply rel_ret|].
  cbn [forEach]. apply (rel_bind π π π); [apply Hbody | by intros _].
Qed.

Lemma rel_same {A} (m : M A) : rel id id m m.
Proof.
  intros g g' r H. simpl in H. subst g'.
  by destruct (m g r) as [a g1 r1| |].
Qed.

Section Tiles.
Context {B : Type} (π : Game → B).
Hypothesis π_map : ∀ g g', π g = π g' → map g = map g'.
Hypothesis π_set_map : ∀ m g g', π g = π g' → π (set_map m g) = π (set_map m g').

Lemma rel_readTile y x : rel π π (readTile y x) (readTile y x).
Proof.
  apply rel_get. intros g0 g0' H0. rewrite (π_map _ _ H0).
  destruct (map g0' !! y); [apply rel_ret | apply rel_throw].
Qed.

Lemma rel_writeTile y x t : rel π π (writeTile y x t) (writeTile y x t).
Proof.
  apply rel_get. intros g0 g0' H0. rewrite (π_map _ _ H0).
  destruct (map g0' !! y); [|apply rel_throw].
  apply rel_modify. apply π_set_map.
Qed.

End Tiles.

Lemma terrain_map g g' : terrain g = terrain g' → map g = map g'.
Proof. by intros [= ? _]. Qed.

Lemma terrain_set_map m g g' :
  terrain g = terrain g' → terrain (set_map m g) = terrain (set_map m g').
Proof. unfold terrain, counters. simpl. by intros [= _ -> -> -> -> ->]. Qed.

Lemma terrain_hero_map g g' : terrain_hero g = terrain_hero g' → map g = map g'.
Proof. by intros [= ? _]. Qed.

Lemma terrain_hero_set_map m g g' :
  terrain_hero g = terrain_hero g' →
  terrain_hero (set_map m g) = terrain_hero (set_map m g').
Proof.
  unfold terrain_hero, terrain, counters. simpl. by intros [= _ -> -> -> -> -> ->].
Qed.

Lemma rel_placeRooms :
  rel (λ g, (map g, counters g)) terrain placeRooms placeRooms.
Proof.
  unfold placeRooms. apply (rel_bind _ terrain).
  { apply rel_modify. intros g g'. unfold terrain, counters. simpl.
    by intros [= -> -> -> -> ->]. }
  intros _. apply (rel_bind _ terrain); [apply rel_randomInt|]. intros count.
  apply rel_forEach. intros _. unfold placeRoom.
  repeat (apply (rel_bind _ terrain); [apply rel_randomInt|]; intros ?).
  apply (rel_bind _ terrain).
  { apply rel_modify. intros g g'. unfold terrain, counters. simpl.
    by intros [= -> -> -> -> -> ->]. }
  intros _. unfold carveRoom. apply rel_forEach. intros ry.
  apply rel_forEach. intros rx.
  apply rel_writeTile; [apply terrain_map | apply terrain_set_map].
Qed.

Lemma rel_carveCorridors : rel terrain terrain carveCorridors carveCorridors.
Proof.
  assert (Hw : ∀ y x t, rel terrain terrain (writeTile y x t) (writeTile y x t)).
  { intros. apply rel_writeTile; [apply terrain_map | apply terrain_set_map]. }
  unfold carveCorridors. apply rel_get. intros g0 g0' H0.
  assert (Hrs : rooms g0 = rooms g0') by (by injection H0). rewrite Hrs.
  apply (rel_bind _ terrain).
  { apply rel_forEach. intros i. unfold connectRooms.
    apply rel_get. intros g1 g1' H1.
    assert (Hrs1 : rooms g1 = rooms g1') by (by injection H1). rewrite Hrs1.
    destruct (rooms g1' !! (i - 1)%nat); [|apply rel_throw].
    destruct (rooms g1' !! i); [|apply rel_throw].
    apply (rel_bind _ terrain); [by apply rel_forEach|]. intros _.
    by apply rel_forEach. }
  intros _. apply (rel_bind _ terrain); [apply rel_randomInt|]. intros hCount.
  apply (rel_bind _ terrain); [apply rel_randomInt|]. intros vCount.
  apply (rel_bind _ terrain).
  { apply rel_forEach. intros _.
    apply (rel_bind _ terrain); [apply rel_randomInt|]. intros y.
    by apply rel_forEach. }
  intros _. apply rel_forEach. intros _.
  apply (rel_bind _ terrain); [apply rel_randomInt|]. intros x.
  by apply rel_forEach.
Qed.

Lemma rel_placeHero fuel :
  rel terrain terrain_hero (placeHero fuel) (placeHero fuel).
Proof.
  unfold placeHero. apply (rel_bind _ terrain_hero).
  { apply rel_modify. intros g g'. unfold terrain_hero, terrain, counters. simpl.
    by intros [= -> -> -> -> -> ->]. }
  intros _. induction fuel as [|fuel IH]; [apply rel_spin|].
  cbn [placeHero_loop].
  apply (rel_bind _ terrain_hero); [apply rel_randomInt|]. intros x.
  apply (rel_bind _ terrain_hero); [apply rel_randomInt|]. intros y.
  apply (rel_bind _ terrain_hero).
  { apply rel_readTile. apply terrain_hero_map. }
  intros c. destruct (is_empty c); [|apply IH].
  apply rel_modify. intros g g'. unfold terrain_hero, terrain, counters. simpl.
  by intros [= -> -> -> -> -> -> ->].
Qed.

Lemma rel_scatter tile limit fuel placed :
  rel terrain_hero terrain_hero (scatter tile limit fuel placed)
                                (scatter tile limit fuel placed).
Proof.
  revert placed. induction fuel as [|fuel IH]; intros placed; cbn [scatter].
  { destruct (bool_decide _); [apply rel_spin | apply rel_ret]. }
  destruct (bool_decide _); [|apply rel_ret].
  apply (rel_bind _ terrain_hero); [apply rel_randomInt|]. intros x.
  apply (rel_bind _ terrain_hero); [apply rel_randomInt|]. intros y.
  apply (rel_bind _ terrain_hero).
  { apply rel_readTile. apply terrain_hero_map. }
  intros c. apply rel_get. intros g0 g0' H0.
  assert (Hh : hero g0 = hero g0') by (by injection H0). rewrite Hh.
  destruct (_ && _); [|apply IH].
  apply (rel_bind _ terrain_hero); [|intros _; apply IH].
  apply rel_writeTile; [apply terrain_hero_map | apply terrain_hero_set_map].
Qed.

Lemma rel_placeEnemies fuel :
  rel terrain_hero id (placeEnemies fuel) (placeEnemies fuel).
Proof.
  unfold placeEnemies. apply (rel_bind _ id).
  { apply rel_modify. intros [m h es rs pc k ov w] [m' h' es' rs' pc' k' ov' w'].
    unfold terrain_hero, terrain, counters. simpl.
    by intros [= -> -> -> -> -> -> ->]. }
  intros _. apply rel_same.
Qed.

Lemma rel_init fuel : rel (λ _, tt) id (init fuel) (init fuel).
Proof.
  unfold init.
  apply (rel_bind _ (λ g, potionsCarried g)); [by apply rel_modify|]. intros _.
  apply (rel_bind _ (λ g, (potionsCarried g, killed g))).
  { apply rel_modify. intros g g'. simpl. by intros ->. }
  intros _. apply (rel_bind _ counters).
  { apply rel_modify. intros g g'. unfold counters. simpl. by intros [= -> ->]. }
  intros _. apply (rel_bind _ (λ g, (map g, counters g))).
  { apply rel_modify. intros g g'. unfold counters. simpl. by intros [= -> -> -> ->]. }
  intros _. apply (rel_bind _ terrain); [apply rel_placeRooms|]. intros _.
  apply (rel_bind _ terrain); [apply rel_carveCorridors|]. intros _.
  apply (rel_bind _ terrain_hero); [apply rel_placeHero|]. intros _.
  apply (rel_bind _ terrain_hero).
  { unfold placeItems. apply (rel_bind _ terrain_hero); [apply rel_scatter|].
    intros _. apply rel_scatter. }
  intros _. apply rel_placeEnemies.
Qed.

Lemma init_same fuel g0 g0' r : init fuel g0 r = init fuel g0' r.
Proof.
  pose proof (rel_init fuel g0 g0' r eq_refl) as Hsim.
  pose proof (init_post fuel g0 r) as Hpost.
  destruct (init fuel g0 r) as [[] g1 r1| |], (init fuel g0' r) as [[] g1' r1'| |];
    try done.
  destruct Hsim as (_ & -> & Hg). simpl in Hg. by rewrite Hg.
Qed.

(** X15.  [init] reads nothing of the state it starts from: from any two
    states it leads, under the same random draws, to the same outcome, so a
    restart leaves no trace of the finished game.  The Restart button, which
    resets [potionsCarried] and [killed] before it calls [init], starts
    exactly the game that [init] alone would.  Neither ever throws; the
    state of a normal return has both counters at 0, [ENEMY_COUNT] enemies
    at full hp, the hero at full hp with the base attack, and the phase
    Playing; and there are random draws under which [init] does return,
    whatever the state it starts from. *)
Theorem init_forgets_previous_state fuel g0 g0' r :
  init fuel g0 r = init fuel g0' r ∧
  restart fuel g0 r = init fuel g0' r ∧
  post True (init fuel g0 r) (λ _ g _, fresh g ∧ phase g = Playing) ∧
  ∃ r0 g1 r1, init 10 g0 r0 = Ok tt g1 r1.
Proof.
  split; [apply init_same|]. split; [apply init_same|]. split.
  - eapply post_mono; [apply init_post|]. intros [] g r' (_ & Hfresh & _).
    split; [done|]. destruct Hfresh as (_ & _ & _ & _ & _ & _ & _ & Hov & _).
    unfold phase. by rewrite Hov.
  - exists (rng_of demo_draws). do 2 eexists.
    rewrite (init_same 10 g0 blank). apply demo_start_init.
Qed.

(** ** The key listener *)

(** X16.  However many times [init] has run (first start and restarts),
    [bindInput] leaves exactly one [keydown] listener on the window, the
    handler bound last: a key press is handled once, by one call of
    [handleInput]. *)
Theorem one_key_listener_after_restarts n key g r :
  keydown (Nat.iter (S n) bindInput page0) = [n] ∧
  _boundHandle (Nat.iter (S n) bindInput page0) = Some n ∧
  dispatch (Nat.iter (S n) bindInput page0) key g r
  = bind (handleInput key) (λ _, ret tt) g r.
Proof.
  assert (Hiter : Nat.iter (S n) bindInput page0 = mkPage (Some n) [n] (S n)).
  { induction n as [|n IH]; [done|].
    change (Nat.iter (S (S n)) bindInput page0)
      with (bindInput (Nat.iter (S n) bindInput page0)).
    rewrite IH. unfold bindInput, removeEventListener, addEventListener.
    cbn [_boundHandle keydown fresh_fn].
    assert (Hgone : filter (λ f : nat, f ≠ n) [n] = []).
    { rewrite filter_cons_False by (intros H; by apply H). apply filter_nil. }
    rewrite Hgone. by rewrite bool_decide_eq_false_2 by apply not_elem_of_nil. }
  rewrite Hiter. done.
Qed.

(** ** Rendering *)

Lemma mapM_pure {A B} (f : A → M B) (f' : A → B) (l : list A) g r :
  (∀ a, a ∈ l → f a g r = Ok (f' a) g r) → mapM f l g r = Ok (f' <$> l) g r.
Proof.
  induction l as [|a l IH]; intros Hf; [done|].
  cbn [mapM]. unfold bind. rewrite Hf by left.
  rewrite IH by (intros b Hb; apply Hf; by right). done.
Qed.

Lemma elem_of_concat {A} (x : A) (ls : list (list A)) :
  x ∈ concat ls ↔ ∃ l, l ∈ ls ∧ x ∈ l.
Proof.
  induction ls as [|l0 ls IH]; simpl.
  - split; [by intros ?%elem_of_nil | by intros (l & ?%elem_of_nil & _)].
  - rewrite elem_of_app, IH. split.
    + intros [H|(l & Hl & Hx)]; [exists l0; split; [by left|done]|].
      exists l. split; [by right|done].
    + intros (l & [->|Hl]%elem_of_cons & Hx); [by left|]. right. by exists l.
Qed.

Lemma length_concat_uniform {A} (ls : list (list A)) (n : nat) :
  (∀ l, l ∈ ls → length l = n) → length (concat ls) = (length ls * n)%nat.
Proof.
  induction ls as [|l0 ls IH]; intros H; [done|]. simpl.
  rewrite length_app, H by left. rewrite IH; [done|]. intros l Hl. apply H. by right.
Qed.

Lemma find_at_pos_None x y (es : list Enemy.t) :
  find (Enemy.at_pos x y) es = None ↔ (x, y) ∉ (enemy_pos <$> es).
Proof.
  rewrite <- existsb_at_pos_false. induction es as [|e es IH]; [done|].
  simpl. destruct (Enemy.at_pos x y e); [done|]. simpl. apply IH.
Qed.

Lemma drawTile_shown g x y :
  Base g → Orderly g → _gameOver g = false → in_grid x y →
  shown g x y (drawTile g x y (tileAt (map g) x y)).
Proof.
  intros HB [(Hht & Het & Hhe) Hstats Hmax _ _ _] Hplay Hin.
  destruct (base_alive _ HB Hplay) as [Hpos _]. pose proof (base_hp _ HB) as Hhp.
  unfold shown, drawTile. cbv zeta. cbn [classList bars].
  destruct (decide ((x, y) = (Hero.x (hero g), Hero.y (hero g)))) as [[= -> ->]|Hne].
  - left. rewrite !bool_decide_eq_true_2 by done. cbn [andb].
    rewrite (proj2 (find_at_pos_None _ _ _) Hhe). rewrite Hht.
    split_and!; done || lia.
  - assert (Hhere : bool_decide (Hero.x (hero g) = x)
                    && bool_decide (Hero.y (hero g) = y) = false).
    { apply andb_false_iff.
      destruct (decide (Hero.x (hero g) = x)) as [Hx|Hx];
        [right|left]; apply bool_decide_eq_false; [|done].
      intros Hy. apply Hne. by rewrite Hx, Hy. }
    rewrite Hhere.
    destruct (find (Enemy.at_pos x y) (enemies g)) as [e|] eqn:Hfind.
    + right; left. apply find_some in Hfind as [He Hat].
      apply list_elem_of_In in He. apply at_pos_true in Hat.
      rewrite Forall_forall in Het, Hstats.
      pose proof (Het e He) as Htile. destruct (Hstats e He) as [Hm Hh].
      injection Hat as Hx Hy. rewrite Hx, Hy in Htile. rewrite Htile.
      exists e. unfold enemy_pos. rewrite Hx, Hy, Hm.
      split_and!; done || lia.
    + right; right. apply find_at_pos_None in Hfind.
      split_and!; [done|done| |done]. cbn [app]. by rewrite !app_nil_r.
Qed.

Lemma draw_eq g r :
  grid_wf (map g) →
  draw g r =
    Ok (if _gameOver g
        then Message (if _win g then "YOU WIN!" else "GAME OVER")%string
        else Tiles (concat ((λ y, (λ x, drawTile g x y (tileAt (map g) x y))
                                    <$> seqZ 0 MAP_WIDTH)
                            <$> seqZ 0 MAP_HEIGHT))) g r.
Proof.
  intros Hwf. unfold draw, bind at 1, get. destruct (_gameOver g); [done|].
  unfold bind at 1.
  rewrite (mapM_pure _ (λ y, (λ x, drawTile g x y (tileAt (map g) x y))
                               <$> seqZ 0 MAP_WIDTH)); [done|].
  intros y Hy%elem_of_seqZ. apply mapM_pure. intros x _.
  unfold bind at 1. rewrite readTile_eq by (apply grid_wf_row; [done|lia]). done.
Qed.

Lemma draw_playing g r :
  Base g → Orderly g → _gameOver g = false →
  ∃ els, draw g r = Ok (Tiles els) g r ∧
    length els = Z.to_nat (MAP_WIDTH * MAP_HEIGHT) ∧
    (∀ x y, in_grid x y →
       ∃ el, el ∈ els ∧ styleLeft el = x * TILE_SIZE ∧ styleTop el = y * TILE_SIZE ∧
             shown g x y el) ∧
    (∀ el, el ∈ els →
       ∃ x y, in_grid x y ∧ styleLeft el = x * TILE_SIZE ∧ styleTop el = y * TILE_SIZE ∧
              shown g x y el).
Proof.
  intros HB HE Hplay. rewrite draw_eq by apply HB. rewrite Hplay.
  eexists. split; [done|]. split_and!.
  - rewrite (length_concat_uniform _ (Z.to_nat MAP_WIDTH)).
    + rewrite length_fmap, length_seqZ. unfold MAP_WIDTH, MAP_HEIGHT. lia.
    + intros l (y & -> & _)%list_elem_of_fmap. by rewrite length_fmap, length_seqZ.
  - intros x y [Hx Hy]. exists (drawTile g x y (tileAt (map g) x y)).
    split; [|split_and!; [done..|by apply drawTile_shown]].
    apply elem_of_concat. eexists. split.
    + apply list_elem_of_fmap. exists y. split; [done|]. apply elem_of_seqZ. lia.
    + apply list_elem_of_fmap. exists x. split; [done|]. apply elem_of_seqZ. lia.
  - intros el (l & (y & -> & Hy%elem_of_seqZ)%list_elem_of_fmap
                 & (x & -> & Hx%elem_of_seqZ)%list_elem_of_fmap)%elem_of_concat.
    exists x, y. assert (in_grid x y) by (unfold in_grid; lia).
    split_and!; [done..|by apply drawTile_shown].
Qed.

(** X17.  What [draw] puts on the field in a reachable state.  When the
    game is over: the message of [showYouWin] if it is won and that of
    [showGameOver] otherwise, and no tile.  Otherwise [draw] returns
    normally with [MAP_WIDTH * MAP_HEIGHT] tiles, one for every cell of the
    grid at [left = x * TILE_SIZE] and [top = y * TILE_SIZE], and none
    else; the tile of the hero's cell has the classes [tile] and [tileP]
    only and one health bar, with [0 < hp <= maxHp]; the tile of an enemy's
    cell has the classes [tile] and [tileE] only and the health bar of that
    enemy, with [0 < hp <= maxHp]; every other tile has no health bar and
    the class of its tile.  So no unit is drawn over a wall, an item or
    another unit. *)
Theorem draw_shows_each_unit_alone g r :
  reachable g →
  if _gameOver g
  then draw g r
       = Ok (Message (if _win g then "YOU WIN!" else "GAME OVER")%string) g r
  else ∃ els, draw g r = Ok (Tiles els) g r ∧
    length els = Z.to_nat (MAP_WIDTH * MAP_HEIGHT) ∧
    (∀ x y, in_grid x y →
       ∃ el, el ∈ els ∧ styleLeft el = x * TILE_SIZE ∧ styleTop el = y * TILE_SIZE ∧
             shown g x y el) ∧
    (∀ el, el ∈ els →
       ∃ x y, in_grid x y ∧ styleLeft el = x * TILE_SIZE ∧ styleTop el = y * TILE_SIZE ∧
              shown g x y el).
Proof.
  intros Hg. pose proof (reachable_Inv g Hg) as [HB _].
  pose proof (reachable_Orderly g Hg) as HE.
  destruct (_gameOver g) eqn:Hplay.
  - rewrite draw_eq by apply HB. by rewrite Hplay.
  - by apply draw_playing.
Qed.

Lemma draw_shows_each_unit_alone_demo :
  ∃ els, draw demo_start quiet = Ok (Tiles els) demo_start quiet ∧
    length els = Z.to_nat (MAP_WIDTH * MAP_HEIGHT) ∧
    (∀ x y, in_grid x y →
       ∃ el, el ∈ els ∧ styleLeft el = x * TILE_SIZE ∧ styleTop el = y * TILE_SIZE ∧
             shown demo_start x y el) ∧
    (∀ el, el ∈ els →
       ∃ x y, in_grid x y ∧ styleLeft el = x * TILE_SIZE ∧ styleTop el = y * TILE_SIZE ∧
              shown demo_start x y el).
Proof.
  assert (Hplay : _gameOver demo_start = false) by (vm_compute; reflexivity).
  pose proof (draw_shows_each_unit_alone demo_start quiet) as H.
  rewrite Hplay in H. apply H.
  apply (reach_init blank (rng_of demo_draws) 10 _
           (rng_after (init 10 blank (rng_of demo_draws)))).
  apply returns_eq; vm_compute; reflexivity.
Defined.

(** ** The damage of the enemy turn *)

Lemma turnDamage_nonneg h (es : list Enemy.t) :
  Forall (λ e, 0 ≤ Enemy.attack e) es → 0 ≤ turnDamage h es.
Proof.
  induction 1 as [|e es He _ IH]; [done|]. unfold turnDamage in *. cbn [foldr].
  unfold pending at 1. destruct (_ && _); lia.
Qed.

Lemma turnDamage_pos h h' (es : list Enemy.t) :
  Hero.x h' = Hero.x h → Hero.y h' = Hero.y h → turnDamage h' es = turnDamage h es.
Proof.
  intros Hx Hy. unfold turnDamage, pending, adjacent. by rewrite Hx, Hy.
Qed.

Lemma sweep_damage k i g r T flags :
  grid_wf (map g) → Forall (λ e, 0 ≤ Enemy.attack e) (enemies g) →
  length (enemies g) = (i + k)%nat → 0 < Hero.hp (hero g) →
  Hero.hp (hero g) - turnDamage (hero g) (drop i (enemies g)) = T →
  (_gameOver g, _win g) = flags →
  ∃ g' r', updateEnemies_loop (seq i k) g r = Ok tt g' r' ∧
    Hero.hp (hero g') = (if bool_decide (T <= 0) then 0 else T) ∧
    (_gameOver g', _win g')
      = (if bool_decide (T <= 0) then (true, false) else flags).
Proof.
  revert i g r. induction k as [|k IH]; intros i g r Hwf Hatk Hlen Hhp HT Hfl.
  { exists g, r. rewrite drop_ge in HT by lia. cbn in HT.
    rewrite bool_decide_eq_false_2 by lia. split_and!; [done|lia|done]. }
  destruct (lookup_lt_is_Some_2 (enemies g) i) as [e He]; [lia|].
  destruct (enemyTurn_turned i e g r Hwf He) as (f & g1 & r1 & Heq & Ht & _).
  cbn [seq updateEnemies_loop]. unfold bind. rewrite Heq.
  pose proof (Forall_lookup_1 _ _ _ _ Hatk He) as Hatke. cbv beta in Hatke.
  rewrite (drop_S _ _ _ He) in HT. unfold turnDamage in HT. cbn [foldr] in HT.
  fold (turnDamage (hero g) (drop (S i) (enemies g))) in HT.
  assert (Hrest : 0 ≤ turnDamage (hero g) (drop (S i) (enemies g))).
  { apply turnDamage_nonneg. by apply Forall_drop. }
  pose proof (lookup_lt_Some _ _ _ He) as Hlt.
  assert (Hpend : pending (hero g) e =
            if negb (Enemy._justRetaliated e) && adjacent e (hero g)
            then Enemy.attack e else 0) by done.
  destruct Ht as [Hflag|Hflag Hadj Hsurv|Hflag Hadj Hdead|Hflag Hadj
                  |mv Hflag Hadj Hmv nx ny Hin Hempty Hnh Hfree];
    rewrite Hflag, ?Hadj in Hpend; cbn [negb andb] in Hpend; rewrite Hpend in HT.
  - apply IH; simpl; rewrite ?length_insert; try done; try lia.
    + apply Forall_insert; [done|exact Hatke].
    + rewrite drop_insert_lt by lia. lia.
  - apply IH; simpl; try done; try lia.
    rewrite (turnDamage_pos (hero g)) by done. lia.
  - exists (lostGame (set_hero (Hero.set_hp (Hero.hp (hero g) - Enemy.attack e)
                                            (hero g)) g)), r1.
    rewrite bool_decide_eq_true_2 by lia. done.
  - apply IH; try done; lia.
  - apply IH; simpl; rewrite ?length_insert; try done; try lia.
    + apply Forall_insert; [done|exact Hatke].
    + rewrite drop_insert_lt by lia. lia.
Qed.

(** X18.  The damage of the enemy turn, from a state with a complete grid,
    enemies of non-negative attack and the hero alive: every enemy that is
    next to the hero and not flagged [_justRetaliated] hits once, for its
    attack; an enemy that moves next to the hero during the turn does not
    hit in that turn.  If the hits bring the hp to 0 or below the turn stops,
    the hp is set to 0 and the game is over and not won; otherwise the flags
    stay. *)
Theorem enemy_turn_damage g r :
  grid_wf (map g) → Forall (λ e, 0 ≤ Enemy.attack e) (enemies g) →
  0 < Hero.hp (hero g) →
  let left := Hero.hp (hero g) - turnDamage (hero g) (enemies g) in
  ∃ g' r', updateEnemies g r = Ok tt g' r' ∧
    Hero.hp (hero g') = (if bool_decide (left <= 0) then 0 else left) ∧
    (_gameOver g', _win g')
      = (if bool_decide (left <= 0) then (true, false) else (_gameOver g, _win g)).
Proof.
  intros Hwf Hatk Hhp. cbv zeta. unfold updateEnemies, bind, get.
  by apply (sweep_damage (length (enemies g)) 0 g r).
Qed.

Lemma enemy_turn_damage_demo :
  turnDamage (hero demo_east) (enemies demo_east) = 3 ∧
  ∃ g' r', updateEnemies demo_east quiet = Ok tt g' r' ∧
    Hero.hp (hero g') = 1 ∧ (_gameOver g', _win g') = (false, false).
Proof.
  split; [vm_compute; reflexivity|].
  destruct (enemy_turn_damage demo_east quiet) as (g' & r' & Heq & Hhp & Hflags).
  - apply grid_full_wf. vm_compute. reflexivity.
  - apply (bool_decide_unpack _). vm_compute. exact I.
  - vm_compute. reflexivity.
  - exists g', r'. split; [exact Heq|]. rewrite Hhp, Hflags.
    split; vm_compute; reflexivity.
Defined.

(** ** The last blow *)

Lemma all_fall atk ps (es : list Enemy.t) :
  (∀ e, e ∈ es → enemy_pos e ∈ ps ∧ Enemy.hp e - atk ≤ 0) →
  omap (strike atk ps) es = [] ∧ retaliation atk ps es = 0 ∧
  kills atk ps es = Z.of_nat (length es).
Proof.
  induction es as [|e es IH]; intros Hall; [done|].
  destruct (Hall e) as [Hin Hdead]; [by left|].
  destruct IH as (IHo & IHr & IHk); [intros e' He'; apply Hall; by right|].
  unfold retaliation, kills in *. rewrite omap_cons. cbn [foldr length].
  unfold strike at 1, strikes_back at 1, falls at 1.
  rewrite (bool_decide_eq_true_2 _ Hin).
  rewrite (bool_decide_eq_false_2 (Enemy.hp e - atk > 0)) by lia.
  cbn [andb negb]. rewrite IHo, IHr, IHk. split_and!; [done|done|lia].
Qed.

(** X19.  An Attack under which every enemy left stands next to the hero and
    has no more hp than the hero's attack, no two enemies sharing a cell:
    [heroAttack] removes them all, adds their number to [killed] and sets
    the phase to Won; nobody retaliates, so the hero is exactly as before,
    and so is the grid.  The enemy turn that follows in the same key event
    finds no enemy and changes nothing. *)
Theorem last_blow_wins g r :
  NoDup (enemy_pos <$> enemies g) →
  (∀ e, e ∈ enemies g →
        adjacent e (hero g) = true ∧ Enemy.hp e ≤ Hero.attack (hero g)) →
  ∃ g', heroAttack g r = Ok tt g' r ∧
        (_gameOver g = false → handleInput " " g r = Ok tt g' r) ∧
        phase g' = Won ∧ enemies g' = [] ∧ hero g' = hero g ∧ map g' = map g ∧
        killed g' = killed g + Z.of_nat (length (enemies g)).
Proof.
  intros Hnd Hall.
  destruct (all_fall (Hero.attack (hero g)) (neighbours (hero g)) (enemies g))
    as (Ho & Hr & Hk).
  { intros e He. destruct (Hall e He) as [Hadj Hhp].
    split; [by apply adjacent_neighbours | lia]. }
  assert (Hattack : heroAttack g r
    = Ok tt (set_flags true true
               (set_killed (killed g + Z.of_nat (length (enemies g)))
                           (set_enemies [] g))) r).
  { rewrite heroAttack_eq by done. unfold attack_spec, struckGame. cbv zeta.
    rewrite Ho, Hr, Hk. cbn [enemies].
    rewrite (bool_decide_eq_true_2 ([] = [])) by done. cbn [orb].
    destruct g as [m [] ]. simpl. by rewrite Z.sub_0_r. }
  eexists. split; [exact Hattack|]. split; [|done].
  intros Hplay. rewrite handleInput_space by done.
  unfold bind. by rewrite Hattack.
Qed.

Lemma last_blow_wins_demo :
  let g := scene (Hero.mk 1 1 10 10 5)
                 [Enemy.mk 1 2 5 5 2 false; Enemy.mk 0 1 3 5 2 false] in
  ∃ g', heroAttack g quiet = Ok tt g' quiet ∧
        (_gameOver g = false → handleInput " " g quiet = Ok tt g' quiet) ∧
        phase g' = Won ∧ enemies g' = [] ∧ hero g' = hero g ∧ map g' = map g ∧
        killed g' = killed g + Z.of_nat (length (enemies g)).
Proof.
  cbv zeta.
  apply (last_blow_wins
           (scene (Hero.mk 1 1 10 10 5)
                  [Enemy.mk 1 2 5 5 2 false; Enemy.mk 0 1 3 5 2 false]) quiet).
  - apply (bool_decide_unpack _). vm_compute. exact I.
  - apply Forall_forall. apply (bool_decide_unpack _). vm_compute. exact I.
Defined.

(** * Movement within the grid and across its edges *)

(** ** The cell that a step reads *)

Lemma someIdx_true {A} (p : A → nat → bool) (l : list A) (k : nat) :
  someIdx p l k = true ↔ ∃ j a, l !! j = Some a ∧ p a (k + j)%nat = true.
Proof.
  revert k. induction l as [|a0 l IH]; intros k; simpl.
  { split; [done|]. by intros (j & a & Hj & _). }
  rewrite orb_true_iff, IH. split.
  - intros [H0|(j & a & Hj & Hp)].
    + exists O, a0. by rewrite Nat.add_0_r.
    + exists (S j), a. split; [done|]. by rewrite <- Nat.add_succ_comm.
  - intros (j & a & Hj & Hp). destruct j as [|j]; simpl in Hj.
    + left. injection Hj as <-. by rewrite Nat.add_0_r in Hp.
    + right. exists j, a. split; [done|]. by rewrite Nat.add_succ_comm.
Qed.

Lemma elem_of_pos_delete (es : list Enemy.t) i p :
  p ∈ enemy_pos <$> delete i es
  ↔ ∃ j oth, j ≠ i ∧ es !! j = Some oth ∧ enemy_pos oth = p.
Proof.
  rewrite list_elem_of_fmap. split.
  - intros (oth & -> & [j Hj]%list_elem_of_lookup).
    destruct (decide (j < i)%nat) as [Hlt|Hge].
    + rewrite list_lookup_delete_lt in Hj by done. exists j, oth. split; [lia|done].
    + rewrite list_lookup_delete_ge in Hj by lia. exists (S j), oth. split; [lia|done].
  - intros (j & oth & Hne & Hj & <-). exists oth. split; [done|].
    apply list_elem_of_lookup. destruct (decide (j < i)%nat) as [Hlt|Hge].
    + exists j. by rewrite list_lookup_delete_lt.
    + exists (pred j). rewrite list_lookup_delete_ge by lia.
      by replace (S (pred j)) with j by lia.
Qed.

Lemma someIdx_others (es : list Enemy.t) i x y :
  someIdx (λ oth idx, bool_decide (idx ≠ i) && Enemy.at_pos x y oth) es O
  = bool_decide ((x, y) ∈ enemy_pos <$> delete i es).
Proof.
  apply eq_true_iff_eq. rewrite someIdx_true, bool_decide_eq_true, elem_of_pos_delete.
  split.
  - intros (j & oth & Hj & Hp). apply andb_true_iff in Hp as [Hne Hat].
    apply bool_decide_eq_true in Hne. apply at_pos_true in Hat. by exists j, oth.
  - intros (j & oth & Hne & Hj & Hat). exists j, oth. split; [done|].
    apply andb_true_iff. split; [by apply bool_decide_eq_true|by apply at_pos_true].
Qed.

Lemma heading_in_grid e mv : in_grid (heading e mv).1 (heading e mv).2.
Proof.
  split; [apply (wrap_range MAP_WIDTH) | apply (wrap_range MAP_HEIGHT)]; done.
Qed.

(** The turn of an enemy that is neither flagged nor next to the hero: one
    draw, then the step that the tile read at the wrapped cell allows. *)
Lemma enemyTurn_roamed i e g r :
  grid_wf (map g) → enemies g !! i = Some e →
  Enemy._justRetaliated e = false → adjacent e (hero g) = false →
  ∃ k mv r',
    randomInt 0 (Z.of_nat (length moves) - 1) g r = Ok k g r' ∧
    moves !! Z.to_nat k = Some mv ∧
    enemyTurn i g r = Ok Next (roamed i e mv g) r'.
Proof.
  intros Hwf He Hflag Hadj.
  destruct (draw_move (stream r (cursor r))) as (mv & Hlk & Hmv).
  exists (floor_scale (stream r (cursor r)) (Z.of_nat (length moves) - 1 - 0 + 1) + 0),
         mv, (mkRng (stream r) (S (cursor r))).
  split; [done|]. split; [done|].
  unfold enemyTurn, bind at 1, get. rewrite He, Hflag.
  unfold adjacent in Hadj. cbv zeta in Hadj. rewrite Hadj.
  unfold bind at 1, randomInt, bind at 1, random, ret. rewrite Hlk.
  unfold roamed, vacant, heading. cbv zeta. cbn [fst snd].
  assert (Hmoves : bool_decide (mv.1 ≠ 0) || bool_decide (mv.2 ≠ 0)
                   = bool_decide (mv ≠ (0, 0))).
  { destruct mv as [a b]. cbn [fst snd]. apply eq_true_iff_eq.
    rewrite orb_true_iff, !bool_decide_eq_true. split.
    - intros [Ha|Hb] [= -> ->]; done.
    - intros Hne. destruct (decide (a = 0)) as [->|Ha]; [|by left].
      right. intros ->. done. }
  rewrite Hmoves. destruct (bool_decide (mv ≠ (0, 0))); [|done]. cbn [andb].
  pose proof (wrap_range MAP_HEIGHT (Enemy.y e + mv.2) eq_refl) as Hny.
  unfold bind at 1. rewrite readTile_eq by by apply grid_wf_row.
  unfold bind at 1, get. unfold is_empty. rewrite someIdx_others.
  set (nx := wrap MAP_WIDTH (Enemy.x e + mv.1)).
  set (ny := wrap MAP_HEIGHT (Enemy.y e + mv.2)).
  assert (Hhero : negb (bool_decide (nx = Hero.x (hero g))
                        && bool_decide (ny = Hero.y (hero g)))
                  = bool_decide ((nx, ny) ≠ (Hero.x (hero g), Hero.y (hero g)))).
  { apply eq_true_iff_eq.
    rewrite negb_true_iff, andb_false_iff, !bool_decide_eq_false, bool_decide_eq_true.
    split.
    - intros [Hx|Hy] [= Hx' Hy']; done.
    - intros Hne. destruct (decide (nx = Hero.x (hero g))) as [Hx|Hx]; [|by left].
      right. intros Hy. apply Hne. by rewrite Hx, Hy. }
  rewrite Hhero.
  assert (Hfree : negb (bool_decide ((nx, ny) ∈ enemy_pos <$> delete i (enemies g)))
                  = bool_decide ((nx, ny) ∉ enemy_pos <$> delete i (enemies g))).
  { apply eq_true_iff_eq.
    by rewrite negb_true_iff, bool_decide_eq_false, bool_decide_eq_true. }
  rewrite Hfree.
  by destruct (bool_decide (tileAt _ _ _ = _) && _ && _).
Qed.
Lemma roamed_map i e mv g : map (roamed i e mv g) = map g.
Proof. unfold roamed. cbv zeta. by destruct (_ && _). Qed.

Lemma roamed_in_grid i e mv g :
  Forall (λ e', in_grid (Enemy.x e') (Enemy.y e')) (enemies g) →
  Forall (λ e', in_grid (Enemy.x e') (Enemy.y e')) (enemies (roamed i e mv g)).
Proof.
  intros Hall. unfold roamed. cbv zeta. destruct (_ && _); [|done].
  cbn [enemies set_enemies]. apply Forall_insert; [done|].
  apply (heading_in_grid e mv).
Qed.

(** Whatever its turn is, an enemy leaves the grid alone and ends on a cell
    of the grid. *)
Lemma turned_in_grid i e g f g' :
  enemies g !! i = Some e → turned i e g f g' →
  map g' = map g ∧
  (Forall (λ e', in_grid (Enemy.x e') (Enemy.y e')) (enemies g) →
   Forall (λ e', in_grid (Enemy.x e') (Enemy.y e')) (enemies g')).
Proof.
  intros He Ht.
  destruct Ht as [Hflag|Hflag Hadj Hsurv|Hflag Hadj Hdead|Hflag Hadj
                  |mv Hflag Hadj Hmv nx ny Hin Hempty Hnh Hfree];
    (split; [done|]); intros Hall; try done.
  - cbn [enemies set_enemies]. apply Forall_insert; [done|].
    apply (Forall_lookup_1 _ _ _ _ Hall He).
  - cbn [enemies set_enemies]. by apply Forall_insert.
Qed.

(** The state after [attemptMove] has a complete grid, with the hero on a
    cell of it. *)
Lemma moved_in_grid dx dy g :
  grid_wf (map g) →
  grid_wf (map (moved dx dy g)) ∧
  (in_grid (Hero.x (hero g)) (Hero.y (hero g)) →
   in_grid (Hero.x (hero (moved dx dy g))) (Hero.y (hero (moved dx dy g)))).
Proof.
  intros Hwf.
  destruct (decide (tileAt (map g) (target dx dy g).1 (target dx dy g).2
                    = Some TILE_WALL)) as [Hwall|Hwall].
  { unfold moved. cbv zeta. by rewrite (bool_decide_eq_true_2 _ Hwall). }
  destruct (decide (target dx dy g ∈ enemy_pos <$> enemies g)) as [Hen|Hfree].
  { unfold moved. cbv zeta. rewrite (bool_decide_eq_false_2 _ Hwall).
    by rewrite (bool_decide_eq_true_2 _ Hen). }
  destruct (attemptMove_fields dx dy g (mkRng (λ _, mkSample 0 0) 0) Hwf Hwall Hfree)
    as (g' & Heq & Hpos & _ & _ & _ & _ & _ & Hat & Hrest & _).
  rewrite attemptMove_eq in Heq by done. injection Heq as <-.
  pose proof (target_in_grid dx dy g) as Hin. split.
  - intros x y Hxy. destruct (decide ((x, y) = target dx dy g)) as [Hp|Hp].
    + rewrite <- Hp in Hat. cbn [fst snd] in Hat. rewrite Hat.
      destruct (bool_decide _); [done|]. by apply Hwf.
    + rewrite Hrest by done. by apply Hwf.
  - intros _. destruct (target dx dy g) as [px py]. cbn [fst snd] in Hin.
    injection Hpos as -> ->. done.
Qed.

(** C6.  Let the grid be complete: all [MAP_HEIGHT] rows, each with all
    [MAP_WIDTH] columns, as [init] leaves it and every key event keeps it.
    - For every position [(x, y)] and every direction [(dx, dy)] the wrapped
      candidate cell lies in [[0,MAP_WIDTH) x [0,MAP_HEIGHT)], and the
      expression [map[ny][nx]] evaluates to a tile: it neither throws for a
      missing row nor yields [undefined] for a missing column.
    - [attemptMove]: the cell it reads is that candidate for the hero's
      position; it returns the state [moved dx dy g], which the tile of that
      cell decides (a Wall there blocks the move), with a complete grid and
      the hero on a cell of the grid.
    - The turn of an enemy returns normally with the grid as it was and the
      enemies on cells of the grid; when the enemy is neither flagged nor
      next to the hero, it draws one entry [mv] of [moves] and the turn ends
      in the state [roamed i e mv g], which the tile of the wrapped
      candidate cell decides (the enemy steps onto it only if it is Empty).
    - A key event handled from a reachable state never throws for a grid
      access: it returns normally, with a complete grid and every unit on a
      cell of the grid, or the key names a member of [Object.prototype] and
      the handler has thrown before reading the grid. *)
Theorem movement_in_bounds g :
  grid_wf (map g) →
  (∀ x y dx dy r,
     let nx := wrap MAP_WIDTH (x + dx) in
     let ny := wrap MAP_HEIGHT (y + dy) in
     in_grid nx ny ∧
     ∃ t, tileAt (map g) nx ny = Some t ∧ readTile ny nx g r = Ok (Some t) g r) ∧
  (∀ dx dy r,
     in_grid (target dx dy g).1 (target dx dy g).2 ∧
     attemptMove dx dy g r = Ok tt (moved dx dy g) r ∧
     grid_wf (map (moved dx dy g)) ∧
     (in_grid (Hero.x (hero g)) (Hero.y (hero g)) →
      in_grid (Hero.x (hero (moved dx dy g))) (Hero.y (hero (moved dx dy g))))) ∧
  (∀ i e r,
     enemies g !! i = Some e →
     ∃ f g' r',
       enemyTurn i g r = Ok f g' r' ∧ map g' = map g ∧
       (Forall (λ e', in_grid (Enemy.x e') (Enemy.y e')) (enemies g) →
        Forall (λ e', in_grid (Enemy.x e') (Enemy.y e')) (enemies g')) ∧
       (Enemy._justRetaliated e = false → adjacent e (hero g) = false →
        ∃ k mv,
          randomInt 0 (Z.of_nat (length moves) - 1) g r = Ok k g r' ∧
          moves !! Z.to_nat k = Some mv ∧
          in_grid (heading e mv).1 (heading e mv).2 ∧
          f = Next ∧ g' = roamed i e mv g)) ∧
  (reachable g → ∀ key r,
     handled key g r (λ g',
       grid_wf (map g') ∧
       in_grid (Hero.x (hero g')) (Hero.y (hero g')) ∧
       Forall (λ e', in_grid (Enemy.x e') (Enemy.y e')) (enemies g'))).
Proof.
  intros Hwf. split_and!.
  - intros x y dx dy r nx ny.
    assert (Hin : in_grid nx ny) by (split; by apply wrap_range).
    split; [done|]. destruct (Hwf nx ny Hin) as [t Ht]. exists t. split; [done|].
    rewrite readTile_eq by (apply grid_wf_row; [done|apply Hin]). by rewrite Ht.
  - intros dx dy r. split; [apply target_in_grid|].
    split; [by apply attemptMove_eq|]. by apply moved_in_grid.
  - intros i e r He.
    destruct (enemyTurn_turned i e g r Hwf He) as (f & g' & r' & Heq & Ht & _).
    exists f, g', r'. split; [done|].
    destruct (turned_in_grid i e g f g' He Ht) as [Hmap Hall].
    split; [done|]. split; [done|]. intros Hflag Hadj.
    destruct (enemyTurn_roamed i e g r Hwf He Hflag Hadj)
      as (k & mv & r1 & Hdraw & Hmv & Heq1).
    rewrite Heq1 in Heq. injection Heq as <- <- <-.
    exists k, mv. split_and!; try done. apply heading_in_grid.
  - intros Hg key r. apply (handled_mono Inv); [|by apply handleInput_Inv, reachable_Inv].
    intros g' [HB _]. split; [apply HB|]. split; [apply HB|].
    eapply Forall_impl; [apply (base_enemies _ HB)|]. by intros e' [He' _].
Qed.

Lemma movement_in_bounds_demo :
  (∀ x y dx dy r,
     let nx := wrap MAP_WIDTH (x + dx) in
     let ny := wrap MAP_HEIGHT (y + dy) in
     in_grid nx ny ∧
     ∃ t, tileAt (map demo_start) nx ny = Some t ∧
          readTile ny nx demo_start r = Ok (Some t) demo_start r) ∧
  (∀ dx dy r,
     attemptMove dx dy demo_start r = Ok tt (moved dx dy demo_start) r) ∧
  tileAt (map demo_start) 4 5 = Some TILE_WALL ∧
  attemptMove (-1) 0 demo_start quiet = Ok tt demo_start quiet ∧
  (∃ g' r', enemyTurn 0 demo_start south_first = Ok Next g' r' ∧
            enemy_pos <$> enemies demo_start !! 0%nat = Some (30, 0) ∧
            tileAt (map demo_start) 30 1 = Some TILE_EMPTY ∧
            enemy_pos <$> enemies g' !! 0%nat = Some (30, 1)) ∧
  (∀ key r,
     handled key demo_start r (λ g',
       grid_wf (map g') ∧
       in_grid (Hero.x (hero g')) (Hero.y (hero g')) ∧
       Forall (λ e', in_grid (Enemy.x e') (Enemy.y e')) (enemies g'))).
Proof.
  destruct (movement_in_bounds demo_start) as (Hread & Hmove & Hturn & Hkey).
  - apply grid_full_wf. vm_compute. reflexivity.
  - split; [exact Hread|]. split; [intros dx dy r; apply (Hmove dx dy r)|].
    split; [vm_compute; reflexivity|].
    split.
    { destruct (Hmove (-1) 0 quiet) as (_ & Heq & _). rewrite Heq.
      vm_compute. reflexivity. }
    split.
    { destruct (Hturn O (Enemy.mk 30 0 ENEMY_HP ENEMY_HP ENEMY_ATTACK false)
                  south_first)
        as (f & g' & r' & Heq & _ & _ & Hroam); [vm_compute; reflexivity|].
      destruct Hroam as (k & mv & Hdraw & Hmv & _ & -> & ->);
        [reflexivity|vm_compute; reflexivity|].
      exists (roamed 0 (Enemy.mk 30 0 ENEMY_HP ENEMY_HP ENEMY_ATTACK false) mv
                     demo_start), r'.
      split; [exact Heq|]. split; [vm_compute; reflexivity|].
      split; [vm_compute; reflexivity|].
      pose proof (f_equal state_of Heq) as Hs. cbn [state_of] in Hs.
      rewrite <- Hs. vm_compute. reflexivity. }
    apply Hkey.
    apply (reach_init blank (rng_of demo_draws) 10 _
             (rng_after (init 10 blank (rng_of demo_draws)))).
    apply returns_eq; vm_compute; reflexivity.
Defined.

(** ** The two cells that a wrapped step joins *)

Lemma across_edge_target g e :
  in_grid (Hero.x (hero g)) (Hero.y (hero g)) → across_edge (hero g) e →
  ∃ d, d ∈ dirs ∧ target d.1 d.2 g = enemy_pos e.
Proof.
  intros [Hx Hy] Hedge.
  unfold across_edge, MAP_WIDTH, MAP_HEIGHT in *. unfold enemy_pos, dirs, target.
  destruct Hedge as [(Hh & Hex & Hey)|[(Hh & Hex & Hey)|[(Hh & Hex & Hey)
                    |(Hh & Hex & Hey)]]].
  - exists (-1, 0). split; [rewrite !elem_of_cons; auto 6|]. cbn [fst snd]. unfold wrap.
    repeat case_bool_decide; f_equal; unfold MAP_WIDTH, MAP_HEIGHT in *; lia.
  - exists (1, 0). split; [rewrite !elem_of_cons; auto 6|]. cbn [fst snd]. unfold wrap.
    repeat case_bool_decide; f_equal; unfold MAP_WIDTH, MAP_HEIGHT in *; lia.
  - exists (0, -1). split; [rewrite !elem_of_cons; auto 6|]. cbn [fst snd]. unfold wrap.
    repeat case_bool_decide; f_equal; unfold MAP_WIDTH, MAP_HEIGHT in *; lia.
  - exists (0, 1). split; [rewrite !elem_of_cons; auto 6|]. cbn [fst snd]. unfold wrap.
    repeat case_bool_decide; f_equal; unfold MAP_WIDTH, MAP_HEIGHT in *; lia.
Qed.

(** A Move towards a cell on which an enemy stands changes nothing. *)
Lemma attemptMove_bump dx dy g r :
  grid_wf (map g) → target dx dy g ∈ enemy_pos <$> enemies g →
  attemptMove dx dy g r = Ok tt g r.
Proof.
  intros Hwf Hen. rewrite attemptMove_eq by done. unfold moved. cbv zeta.
  destruct (bool_decide (tileAt _ _ _ = _)); [done|].
  by rewrite (bool_decide_eq_true_2 _ Hen).
Qed.

(** What [adjacentEnemyDamage] does to the hero and the flags is the same
    with and without an enemy that stands on none of the four cells it
    searches. *)
Lemma adjacentEnemyDamage_skip g e l1 l2 r :
  (∀ t, t ∈ targets (hero g) → Enemy.at_pos t.1 t.2 e = false) →
  enemies g = l1 ++ e :: l2 →
  ∃ g1 g2,
    adjacentEnemyDamage g r = Ok tt g1 r ∧
    adjacentEnemyDamage (set_enemies (l1 ++ l2) g) r = Ok tt g2 r ∧
    hero g1 = hero g2 ∧ _gameOver g1 = _gameOver g2 ∧ _win g1 = _win g2.
Proof.
  intros Hcells Hes. rewrite !adjacentEnemyDamage_eq. do 2 eexists.
  split; [done|]. split; [done|]. cbn [hero enemies set_enemies]. rewrite Hes.
  rewrite contactDamage_skip.
  - unfold damaged, lostGame. cbv zeta. cbn [hero set_hero Hero.hp Hero.set_hp].
    by destruct (bool_decide _).
  - intros d Hd. apply (Hcells (Hero.x (hero g) + d.1, Hero.y (hero g) + d.2)).
    unfold targets. apply list_elem_of_fmap. by exists d.
Qed.

Lemma adjacentEnemyDamage_alone g e r :
  (∀ t, t ∈ targets (hero g) → Enemy.at_pos t.1 t.2 e = false) →
  enemies g = [e] → 0 < Hero.hp (hero g) →
  adjacentEnemyDamage g r = Ok tt g r.
Proof.
  intros Hcells Hes Hhp. rewrite adjacentEnemyDamage_eq. rewrite Hes.
  assert (Hskip : contactDamage (hero g) [e] dirs = contactDamage (hero g) [] dirs).
  { apply (contactDamage_skip (hero g) [] [] e dirs). intros d Hd.
    apply (Hcells (Hero.x (hero g) + d.1, Hero.y (hero g) + d.2)).
    unfold targets. apply list_elem_of_fmap. by exists d. }
  rewrite Hskip, contactDamage_nil. unfold damaged. cbv zeta.
  cbn [hero set_hero Hero.hp Hero.set_hp]. rewrite Z.sub_0_r.
  rewrite bool_decide_eq_false_2 by lia.
  destruct g as [m [] ]. done.
Qed.

(** C9.  Let the hero stand on an edge of the grid and an enemy [e] on the
    opposite edge of the same row or column.
    - Movement wraps: for one direction [d] of [dirs], the cell that
      [attemptMove] tries to enter is the cell of [e]; on a complete grid
      the Move in that direction returns with nothing changed when an enemy
      stands on that cell, and otherwise, the tile there not being a Wall,
      it ends with the hero on that cell.
    - Adjacency does not: [e] is on none of the four cells that
      [adjacentEnemyDamage] and [heroAttack] search (the callback of [find]
      / [findIndex] rejects it for each of them).  So [adjacentEnemyDamage]
      leaves the hero and the flags as it would without [e], wherever [e] is
      in the enemy list, and with [e] the only enemy and the hero alive it
      changes nothing; [heroAttack] leaves [e] in the list untouched; the
      adjacency test of the enemy turn is false for [e], and its turn
      returns with the hero unchanged. *)
Theorem adjacency_does_not_wrap g e :
  in_grid (Hero.x (hero g)) (Hero.y (hero g)) →
  across_edge (hero g) e →
  (∃ d, d ∈ dirs ∧ target d.1 d.2 g = enemy_pos e ∧
        ∀ r, grid_wf (map g) →
             (enemy_pos e ∈ enemy_pos <$> enemies g →
              attemptMove d.1 d.2 g r = Ok tt g r) ∧
             (tileAt (map g) (Enemy.x e) (Enemy.y e) ≠ Some TILE_WALL →
              enemy_pos e ∉ enemy_pos <$> enemies g →
              ∃ g', attemptMove d.1 d.2 g r = Ok tt g' r ∧
                    (Hero.x (hero g'), Hero.y (hero g')) = enemy_pos e)) ∧
  (∀ t, t ∈ targets (hero g) → Enemy.at_pos t.1 t.2 e = false) ∧
  (∀ l1 l2 r, enemies g = l1 ++ e :: l2 →
     ∃ g1 g2,
       adjacentEnemyDamage g r = Ok tt g1 r ∧
       adjacentEnemyDamage (set_enemies (l1 ++ l2) g) r = Ok tt g2 r ∧
       hero g1 = hero g2 ∧ _gameOver g1 = _gameOver g2 ∧ _win g1 = _win g2) ∧
  (∀ r, enemies g = [e] → 0 < Hero.hp (hero g) →
        adjacentEnemyDamage g r = Ok tt g r) ∧
  (∀ r, NoDup (enemy_pos <$> enemies g) → e ∈ enemies g →
        heroAttack g r = Ok tt (attack_spec g) r ∧ e ∈ enemies (attack_spec g)) ∧
  adjacent e (hero g) = false ∧
  (∀ i r, grid_wf (map g) → enemies g !! i = Some e →
          Enemy._justRetaliated e = false →
          ∃ g' r', enemyTurn i g r = Ok Next g' r' ∧ hero g' = hero g).
Proof.
  intros Hin Hedge.
  pose proof (across_edge_not_neighbour _ _ Hedge) as Hout.
  assert (Hadj : adjacent e (hero g) = false).
  { destruct (adjacent e (hero g)) eqn:Hadj; [|done].
    by apply adjacent_neighbours in Hadj. }
  assert (Hcells : ∀ t, t ∈ targets (hero g) → Enemy.at_pos t.1 t.2 e = false).
  { intros [tx ty] Ht. apply at_pos_false. rewrite targets_neighbours in Ht.
    intros Heq. by rewrite Heq in Hout. }
  split_and!.
  - destruct (across_edge_target g e Hin Hedge) as (d & Hd & Ht).
    exists d. split; [done|]. split; [done|]. intros r Hwf. split.
    + intros Hen. apply attemptMove_bump; [done|]. by rewrite Ht.
    + intros Hwall Hfree.
      destruct (attemptMove_fields d.1 d.2 g r Hwf) as (g' & Heq & Hpos & _).
      * by rewrite Ht.
      * by rewrite Ht.
      * exists g'. split; [done|]. by rewrite Hpos.
  - done.
  - intros l1 l2 r Hes. exact (adjacentEnemyDamage_skip g e l1 l2 r Hcells Hes).
  - intros r Hes Hhp. by apply (adjacentEnemyDamage_alone g e).
  - intros r Hnd He. split; [by apply heroAttack_eq|].
    assert (Hes1 : enemies (attack_spec g)
                   = omap (strike (Hero.attack (hero g)) (neighbours (hero g)))
                          (enemies g)).
    { unfold attack_spec. cbv zeta.
      destruct (_ || _); [done|]. by destruct (bool_decide _). }
    rewrite Hes1. apply list_elem_of_omap. exists e. split; [done|].
    by apply strike_elsewhere.
  - done.
  - intros i r Hwf He Hflag.
    destruct (enemyTurn_turned i e g r Hwf He) as (f & g' & r' & Heq & Ht & _).
    destruct Ht; try congruence; by do 2 eexists.
Qed.

Lemma adjacency_does_not_wrap_demo :
  (∃ d, d ∈ dirs ∧ target d.1 d.2 demo_edge = (39, 20) ∧
        attemptMove d.1 d.2 demo_edge quiet = Ok tt demo_edge quiet) ∧
  (∃ d g', d ∈ dirs ∧
           attemptMove d.1 d.2 (scene (hero demo_edge) []) quiet = Ok tt g' quiet ∧
           (Hero.x (hero g'), Hero.y (hero g')) = (39, 20)) ∧
  adjacentEnemyDamage demo_edge quiet = Ok tt demo_edge quiet ∧
  heroAttack demo_edge quiet = Ok tt (attack_spec demo_edge) quiet ∧
  enemies (attack_spec demo_edge) = enemies demo_edge ∧
  hero (state_of (updateEnemies demo_edge quiet)) = hero demo_edge.
Proof.
  destruct (adjacency_does_not_wrap demo_edge
              (Enemy.mk 39 20 ENEMY_HP ENEMY_HP ENEMY_ATTACK false))
    as ((d & Hd & Ht & Hmove) & _ & _ & Halone & Hattack & _ & _).
  - vm_compute. repeat split; discriminate.
  - left. vm_compute. repeat split; reflexivity.
  - split.
    { exists d. split; [exact Hd|]. split; [exact Ht|].
      apply (Hmove quiet).
      - apply grid_full_wf. vm_compute. reflexivity.
      - apply (bool_decide_unpack _). vm_compute. exact I. }
    split.
    { destruct (adjacency_does_not_wrap (scene (hero demo_edge) [])
                  (Enemy.mk 39 20 ENEMY_HP ENEMY_HP ENEMY_ATTACK false))
        as ((d' & Hd' & _ & Hmove') & _).
      - vm_compute. repeat split; discriminate.
      - left. vm_compute. repeat split; reflexivity.
      - destruct (Hmove' quiet) as [_ Hgo].
        { apply grid_full_wf. vm_compute. reflexivity. }
        destruct Hgo as (g' & Heq & Hpos).
        { intros Hwall. vm_compute in Hwall. discriminate Hwall. }
        { apply not_elem_of_nil. }
        exists d', g'. split; [exact Hd'|]. split; [exact Heq|exact Hpos]. }
    split; [apply (Halone quiet); [reflexivity|vm_compute; reflexivity]|].
    split; [|split; vm_compute; reflexivity].
    apply (Hattack quiet).
    + apply (bool_decide_unpack _). vm_compute. exact I.
    + apply (bool_decide_unpack _). vm_compute. exact I.
Defined.
